(** * Musical-Keyboard: the note mapper of [src/lib/musicUtils.ts]

    A shallow embedding of the module's tables, of its process-wide musical
    context and of its operations ([keyToNote], [playNote],
    [generateHarmony], [progressChordSequence], [getChordNotes],
    [updateMusicSettings], [initAudioEngine], [cleanupAudioEngine]), of the
    mode button of the home page ([cycleMusicMode]) and of the colour of the
    key visualizer ([getKeyColor]), followed by the statements proved about
    them.

    Conventions of the embedding:
    - a JavaScript number that stays an integer is a [Z]; where the source can
      reach [NaN] or an infinity the value is a [JS.number];
    - times ([Tone.now()]), gains and random draws are rationals ([Q]): every
      double is a rational. The two double operations the source applies to
      them, the subtraction of the pruning test and the product of the
      reshuffle, round their exact result to the nearest double ([round]).
      The literal [0.2] is the double it denotes, which lies above the
      decimal; [0.6] and [0.7] are read as decimals: their doubles lie below
      them with no double in between, so that a draw exceeds the one exactly
      when it exceeds the other ([draw_above_literal]);
    - a key is a string of one UTF-16 code unit, given as that unit; longer
      keys (named keys such as [Shift]) are outside the embedding;
    - requests to the audio engine and to the timer queue are appended to a
      trace; console output is not modelled. *)

From Stdlib Require Import ZArith NArith QArith Qround Qabs Qpower.
From Stdlib Require Import Bool List String Ascii DecimalString Lia Lqa.
Import ListNotations.

Local Open Scope string_scope.
Local Open Scope list_scope.
Local Open Scope Z_scope.

(** ** The fragment of the JavaScript runtime the module relies on *)

Module JS.

(** Numbers: an integer, an infinity or NaN. *)
Inductive number : Type :=
| Num (z : Z)
| Infinity
| NegInfinity
| NaN.

(** [a % b] for an integer dividend: the sign follows the dividend. *)
Definition rem (a : Z) (b : number) : number :=
  match b with
  | Num 0 => NaN
  | Num d => Num (Z.rem a d)
  | Infinity | NegInfinity => Num a
  | NaN => NaN
  end.

(** [Math.floor(a / b)] for an integer dividend. *)
Definition floor_div (a : Z) (b : number) : number :=
  match b with
  | Num 0 => if a =? 0 then NaN else if 0 <? a then Infinity else NegInfinity
  | Num d => Num (Z.div a d)
  | Infinity | NegInfinity => Num 0
  | NaN => NaN
  end.

(** [a + b] for an integer left operand. *)
Definition add (a : Z) (b : number) : number :=
  match b with
  | Num z => Num (a + z)
  | other => other
  end.

(** [a > b] for an integer right operand. *)
Definition gt (a : number) (b : Z) : bool :=
  match a with
  | Num z => b <? z
  | Infinity => true
  | NegInfinity | NaN => false
  end.

(** Number to string, as a template literal prints it. *)
Definition toString (n : number) : string :=
  match n with
  | Num z => NilZero.string_of_int (Z.to_int z)
  | Infinity => "Infinity"
  | NegInfinity => "-Infinity"
  | NaN => "NaN"
  end.

(** What a property read on the [SCALES] object can give: one of its own
    arrays, a function or the object inherited from [Object.prototype], or
    [undefined]. *)
Inductive value : Type :=
| VArray (items : list string)
| VFunction (arity : nat)
| VObject
| VUndefined.

Definition truthy (v : value) : bool :=
  match v with
  | VUndefined => false
  | _ => true
  end.

(** [v.length] as a number ([undefined] converts to NaN); [None] when the
    read throws, on [undefined]. *)
Definition length (v : value) : option number :=
  match v with
  | VArray items => Some (Num (Z.of_nat (List.length items)))
  | VFunction arity => Some (Num (Z.of_nat arity))
  | VObject => Some NaN
  | VUndefined => None
  end.

(** List lookup at a JavaScript index. *)
Definition nth {A : Type} (l : list A) (i : Z) : option A :=
  if i <? 0 then None else nth_error l (Z.to_nat i).

(** [v[i]]: [None] is [undefined]. *)
Definition index (v : value) (i : number) : option string :=
  match v, i with
  | VArray items, Num z => nth items z
  | _, _ => None
  end.

(** A possibly undefined string inside a template literal. *)
Definition show (s : option string) : string :=
  match s with
  | Some str => str
  | None => "undefined"
  end.

(** The properties every object literal inherits from [Object.prototype]. *)
Definition Object_prototype (name : string) : value :=
  if (name =? "constructor")%string then VFunction 1
  else if (name =? "hasOwnProperty")%string then VFunction 1
  else if (name =? "isPrototypeOf")%string then VFunction 1
  else if (name =? "propertyIsEnumerable")%string then VFunction 1
  else if (name =? "toLocaleString")%string then VFunction 0
  else if (name =? "toString")%string then VFunction 0
  else if (name =? "valueOf")%string then VFunction 0
  else if (name =? "__defineGetter__")%string then VFunction 2
  else if (name =? "__defineSetter__")%string then VFunction 2
  else if (name =? "__lookupGetter__")%string then VFunction 1
  else if (name =? "__lookupSetter__")%string then VFunction 1
  else if (name =? "__proto__")%string then VObject
  else VUndefined.

(** [obj[name]] on an object literal whose own properties are the
    association list [own]: own properties first, then the prototype. *)
Fixpoint get (own : list (string * list string)) (name : string) : value :=
  match own with
  | [] => Object_prototype name
  | (k, v) :: rest => if (k =? name)%string then VArray v else get rest name
  end.

(** [arr.indexOf(x)]: the first position holding [x], or -1. *)
Fixpoint indexOf_from (items : list string) (x : string) (i : Z) : Z :=
  match items with
  | [] => -1
  | y :: rest => if (y =? x)%string then i else indexOf_from rest x (i + 1)
  end.

Definition indexOf (items : list string) (x : string) : Z :=
  indexOf_from items x 0.

(** [arr.slice(-n)]: the last [n] elements. *)
Definition slice_last {A : Type} (n : nat) (l : list A) : list A :=
  skipn (List.length l - n) l.

(** [s.slice(0, -1)] and [s.slice(-1)] on strings. *)
Definition init (s : string) : string :=
  substring 0 (String.length s - 1) s.

Definition final (s : string) : string :=
  substring (String.length s - 1) 1 s.

(** [s.charAt(0)]. *)
Definition charAt0 (s : string) : string :=
  substring 0 1 s.

(** [s.includes(c)] for a one-character [c]. *)
Fixpoint includes (s : string) (c : ascii) : bool :=
  match s with
  | EmptyString => false
  | String a rest => Ascii.eqb a c || includes rest c
  end.

(** [parseInt(s)] for a string of at most one character: the digit, or
    NaN. *)
Definition parseInt1 (s : string) : number :=
  match s with
  | String a EmptyString =>
      let c := Z.of_N (N_of_ascii a) in
      if (48 <=? c) && (c <=? 57) then Num (c - 48) else NaN
  | _ => NaN
  end.

End JS.

(** ** Tables of the module *)

(** [SCALES.chromatic]. *)
Definition SCALES_chromatic : list string :=
  ["C"; "C#"; "D"; "D#"; "E"; "F"; "F#"; "G"; "G#"; "A"; "A#"; "B"].

(** [SCALES], as the own properties of the object literal. *)
Definition SCALES : list (string * list string) :=
  [ ("major", ["C"; "D"; "E"; "F"; "G"; "A"; "B"]);
    ("minor", ["C"; "D"; "Eb"; "F"; "G"; "Ab"; "Bb"]);
    ("pentatonic", ["C"; "D"; "E"; "G"; "A"]);
    ("blues", ["C"; "Eb"; "F"; "F#"; "G"; "Bb"]);
    ("chromatic", SCALES_chromatic) ].

Record OctaveRange : Type := { min : Z; max : Z }.

Module OCTAVE_RANGES.
Definition letters : OctaveRange := {| min := 3; max := 5 |}.
Definition numbers : OctaveRange := {| min := 2; max := 4 |}.
Definition special : OctaveRange := {| min := 1; max := 3 |}.
End OCTAVE_RANGES.

Definition CHORD_PROGRESSIONS : list (list string) :=
  [ ["C"; "G"; "Am"; "F"];
    ["Am"; "F"; "C"; "G"];
    ["C"; "Am"; "F"; "G"];
    ["C"; "F"; "G"];
    ["Cm"; "G"; "Cm"] ].

(** ** The audio engine, the musical context and the host *)

(** [synth.volume.value] holds [Tone.gainToDb] of a gain; the conversion is
    kept symbolic. *)
Inductive Decibels : Type :=
| gainToDb (gain : Q).

Record PolySynth : Type := { volume : Decibels }.
Record Reverb : Type := { reverb_decay : Q; reverb_wet : Q }.
Record FeedbackDelay : Type :=
  { delayTime : Q; feedback : Q; delay_wet : Q }.

(** [synth], [reverb] and [delay]: [None] is [null]. *)
Record Engine : Type :=
  { synth : option PolySynth;
    reverb : option Reverb;
    delay : option FeedbackDelay }.

Record QueuedNote : Type := { note : string; time : Q }.

(** The module-level variables of the musical context. *)
Record Context : Type :=
  { currentScale : string;
    currentOctave : Z;
    currentProgression : Z;
    progressionIndex : Z;
    lastNotesPlayed : list string;
    notesInQueue : list QueuedNote }.

(** A timer callback of [generateHarmony]:
    [synth?.triggerAttackRelease(note, duration, Tone.now(), velocity)]. *)
Record HarmonyCallback : Type :=
  { harmony_note : string; harmony_duration : Q; harmony_velocity : Q }.

(** What the module asks of its collaborators, in program order.
    [ToneStart volume] is the call of [Tone.start()] on which
    [initAudioEngine(volume)] is suspended. *)
Inductive Request : Type :=
| ToneStart (volume : Q)
| TransportStart
| TransportStop
| Dispose (node : string)
| TriggerAttackRelease (note : string) (duration time velocity : Q)
| TriggerAttackReleaseChord (notes : list string) (duration time velocity : Q)
| SetTimeout (callback : HarmonyCallback) (ms : Z).

(** The host: the requests issued so far, the audio clock read by
    [Tone.now()] and the source of [Math.random()], each an oracle with the
    number of reads made so far. *)
Record Host : Type :=
  { trace : list Request;
    clock : nat -> Q;
    ticks : nat;
    random : nat -> Q;
    draws : nat }.

Record World : Type :=
  { engine : Engine;
    context : Context;
    host : Host }.

(** The module as loaded. *)
Definition initial_context : Context :=
  {| currentScale := "pentatonic";
     currentOctave := 4;
     currentProgression := 0;
     progressionIndex := 0;
     lastNotesPlayed := [];
     notesInQueue := [] |}.

Definition initial_engine : Engine :=
  {| synth := None; reverb := None; delay := None |}.

(** ** A state and exception monad for the module's procedures *)

Inductive Outcome (A : Type) : Type :=
| Return (a : A)
| Throw.

Arguments Return {A} a.
Arguments Throw {A}.

Definition M (A : Type) : Type := World -> Outcome A * World.

Definition ret {A : Type} (a : A) : M A := fun w => (Return a, w).

Definition throw {A : Type} : M A := fun w => (Throw, w).

Definition bind {A B : Type} (m : M A) (k : A -> M B) : M B :=
  fun w =>
    match m w with
    | (Return a, w') => k a w'
    | (Throw, w') => (Throw, w')
    end.

(** [try { body } catch (error) { console.error(...) }]. *)
Definition try_catch (body : M unit) : M unit :=
  fun w =>
    match body w with
    | (Return a, w') => (Return a, w')
    | (Throw, w') => (Return tt, w')
    end.

Notation "x <- m ;; k" := (bind m (fun x => k))
  (at level 61, m at next level, right associativity).
Notation "m ;;; k" := (bind m (fun _ => k))
  (at level 61, right associativity).

Definition get_engine : M Engine := fun w => (Return (engine w), w).
Definition get_context : M Context := fun w => (Return (context w), w).

Definition set_engine (e : Engine) : M unit :=
  fun w => (Return tt, {| engine := e; context := context w; host := host w |}).

Definition set_context (c : Context) : M unit :=
  fun w => (Return tt, {| engine := engine w; context := c; host := host w |}).

Definition request (r : Request) : M unit :=
  fun w =>
    let h := host w in
    (Return tt,
     {| engine := engine w;
        context := context w;
        host := {| trace := trace h ++ [r];
                   clock := clock h; ticks := ticks h;
                   random := random h; draws := draws h |} |}).

(** [Tone.now()]. *)
Definition Tone_now : M Q :=
  fun w =>
    let h := host w in
    (Return (clock h (ticks h)),
     {| engine := engine w;
        context := context w;
        host := {| trace := trace h;
                   clock := clock h; ticks := S (ticks h);
                   random := random h; draws := draws h |} |}).

(** [Math.random()]. *)
Definition Math_random : M Q :=
  fun w =>
    let h := host w in
    (Return (random h (draws h)),
     {| engine := engine w;
        context := context w;
        host := {| trace := trace h;
                   clock := clock h; ticks := ticks h;
                   random := random h; draws := S (draws h) |} |}).

(** Updates of single context variables. *)
Definition set_currentScale (s : string) (c : Context) : Context :=
  {| currentScale := s;
     currentOctave := currentOctave c;
     currentProgression := currentProgression c;
     progressionIndex := progressionIndex c;
     lastNotesPlayed := lastNotesPlayed c;
     notesInQueue := notesInQueue c |}.

Definition set_currentProgression (p : Z) (c : Context) : Context :=
  {| currentScale := currentScale c;
     currentOctave := currentOctave c;
     currentProgression := p;
     progressionIndex := progressionIndex c;
     lastNotesPlayed := lastNotesPlayed c;
     notesInQueue := notesInQueue c |}.

Definition set_progressionIndex (i : Z) (c : Context) : Context :=
  {| currentScale := currentScale c;
     currentOctave := currentOctave c;
     currentProgression := currentProgression c;
     progressionIndex := i;
     lastNotesPlayed := lastNotesPlayed c;
     notesInQueue := notesInQueue c |}.

Definition set_lastNotesPlayed (l : list string) (c : Context) : Context :=
  {| currentScale := currentScale c;
     currentOctave := currentOctave c;
     currentProgression := currentProgression c;
     progressionIndex := progressionIndex c;
     lastNotesPlayed := l;
     notesInQueue := notesInQueue c |}.

Definition set_notesInQueue (q : list QueuedNote) (c : Context) : Context :=
  {| currentScale := currentScale c;
     currentOctave := currentOctave c;
     currentProgression := currentProgression c;
     progressionIndex := progressionIndex c;
     lastNotesPlayed := lastNotesPlayed c;
     notesInQueue := q |}.

Definition modify_context (f : Context -> Context) : M unit :=
  c <- get_context ;; set_context (f c).

Definition lift {A : Type} (o : Outcome A) : M A := fun w => (o, w).

(** [a > b] and [a < b] on rationals. *)
Definition Qgtb (a b : Q) : bool := negb (Qle_bool a b).
Definition Qltb (a b : Q) : bool := negb (Qle_bool b a).

(** ** Doubles *)

(** The binary exponent of a rational other than 0: the [e] with
    [2^e <= |x| < 2^(e+1)]. The difference of the bit lengths of numerator
    and denominator is [e] or [e + 1]. *)
Definition Qexponent (x : Q) : Z :=
  let d := Z.log2 (Z.abs (Qnum x)) - Z.log2 (Zpos (Qden x)) in
  if Qle_bool (2 ^ d) (Qabs x) then d else d - 1.

(** The integer nearest to [m], the even one of the two when [m] lies
    halfway. *)
Definition round_half_even (m : Q) : Z :=
  let f := Qfloor m in
  match (m - inject_Z f ?= 1 # 2)%Q with
  | Lt => f
  | Gt => f + 1
  | Eq => if Z.even f then f else f + 1
  end.

(** The distance between the doubles around [x]: 53 significant bits, and
    [2^-1074] in the subnormal range. *)
Definition ulp (x : Q) : Q := (2 ^ Z.max (Qexponent x - 52) (-1074))%Q.

(** The double nearest to [x], ties to even: the result of a double
    operation whose exact result is [x], and the value of a literal written
    [x]. Overflow to an infinity, beyond [2^1024], is not modelled: times,
    draws and their products stay far below. *)
Definition round (x : Q) : Q :=
  if Qeq_bool x 0 then 0%Q
  else (inject_Z (round_half_even (x / ulp x)) * ulp x)%Q.

(** The rationals that are doubles. *)
Definition is_double (x : Q) : Prop := (round x == x)%Q.

(** The double before 2 is [2 - 2^-52]: a difference rounds below 2 when it
    lies below the midpoint of the two. *)
Definition below_two : Q := 2 - (1 # 2 ^ 53).

(** The largest double below 1. *)
Definition largest_draw : Q := 1 - (1 # 2 ^ 53).

(** ** The operations of the module *)

(** [initAudioEngine(volume)] up to its [await]: nothing when the synth
    exists, else [Tone.start()] is called and the function is suspended. *)
Definition initAudioEngine (volume : Q) : M unit :=
  e <- get_engine ;;
  match synth e with
  | Some _ => ret tt
  | None => request (ToneStart volume)
  end.

(** The rest of [initAudioEngine(volume)], run by the host once
    [Tone.start()] has settled: [started] tells whether it resolved; a
    rejection goes to the [catch]. *)
Definition initAudioEngine_resume (volume : Q) (started : bool) : M unit :=
  if started then
    set_engine
      {| synth := Some {| volume := gainToDb volume |};
         reverb := Some {| reverb_decay := 2.5; reverb_wet := 0.3 |};
         delay := Some {| delayTime := 0.25; feedback := 0.2;
                          delay_wet := 0.2 |} |} ;;;
    request TransportStart ;;;
    t <- Tone_now ;;
    request (TriggerAttackRelease "C4" 0.01 t 0.01)
  else ret tt.

(** [/[A-Z]/i.test(key)] on a one-unit key. Without the [u] flag the match
    canonicalises a unit with [toUpperCase] and never maps a unit above 127
    to one below 128, so only the ASCII letters match. *)
Definition test_letter (key : N) : bool :=
  (((65 <=? key) && (key <=? 90)) || ((97 <=? key) && (key <=? 122)))%N.

(** [/[0-9]/.test(key)] on a one-unit key. *)
Definition test_digit (key : N) : bool :=
  ((48 <=? key) && (key <=? 57))%N.

(** [key.toUpperCase().charCodeAt(0)], read in the letter branch only, where
    the unit is an ASCII letter. *)
Definition toUpperCase_charCodeAt0 (key : N) : Z :=
  if ((97 <=? key) && (key <=? 122))%N then Z.of_N key - 32 else Z.of_N key.

(** [parseInt(key)], read in the digit branch only, where the unit is a
    decimal digit. *)
Definition parseInt_key (key : N) : Z := Z.of_N key - 48.

(** [key.charCodeAt(0)]. *)
Definition charCodeAt0 (key : N) : Z := Z.of_N key.

(** [keyToNote(key)]: [Throw] is the TypeError of [scale.length] on an
    undefined scale. *)
Definition keyToNote (c : Context) (key : N) : Outcome string :=
  let scale := JS.get SCALES (currentScale c) in
  match JS.length scale with
  | None => Throw
  | Some scale_length =>
      if test_letter key then
        let letterIndex := toUpperCase_charCodeAt0 key - 65 in
        let noteIndex := JS.rem letterIndex scale_length in
        let octave :=
          JS.add (min OCTAVE_RANGES.letters)
                 (JS.floor_div letterIndex scale_length) in
        let octave :=
          if JS.gt octave (max OCTAVE_RANGES.letters)
          then JS.Num (max OCTAVE_RANGES.letters) else octave in
        Return (JS.show (JS.index scale noteIndex) ++ JS.toString octave)%string
      else if test_digit key then
        let numIndex := JS.rem (parseInt_key key) scale_length in
        let octave :=
          JS.add (min OCTAVE_RANGES.numbers)
                 (JS.floor_div (parseInt_key key) scale_length) in
        let octave :=
          if JS.gt octave (max OCTAVE_RANGES.numbers)
          then JS.Num (max OCTAVE_RANGES.numbers) else octave in
        Return (JS.show (JS.index scale numIndex) ++ JS.toString octave)%string
      else
        let charCode := charCodeAt0 key in
        let noteIndex := JS.rem charCode scale_length in
        let octave :=
          JS.add (min OCTAVE_RANGES.special)
                 (JS.floor_div (Z.rem charCode 20) (JS.Num 10)) in
        let octave :=
          if JS.gt octave (max OCTAVE_RANGES.special)
          then JS.Num (max OCTAVE_RANGES.special) else octave in
        Return (JS.show (JS.index scale noteIndex) ++ JS.toString octave)%string
  end.

(** [getChordNotes(chordName)]. *)
Definition getChordNotes (chordName : string) : list string :=
  let root := JS.charAt0 chordName in
  let isMinor := JS.includes chordName "m"%char in
  let baseOctave := JS.Num 2 in
  let third := if isMinor then 3 else 4 in
  let chromaticScale := SCALES_chromatic in
  let rootIndex := JS.indexOf chromaticScale root in
  if rootIndex =? -1 then [(root ++ JS.toString baseOctave)%string]
  else
    let thirdNote := JS.nth chromaticScale (Z.rem (rootIndex + third) 12) in
    let fifthNote := JS.nth chromaticScale (Z.rem (rootIndex + 7) 12) in
    [ (root ++ JS.toString baseOctave)%string;
      (JS.show thirdNote ++ JS.toString baseOctave)%string;
      (JS.show fifthNote ++ JS.toString baseOctave)%string ].

(** [generateHarmony()]. The two timers are registered, not run: a callback
    fires later through [run_callback]. [Throw] is the TypeError of
    [scale.indexOf] when the scale is not an array. *)
Definition generateHarmony : M unit :=
  e <- get_engine ;;
  c <- get_context ;;
  match synth e with
  | None => ret tt
  | Some _ =>
      if (Z.of_nat (List.length (notesInQueue c)) <? 2) then ret tt
      else
        let scale := JS.get SCALES (currentScale c) in
        match List.last (map Some (lastNotesPlayed c)) None with
        | None => ret tt
        | Some lastNote =>
            if (lastNote =? "")%string then ret tt
            else
              let noteName := JS.init lastNote in
              let octave := JS.parseInt1 (JS.final lastNote) in
              match scale with
              | JS.VArray items =>
                  let noteIndex := JS.indexOf items noteName in
                  if noteIndex =? -1 then ret tt
                  else
                    let scale_length := Z.of_nat (List.length items) in
                    let thirdIndex := Z.rem (noteIndex + 2) scale_length in
                    let fifthIndex := Z.rem (noteIndex + 4) scale_length in
                    let thirdOctave :=
                      if thirdIndex <? noteIndex then JS.add 1 octave
                      else octave in
                    let fifthOctave :=
                      if fifthIndex <? noteIndex then JS.add 1 octave
                      else octave in
                    request
                      (SetTimeout
                         {| harmony_note :=
                              (JS.show (JS.nth items thirdIndex)
                               ++ JS.toString thirdOctave)%string;
                            harmony_duration := 0.4;
                            harmony_velocity := 0.4 |} 50) ;;;
                    request
                      (SetTimeout
                         {| harmony_note :=
                              (JS.show (JS.nth items fifthIndex)
                               ++ JS.toString fifthOctave)%string;
                            harmony_duration := 0.3;
                            harmony_velocity := 0.3 |} 100)
              | _ => throw
              end
        end
  end.

(** A harmony timer firing:
    [synth?.triggerAttackRelease(note, duration, Tone.now(), velocity)]. *)
Definition run_callback (cb : HarmonyCallback) : M unit :=
  e <- get_engine ;;
  match synth e with
  | None => ret tt
  | Some _ =>
      t <- Tone_now ;;
      request (TriggerAttackRelease (harmony_note cb) (harmony_duration cb) t
                                    (harmony_velocity cb))
  end.

(** [progressChordSequence()]. [Throw] is the TypeError of indexing an
    undefined progression, or of [charAt] on an undefined chord. *)
Definition progressChordSequence : M unit :=
  e <- get_engine ;;
  match synth e with
  | None => ret tt
  | Some _ =>
      r <- Math_random ;;
      if Qgtb r (round 0.2) then ret tt
      else
        c <- get_context ;;
        match JS.nth CHORD_PROGRESSIONS (currentProgression c) with
        | None => throw
        | Some progression =>
            let chord := JS.nth progression (progressionIndex c) in
            modify_context
              (set_progressionIndex
                 (Z.rem (progressionIndex c + 1)
                        (Z.of_nat (List.length progression)))) ;;;
            match chord with
            | None => throw
            | Some chord =>
                let chordNotes := getChordNotes chord in
                t <- Tone_now ;;
                request (TriggerAttackReleaseChord chordNotes 1.5 t 0.1)
            end
        end
  end.

(** [playNote(key, duration, velocity)]. *)
Definition playNote (key : N) (duration velocity : Q) : M unit :=
  e <- get_engine ;;
  match synth e with
  | None => initAudioEngine 0.5
  | Some _ =>
      try_catch
        (c <- get_context ;;
         note <- lift (keyToNote c key) ;;
         modify_context
           (fun c =>
              set_lastNotesPlayed
                (JS.slice_last 8 (lastNotesPlayed c ++ [note])) c) ;;;
         t <- Tone_now ;;
         modify_context
           (fun c =>
              set_notesInQueue
                (notesInQueue c ++ [{| note := note; time := t |}]) c) ;;;
         now <- Tone_now ;;
         modify_context
           (fun c =>
              set_notesInQueue
                (filter (fun n => Qltb (round (now - time n)) 2)
                        (notesInQueue c))
                c) ;;;
         t' <- Tone_now ;;
         request (TriggerAttackRelease note duration t' velocity) ;;;
         c <- get_context ;;
         (if 1 <? Z.of_nat (List.length (notesInQueue c)) then
            r <- Math_random ;;
            if Qgtb r 0.6 then generateHarmony else ret tt
          else ret tt) ;;;
         progressChordSequence)
  end.

(** The argument of [updateMusicSettings]: [None] is an absent field. *)
Record Settings : Type :=
  { settings_volume : option Q;
    settings_scale : option string;
    settings_reverb : option Q;
    settings_delay : option Q }.

Definition when {A : Type} (o : option A) (k : A -> M unit) : M unit :=
  match o with
  | Some a => k a
  | None => ret tt
  end.

(** [updateMusicSettings(settings)]. *)
Definition updateMusicSettings (settings : Settings) : M unit :=
  e <- get_engine ;;
  match synth e, reverb e, delay e with
  | Some _, Some _, Some _ =>
      when (settings_volume settings)
        (fun v =>
           e <- get_engine ;;
           set_engine {| synth := Some {| volume := gainToDb v |};
                         reverb := reverb e; delay := delay e |}) ;;;
      when (settings_scale settings)
        (fun s =>
           if JS.truthy (JS.get SCALES s)
           then modify_context (set_currentScale s) else ret tt) ;;;
      when (settings_reverb settings)
        (fun x =>
           e <- get_engine ;;
           set_engine
             {| synth := synth e;
                reverb := option_map
                            (fun r => {| reverb_decay := reverb_decay r;
                                         reverb_wet := x |}) (reverb e);
                delay := delay e |}) ;;;
      when (settings_delay settings)
        (fun x =>
           e <- get_engine ;;
           set_engine
             {| synth := synth e;
                reverb := reverb e;
                delay := option_map
                           (fun d => {| delayTime := delayTime d;
                                        feedback := feedback d;
                                        delay_wet := x |}) (delay e) |}) ;;;
      r <- Math_random ;;
      if Qgtb r 0.7 then
        r' <- Math_random ;;
        (let n := Z.of_nat (List.length CHORD_PROGRESSIONS) in
         modify_context
           (set_currentProgression (Qfloor (round (r' * inject_Z n))))) ;;;
        modify_context (set_progressionIndex 0)
      else ret tt
  | _, _, _ => ret tt
  end.

(** [cleanupAudioEngine()]. *)
Definition cleanupAudioEngine : M unit :=
  e <- get_engine ;;
  (match synth e with
   | Some _ =>
       request (Dispose "synth") ;;;
       e <- get_engine ;;
       set_engine {| synth := None; reverb := reverb e; delay := delay e |}
   | None => ret tt
   end) ;;;
  e <- get_engine ;;
  (match reverb e with
   | Some _ =>
       request (Dispose "reverb") ;;;
       e <- get_engine ;;
       set_engine {| synth := synth e; reverb := None; delay := delay e |}
   | None => ret tt
   end) ;;;
  e <- get_engine ;;
  (match delay e with
   | Some _ =>
       request (Dispose "delay") ;;;
       e <- get_engine ;;
       set_engine {| synth := synth e; reverb := reverb e; delay := None |}
   | None => ret tt
   end) ;;;
  request TransportStop.

(** ** Reading runs *)

(** The world a procedure leaves, and the requests it added to the trace. *)
Definition exec {A : Type} (m : M A) (w : World) : World := snd (m w).

Definition issued {A : Type} (m : M A) (w : World) : list Request :=
  skipn (List.length (trace (host w))) (trace (host (exec m w))).

Definition is_trigger (r : Request) : bool :=
  match r with
  | TriggerAttackRelease _ _ _ _ | TriggerAttackReleaseChord _ _ _ _ => true
  | _ => false
  end.

Definition is_timer (r : Request) : bool :=
  match r with
  | SetTimeout _ _ => true
  | _ => false
  end.

(** The engine is initialized for [updateMusicSettings] when the three nodes
    exist. *)
Definition initialized (e : Engine) : bool :=
  match synth e, reverb e, delay e with
  | Some _, Some _, Some _ => true
  | _, _, _ => false
  end.

(** The names of the scale registry. *)
Definition scale_names : list string := map fst SCALES.

(** [w] with the requests [rs] appended to its trace. *)
Definition add_requests (rs : list Request) (w : World) : World :=
  {| engine := engine w;
     context := context w;
     host := {| trace := trace (host w) ++ rs;
                clock := clock (host w); ticks := ticks (host w);
                random := random (host w); draws := draws (host w) |} |}.

(** [w] after [k] draws in all. *)
Definition set_draws (k : nat) (w : World) : World :=
  {| engine := engine w;
     context := context w;
     host := {| trace := trace (host w);
                clock := clock (host w); ticks := ticks (host w);
                random := random (host w); draws := k |} |}.

(** The world [progressChordSequence] leaves when it plays [chord] of
    [progression]: cursor moved, one clock reading, one draw. *)
Definition chord_played (w : World) (progression : list string)
           (chord : string) : World :=
  let h := host w in
  {| engine := engine w;
     context :=
       set_progressionIndex
         (Z.rem (progressionIndex (context w) + 1)
                (Z.of_nat (List.length progression)))
         (context w);
     host :=
       {| trace :=
            trace h
            ++ [TriggerAttackReleaseChord (getChordNotes chord) 1.5
                                          (clock h (ticks h)) 0.1];
          clock := clock h; ticks := S (ticks h);
          random := random h; draws := S (draws h) |} |}.

(** The queue [playNote] keeps: the old entries and the new one, stamped
    [t], whose age at the reading [now], subtracted in doubles, is below 2
    seconds. *)
Definition pruned_queue (q : list QueuedNote) (n : string) (t now : Q)
  : list QueuedNote :=
  filter (fun e => Qltb (round (now - time e)) 2)
         (q ++ [{| note := n; time := t |}]).

(** The world [playNote] has built once the note [n] is requested: history
    and queue updated, three clock readings taken. *)
Definition played (w : World) (n : string) (duration velocity : Q) : World :=
  let h := host w in
  let c := context w in
  {| engine := engine w;
     context :=
       set_notesInQueue
         (pruned_queue (notesInQueue c) n
                       (clock h (ticks h)) (clock h (S (ticks h))))
         (set_lastNotesPlayed (JS.slice_last 8 (lastNotesPlayed c ++ [n])) c);
     host :=
       {| trace :=
            trace h
            ++ [TriggerAttackRelease n duration (clock h (S (S (ticks h))))
                                     velocity];
          clock := clock h; ticks := S (S (S (ticks h)));
          random := random h; draws := draws h |} |}.

(** What [playNote] runs after the note is requested. *)
Definition playNote_tail : M unit :=
  c <- get_context ;;
  (if 1 <? Z.of_nat (List.length (notesInQueue c)) then
     r <- Math_random ;;
     if Qgtb r 0.6 then generateHarmony else ret tt
   else ret tt) ;;;
  progressChordSequence.

(** [w'] differs from [w] at most by the progression cursor, the oracle
    counters, which did not decrease, and the requests [rs] appended to the
    trace. *)
Definition extends (w w' : World) (rs : list Request) : Prop :=
  engine w' = engine w /\
  (exists i, context w' = set_progressionIndex i (context w)) /\
  trace (host w') = trace (host w) ++ rs /\
  clock (host w') = clock (host w) /\
  random (host w') = random (host w) /\
  (ticks (host w) <= ticks (host w'))%nat.

(** ** The mapping, the harmony and the triad as the specification words
       them *)

Module Spec.

Inductive KeyClass : Type := Letter | Digit | Other.

Definition upper_alphabet : list N :=
  map N_of_ascii (list_ascii_of_string "ABCDEFGHIJKLMNOPQRSTUVWXYZ").
Definition lower_alphabet : list N :=
  map N_of_ascii (list_ascii_of_string "abcdefghijklmnopqrstuvwxyz").
Definition digits : list N :=
  map N_of_ascii (list_ascii_of_string "0123456789").

(** Position of [x] in [l], if it occurs. *)
Fixpoint position_in (l : list N) (x : N) : option nat :=
  match l with
  | [] => None
  | y :: rest =>
      if N.eqb y x then Some O else option_map S (position_in rest x)
  end.

(** Position of a letter in the alphabet, either case. *)
Definition letter_position (key : N) : option nat :=
  match position_in upper_alphabet key with
  | Some p => Some p
  | None => position_in lower_alphabet key
  end.

Definition digit_value (key : N) : option nat := position_in digits key.

(** Step 1: the class of a character, with the position step 3 uses. *)
Definition classify (key : N) : KeyClass * Z :=
  match letter_position key with
  | Some p => (Letter, Z.of_nat p)
  | None =>
      match digit_value key with
      | Some d => (Digit, Z.of_nat d)
      | None => (Other, Z.of_N key)
      end
  end.

(** Step 2: the octave range of a class. *)
Definition bucket (k : KeyClass) : OctaveRange :=
  match k with
  | Letter => OCTAVE_RANGES.letters
  | Digit => OCTAVE_RANGES.numbers
  | Other => OCTAVE_RANGES.special
  end.

(** Step 3: the scale index. *)
Definition index (scale_length : Z) (key : N) : Z :=
  snd (classify key) mod scale_length.

(** Step 4: the octave, clamped to the class maximum. *)
Definition octave (scale_length : Z) (key : N) : Z :=
  let (k, position) := classify key in
  let offset :=
    match k with
    | Letter | Digit => position / scale_length
    | Other => (position mod 20) / 10
    end in
  Z.min (min (bucket k) + offset) (max (bucket k)).

Definition decimal (z : Z) : string := NilZero.string_of_int (Z.to_int z).

(** Step 5: the scale entry at the index, followed by the octave. *)
Definition keyToNote (scale : list string) (key : N) : string :=
  let n := Z.of_nat (List.length scale) in
  (List.nth (Z.to_nat (index n key)) scale "" ++ decimal (octave n key))%string.

(** Harmony: the note [offset] scale steps above index [i] at octave [o],
    one octave up when the reduced index is below [i]. *)
Definition harmony_note (scale : list string) (i o offset : Z) : string :=
  let n := Z.of_nat (List.length scale) in
  let j := (i + offset) mod n in
  (List.nth (Z.to_nat j) scale ""
   ++ decimal (if (j <? i)%Z then (o + 1)%Z else o))%string.

(** Chords: the triad on the chromatic index [i] at octave 2. *)
Definition triad (root : string) (i : Z) (minor : bool) : list string :=
  let third := if minor then 3 else 4 in
  [ (root ++ "2")%string;
    (List.nth (Z.to_nat ((i + third) mod 12)%Z) SCALES_chromatic ""
     ++ "2")%string;
    (List.nth (Z.to_nat ((i + 7) mod 12)%Z) SCALES_chromatic ""
     ++ "2")%string ].

End Spec.

(** The note of a non-negative [position] in an array scale: the entry at
    the position modulo the length, and the octave [offset] above the range
    minimum, capped at its maximum. *)
Definition note_at (items : list string) (range : OctaveRange)
           (position offset : Z) : string :=
  (List.nth (Z.to_nat (position mod Z.of_nat (List.length items))) items ""
   ++ JS.toString (JS.Num (Z.min (min range + offset) (max range))))%string.

(** The classification of the specification against the tests and the
    positions the code computes, as a decidable check on one key. *)
Definition classify_agrees (key : N) : bool :=
  match Spec.classify key with
  | (Spec.Letter, p) =>
      test_letter key && (p =? toUpperCase_charCodeAt0 key - 65)
      && (0 <=? p) && (p <=? 25)
  | (Spec.Digit, p) =>
      negb (test_letter key) && test_digit key && (p =? parseInt_key key)
      && (0 <=? p) && (p <=? 9)
  | (Spec.Other, p) =>
      negb (test_letter key) && negb (test_digit key) && (p =? charCodeAt0 key)
  end.

(** The keys [0 .. n-1]. *)
Definition keys_below (n : nat) : list N := map N.of_nat (seq 0 n).

(** ** Well-formed contexts *)

(** What every context reached from [initial_context] satisfies: the current
    scale reads as a truthy value of [SCALES], the current progression is a
    row of [CHORD_PROGRESSIONS] and the cursor points inside it. *)
Definition wf_context (c : Context) : Prop :=
  JS.truthy (JS.get SCALES (currentScale c)) = true /\
  exists progression,
    JS.nth CHORD_PROGRESSIONS (currentProgression c) = Some progression /\
    0 <= progressionIndex c < Z.of_nat (List.length progression).

(** Every queued note was stamped no later than the next clock reading. *)
Definition queue_stamped (w : World) : Prop :=
  Forall (fun n => time n <= clock (host w) (ticks (host w)))%Q
         (notesInQueue (context w)).

(** The clock never runs backwards, and draws lie in [0, 1). *)
Definition monotone_clock (h : Host) : Prop :=
  forall n, (clock h n <= clock h (S n))%Q.

Definition unit_draws (h : Host) : Prop :=
  forall n, (0 <= random h n /\ random h n < 1)%Q.

(** Draws are doubles of [0, 1). *)
Definition double_draws (h : Host) : Prop :=
  forall n, is_double (random h n) /\ (0 <= random h n < 1)%Q.

(** One call into the module, or one resumption by the host. *)
Inductive step : World -> World -> Prop :=
| step_initAudioEngine (volume : Q) (w : World) :
    step w (exec (initAudioEngine volume) w)
| step_resume (volume : Q) (started : bool) (w : World) :
    step w (exec (initAudioEngine_resume volume started) w)
| step_playNote (key : N) (duration velocity : Q) (w : World) :
    step w (exec (playNote key duration velocity) w)
| step_timer (cb : HarmonyCallback) (w : World) :
    step w (exec (run_callback cb) w)
| step_updateMusicSettings (settings : Settings) (w : World) :
    step w (exec (updateMusicSettings settings) w)
| step_cleanupAudioEngine (w : World) :
    step w (exec cleanupAudioEngine w).

Inductive reachable (w0 : World) : World -> Prop :=
| reachable_here : reachable w0 w0
| reachable_step (w w' : World) :
    reachable w0 w -> step w w' -> reachable w0 w'.

(** The module as loaded, on a host whose clock never runs backwards and
    whose draws lie in [0, 1). *)
Definition loaded (w : World) : Prop :=
  engine w = initial_engine /\
  context w = initial_context /\
  monotone_clock (host w) /\
  unit_draws (host w).

(** What holds of every world reached from a loaded one whose draws are
    doubles. *)
Definition invariant (w : World) : Prop :=
  wf_context (context w) /\
  queue_stamped w /\
  monotone_clock (host w) /\
  double_draws (host w).

(** A concrete world: the engine as [initAudioEngine] leaves it, the context
    as loaded, a clock that ticks every tenth of a second and draws that
    alternate between 0.9 and 0.1. *)
Definition ready_engine : Engine :=
  {| synth := Some {| volume := gainToDb 0.5 |};
     reverb := Some {| reverb_decay := 2.5; reverb_wet := 0.3 |};
     delay := Some {| delayTime := 0.25; feedback := 0.2;
                      delay_wet := 0.2 |} |}.

Definition sample_host : Host :=
  {| trace := [];
     clock := fun n => (inject_Z (Z.of_nat n) / 10)%Q;
     ticks := 0;
     random := fun n => if Nat.even n then 0.9%Q else 0.1%Q;
     draws := 0 |}.

Definition ready_world : World :=
  {| engine := ready_engine; context := initial_context; host := sample_host |}.

Definition cold_world : World :=
  {| engine := initial_engine; context := initial_context;
     host := sample_host |}.

(** ** Further readings of the module *)

(** The position [keyToNote] takes from a key: the letter index, the digit
    or the character code. *)
Definition key_position (key : N) : Z :=
  if test_letter key then toUpperCase_charCodeAt0 key - 65
  else if test_digit key then parseInt_key key
  else charCodeAt0 key.

(** The octave range [keyToNote] uses for a key. *)
Definition key_range (key : N) : OctaveRange :=
  if test_letter key then OCTAVE_RANGES.letters
  else if test_digit key then OCTAVE_RANGES.numbers
  else OCTAVE_RANGES.special.

(** The two timers of [generateHarmony] for the scale entry of index [i]
    played at octave [o]. *)
Definition harmony_timers (items : list string) (i : Z) (o : JS.number)
  : list Request :=
  let n := Z.of_nat (List.length items) in
  let third := Z.rem (i + 2) n in
  let fifth := Z.rem (i + 4) n in
  [ SetTimeout
      {| harmony_note :=
           (JS.show (JS.nth items third)
            ++ JS.toString (if (third <? i)%Z then JS.add 1 o else o))%string;
         harmony_duration := 0.4; harmony_velocity := 0.4 |} 50;
    SetTimeout
      {| harmony_note :=
           (JS.show (JS.nth items fifth)
            ++ JS.toString (if (fifth <? i)%Z then JS.add 1 o else o))%string;
         harmony_duration := 0.3; harmony_velocity := 0.3 |} 100 ].

(** The disposals [cleanupAudioEngine] requests on an engine. *)
Definition disposals (e : Engine) : list Request :=
  (match synth e with Some _ => [Dispose "synth"] | None => [] end)
  ++ (match reverb e with Some _ => [Dispose "reverb"] | None => [] end)
  ++ (match delay e with Some _ => [Dispose "delay"] | None => [] end).

(** A key press as [playNote] receives it: key, duration, velocity. *)
Definition Press : Type := (N * Q * Q)%type.

(** The calls [playNote(key, duration, velocity)] for the presses, in
    order. *)
Fixpoint play_all (presses : list Press) : M unit :=
  match presses with
  | [] => ret tt
  | (key, duration, velocity) :: rest =>
      playNote key duration velocity ;;; play_all rest
  end.

(** [k] calls of [progressChordSequence] in a row. *)
Fixpoint progress_times (k : nat) : M unit :=
  match k with
  | O => ret tt
  | S k' => progressChordSequence ;;; progress_times k'
  end.

(** The chord request of [progressChordSequence] for the chord at position
    [j] of [progression], at the clock reading [t]. *)
Definition chord_request (progression : list string) (j : Z) (t : Q)
  : Request :=
  TriggerAttackReleaseChord
    (getChordNotes (List.nth (Z.to_nat j) progression "")) 1.5 t 0.1.

(** ** The mode button of the home page *)

(** The [musicMode] state of the home component. *)
Inductive MusicMode : Type := piano | ambient | electronic.

Definition modes : list MusicMode := [piano; ambient; electronic].

(** [modes.indexOf(musicMode)]. *)
Definition modes_indexOf (m : MusicMode) : Z :=
  match m with
  | piano => 0
  | ambient => 1
  | electronic => 2
  end.

Definition mode_settings (scale : string) (reverb delay : Q) : Settings :=
  {| settings_volume := None; settings_scale := Some scale;
     settings_reverb := Some reverb; settings_delay := Some delay |}.

(** [cycleMusicMode()] of the home component, on the [musicMode] it reads:
    the value it passes to [setMusicMode] is returned ([None] is
    [undefined]). *)
Definition cycleMusicMode (musicMode : MusicMode) : M (option MusicMode) :=
  let currentIndex := modes_indexOf musicMode in
  let nextIndex :=
    Z.rem (currentIndex + 1) (Z.of_nat (List.length modes)) in
  match JS.nth modes nextIndex with
  | Some piano =>
      updateMusicSettings (mode_settings "pentatonic" 0.3 0.2) ;;;
      ret (Some piano)
  | Some ambient =>
      updateMusicSettings (mode_settings "minor" 0.7 0.4) ;;;
      ret (Some ambient)
  | Some electronic =>
      updateMusicSettings (mode_settings "chromatic" 0.2 0.5) ;;;
      ret (Some electronic)
  | None => ret None
  end.

(** ** The colour of the key visualizer *)

(** [getKeyColor()] of the key visualizer, on its [color] and [keyPressed]
    props; the key is a string given as its code units, of which the first
    is read ([charCodeAt(0)] is NaN on the empty string). *)
Definition getKeyColor (color : string) (keyPressed : list N) : string :=
  if negb (color =? "#6366f1")%string then color
  else
    let hue :=
      match keyPressed with
      | [] => JS.NaN
      | code :: _ => JS.rem (Z.of_N code * 15) (JS.Num 360)
      end in
    ("hsl(" ++ JS.toString hue ++ ", 80%, 60%)")%string.

(** ** A recorded session *)

(** A second host. Its audio clock is read on the 48 kHz grid, in blocks of
    128 samples: block [k] starts [k / 375] seconds in, and the reading is
    the double nearest to that; the presses are separated by pauses. Beyond
    the blocks listed the clock reads whole seconds. Its draws are the
    doubles of a fixed series. *)
Definition studio_blocks : list Z :=
  [ 0; 17; 18; 19; 766; 767; 768; 900; 901; 902; 903;
    1520; 1521; 1522; 1523; 3000; 3001; 3002; 3003 ].

Definition studio_draws : list Q := [0.5; 0.9; 0.6; 0.1; 0.9; 0.1; 0.5]%Q.

Definition studio_host : Host :=
  {| trace := [];
     clock := fun n =>
                match nth_error studio_blocks n with
                | Some k => round (inject_Z k / 375)
                | None => inject_Z (Z.of_nat n)
                end;
     ticks := 0;
     random := fun n => round (List.nth n studio_draws 0.5%Q);
     draws := 0 |}.

(** The module as loaded on that host. *)
Definition studio : World :=
  {| engine := initial_engine; context := initial_context;
     host := studio_host |}.

(** The studio after a first press, dropped, that starts the engine, the
    start resolving, and the presses given. *)
Definition session (presses : list Press) : World :=
  exec (playNote 65 0.5 0.7 ;;;
        initAudioEngine_resume 0.5 true ;;;
        play_all presses) studio.

(** * Statements *)

(** Symbolic execution of the monad: unfold its operations and the record
    projections, and nothing of the tables or of the runtime fragment. *)
Ltac run :=
  repeat
    (progress
       (unfold bind, ret, throw, lift, try_catch, exec, when,
          get_engine, get_context, set_engine, set_context, modify_context,
          request, Tone_now, Math_random in *;
        cbn [set_currentScale set_currentProgression set_progressionIndex
             set_lastNotesPlayed set_notesInQueue
             engine context host synth reverb delay
             trace clock ticks random draws
             currentScale currentOctave currentProgression progressionIndex
             lastNotesPlayed notesInQueue
             settings_volume settings_scale settings_reverb settings_delay
             option_map fst snd] in *)).

(** ** Facts on the runtime fragment *)

Lemma skipn_own_length {A : Type} (l extra : list A) :
  skipn (List.length l) (l ++ extra) = extra.
Proof.
  induction l as [| x l IH]; simpl; [reflexivity | exact IH].
Qed.

Lemma Qgtb_false (a b : Q) : Qgtb a b = false <-> (a <= b)%Q.
Proof.
  unfold Qgtb. rewrite negb_false_iff. apply Qle_bool_iff.
Qed.

Lemma Qgtb_true (a b : Q) : Qgtb a b = true <-> (b < a)%Q.
Proof.
  unfold Qgtb. rewrite negb_true_iff, <- not_true_iff_false, Qle_bool_iff.
  split; [apply Qnot_le_lt | apply Qlt_not_le].
Qed.

Lemma Qltb_true (a b : Q) : Qltb a b = true <-> (a < b)%Q.
Proof.
  unfold Qltb. rewrite negb_true_iff, <- not_true_iff_false, Qle_bool_iff.
  split; [apply Qnot_le_lt | apply Qlt_not_le].
Qed.

(** Comparisons of closed rationals, by evaluation. *)
Ltac Qdecide :=
  first [apply Qle_bool_iff | apply Qltb_true]; vm_compute; reflexivity.

(** ** Rounding to the nearest double *)

Lemma two_power (n : Z) : 0 <= n -> (2 ^ n == inject_Z (2 ^ n))%Q.
Proof.
  intros Hn. rewrite Zpower_Qpower by exact Hn. reflexivity.
Qed.

Lemma two_power_minus (n m : Z) :
  0 <= n -> 0 <= m -> (2 ^ (n - m) == inject_Z (2 ^ n) / inject_Z (2 ^ m))%Q.
Proof.
  intros Hn Hm.
  replace (n - m) with (n + - m) by lia.
  rewrite Qpower_plus by (intros H; discriminate H).
  rewrite Qpower_opp, (two_power n Hn), (two_power m Hm). reflexivity.
Qed.

Lemma Qexponent_lower (x : Q) : (0 < x)%Q -> (2 ^ Qexponent x <= x)%Q.
Proof.
  intros Hx. unfold Qexponent.
  destruct (Qle_bool _ _) eqn:Htest.
  - apply Qle_bool_iff in Htest. rewrite Qabs_pos in Htest by lra. exact Htest.
  - destruct x as [a b]. cbn [Qnum Qden].
    assert (Ha : 0 < a) by (unfold Qlt in Hx; cbn in Hx; lia).
    rewrite Z.abs_eq by lia.
    pose proof (Z.log2_spec a Ha) as [Hla _].
    pose proof (Z.log2_spec (Zpos b) (Pos2Z.is_pos b)) as [_ Hlb].
    pose proof (Z.log2_nonneg a) as Hna.
    pose proof (Z.log2_nonneg (Zpos b)) as Hnb.
    replace (Z.log2 a - Z.log2 (Zpos b) - 1)
      with (Z.log2 a - Z.succ (Z.log2 (Zpos b))) by lia.
    rewrite two_power_minus by lia.
    set (P := 2 ^ Z.log2 a) in *. set (R := 2 ^ Z.succ (Z.log2 (Zpos b))) in *.
    apply Qle_shift_div_r.
    + unfold Qlt. cbn. lia.
    + unfold Qle. cbn. nia.
Qed.

Lemma Qexponent_upper (x : Q) : (0 < x)%Q -> (x < 2 ^ (Qexponent x + 1))%Q.
Proof.
  intros Hx. unfold Qexponent.
  destruct (Qle_bool _ _) eqn:Htest.
  - destruct x as [a b]. cbn [Qnum Qden].
    assert (Ha : 0 < a) by (unfold Qlt in Hx; cbn in Hx; lia).
    rewrite Z.abs_eq by lia.
    pose proof (Z.log2_spec a Ha) as [_ Hla].
    pose proof (Z.log2_spec (Zpos b) (Pos2Z.is_pos b)) as [Hlb _].
    pose proof (Z.log2_nonneg a) as Hna.
    pose proof (Z.log2_nonneg (Zpos b)) as Hnb.
    replace (Z.log2 a - Z.log2 (Zpos b) + 1)
      with (Z.succ (Z.log2 a) - Z.log2 (Zpos b)) by lia.
    rewrite two_power_minus by lia.
    set (P := 2 ^ Z.succ (Z.log2 a)) in *. set (R := 2 ^ Z.log2 (Zpos b)) in *.
    apply Qlt_shift_div_l.
    + unfold Qlt. cbn. lia.
    + unfold Qlt. cbn. nia.
  - assert (Hlt : ~ (2 ^ (Z.log2 (Z.abs (Qnum x)) - Z.log2 (Zpos (Qden x))) <= Qabs x)%Q).
    { intros H. apply Qle_bool_iff in H. congruence. }
    apply Qnot_le_lt in Hlt. rewrite Qabs_pos in Hlt by lra.
    replace (Z.log2 (Z.abs (Qnum x)) - Z.log2 (Zpos (Qden x)) - 1 + 1)
      with (Z.log2 (Z.abs (Qnum x)) - Z.log2 (Zpos (Qden x))) by lia.
    exact Hlt.
Qed.

Lemma round_half_even_floor (m : Q) :
  Qfloor m <= round_half_even m <= Qfloor m + 1.
Proof.
  unfold round_half_even.
  destruct (Qcompare _ _); [destruct (Z.even _) | |]; lia.
Qed.

Lemma round_half_even_near (m : Q) :
  (m - (1 # 2) <= inject_Z (round_half_even m) <= m + (1 # 2))%Q.
Proof.
  unfold round_half_even.
  pose proof (Qfloor_le m) as Hlo. pose proof (Qlt_floor m) as Hhi.
  rewrite inject_Z_plus in Hhi. change (inject_Z 1) with 1%Q in Hhi.
  destruct (Qcompare _ _) eqn:Hc.
  - apply Qeq_alt in Hc.
    destruct (Z.even _);
      [| rewrite inject_Z_plus; change (inject_Z 1) with 1%Q]; lra.
  - apply Qlt_alt in Hc. lra.
  - apply Qgt_alt in Hc. rewrite inject_Z_plus.
    change (inject_Z 1) with 1%Q. lra.
Qed.

Lemma ulp_positive (x : Q) : (0 < ulp x)%Q.
Proof. unfold ulp. apply Qpower_0_lt. reflexivity. Qed.

Lemma round_near (x : Q) :
  (x - ulp x * (1 # 2) <= round x <= x + ulp x * (1 # 2))%Q.
Proof.
  pose proof (ulp_positive x) as Hu. unfold round.
  destruct (Qeq_bool x 0) eqn:Hz.
  - apply Qeq_bool_iff in Hz. nra.
  - pose proof (round_half_even_near (x / ulp x)) as [Hlo Hhi].
    assert (Hx : (x / ulp x * ulp x == x)%Q) by (field; lra).
    split.
    + apply (Qmult_le_compat_r _ _ (ulp x)) in Hlo; [| lra]. nra.
    + apply (Qmult_le_compat_r _ _ (ulp x)) in Hhi; [| lra]. nra.
Qed.

Lemma round_zero (x : Q) : (x == 0)%Q -> (round x == 0)%Q.
Proof.
  intros Hx. unfold round.
  destruct (Qeq_bool x 0) eqn:Hz; [reflexivity |].
  apply Qeq_bool_iff in Hx. congruence.
Qed.

Lemma round_nonneg (x : Q) : (0 <= x)%Q -> (0 <= round x)%Q.
Proof.
  intros Hx. pose proof (ulp_positive x) as Hu. unfold round.
  destruct (Qeq_bool x 0); [lra |].
  apply Qmult_le_0_compat; [| lra].
  assert (Hm : (0 <= x / ulp x)%Q).
  { apply Qle_shift_div_l; [exact Hu | lra]. }
  apply Qfloor_resp_le in Hm. change (Qfloor 0) with 0 in Hm.
  pose proof (round_half_even_floor (x / ulp x)) as [Hf _].
  rewrite <- (Zle_Qle 0). lia.
Qed.

Lemma round_nonpos (x : Q) : (x <= 0)%Q -> (round x <= 0)%Q.
Proof.
  intros Hx. pose proof (ulp_positive x) as Hu. unfold round.
  destruct (Qeq_bool x 0); [lra |].
  assert (Hm : (x / ulp x <= 0)%Q).
  { apply Qle_shift_div_r; [exact Hu | lra]. }
  pose proof (round_half_even_near (x / ulp x)) as [_ Hn].
  assert (Hr : round_half_even (x / ulp x) <= 0).
  { assert (Hlt : (inject_Z (round_half_even (x / ulp x)) < inject_Z 1)%Q)
      by (change (inject_Z 1) with 1%Q; lra).
    rewrite <- Zlt_Qlt in Hlt. lia. }
  rewrite (Zle_Qle _ 0) in Hr. change (inject_Z 0) with 0%Q in Hr. nra.
Qed.

Lemma ulp_bound (x : Q) (k : Z) :
  (0 < x)%Q -> (x < 2 ^ (k + 1))%Q -> (ulp x <= 2 ^ Z.max (k - 52) (-1074))%Q.
Proof.
  intros Hx Hk. pose proof (Qexponent_lower x Hx) as Hlo.
  assert (He : Qexponent x < k + 1).
  { apply (Qpower_lt_compat_l_inv 2); [lra | reflexivity]. }
  unfold ulp. apply Qpower_le_compat_l; [lia | discriminate].
Qed.

Lemma Qexponent_unique (x : Q) (k : Z) :
  (2 ^ k <= x)%Q -> (x < 2 ^ (k + 1))%Q -> Qexponent x = k.
Proof.
  intros Hlo Hhi.
  assert (Hx : (0 < x)%Q).
  { pose proof (Qpower_0_lt 2 k eq_refl). lra. }
  pose proof (Qexponent_lower x Hx) as Hl.
  pose proof (Qexponent_upper x Hx) as Hu.
  assert (Qexponent x < k + 1)
    by (apply (Qpower_lt_compat_l_inv 2); [lra | reflexivity]).
  assert (k < Qexponent x + 1)
    by (apply (Qpower_lt_compat_l_inv 2); [lra | reflexivity]).
  lia.
Qed.

(** A difference below the midpoint of 2 and the double before it rounds
    below 2; at the midpoint the tie goes to 2, whose significand is even. *)
Lemma round_below_two (x : Q) : (x < below_two)%Q -> (round x < 2)%Q.
Proof.
  unfold below_two. intros Hx.
  set (eps := (1 # 2 ^ 53)%Q) in *.
  assert (Heps : (0 < eps < 1)%Q) by (split; reflexivity).
  destruct (Qlt_le_dec 0 x) as [Hpos | Hneg].
  - pose proof (round_near x) as [_ Hhi].
    assert (Hu : (ulp x <= 2 ^ Z.max (0 - 52) (-1074))%Q).
    { apply ulp_bound; [exact Hpos |]. change (2 ^ (0 + 1))%Q with 2%Q. lra. }
    assert (Hp : (2 ^ Z.max (0 - 52) (-1074) == 2 * eps)%Q) by reflexivity.
    rewrite Hp in Hu. lra.
  - pose proof (round_nonpos x Hneg). lra.
Qed.

Lemma round_half_even_up (m : Q) (k : Z) :
  Z.even k = true -> (inject_Z k - (1 # 2) <= m)%Q -> k <= round_half_even m.
Proof.
  intros Hk Hm.
  pose proof (round_half_even_floor m) as [Hf _].
  pose proof (Qfloor_le m) as Hlo. pose proof (Qlt_floor m) as Hhi.
  rewrite inject_Z_plus in Hhi. change (inject_Z 1) with 1%Q in Hhi.
  assert (Hfk : k < Qfloor m + 2).
  { rewrite Zlt_Qlt, inject_Z_plus. change (inject_Z 2) with 2%Q. lra. }
  destruct (Z.eq_dec (Qfloor m + 1) k) as [Heq | Hne]; [| lia].
  unfold round_half_even.
  assert (Hodd : Z.even (Qfloor m) = false).
  { rewrite <- Heq, Z.even_add in Hk. destruct (Z.even (Qfloor m)); [discriminate Hk | reflexivity]. }
  rewrite <- Heq, inject_Z_plus in Hm. change (inject_Z 1) with 1%Q in Hm.
  destruct (Qcompare _ _) eqn:Hc.
  - rewrite Hodd. lia.
  - apply Qlt_alt in Hc. lra.
  - lia.
Qed.

Lemma round_two (x : Q) : (2 <= x)%Q -> (2 <= round x)%Q.
Proof.
  intros Hx.
  assert (Hpos : (0 < x)%Q) by lra.
  pose proof (Qexponent_lower x Hpos) as Hlo.
  pose proof (ulp_positive x) as Hu.
  unfold round. destruct (Qeq_bool x 0) eqn:Hz.
  { apply Qeq_bool_iff in Hz. lra. }
  pose proof (round_half_even_floor (x / ulp x)) as [Hf _].
  unfold ulp in *. set (e := Qexponent x) in *.
  set (E := Z.max (e - 52) (-1074)) in *.
  set (m := (x / 2 ^ E)%Q) in *.
  destruct (Z_le_gt_dec E 1) as [Hsmall | Hbig].
  - assert (HK : (inject_Z (2 ^ (1 - E)) * 2 ^ E == 2)%Q).
    { rewrite <- two_power by lia.
      rewrite <- Qpower_plus by discriminate.
      replace (1 - E + E) with 1 by lia. reflexivity. }
    assert (Hm : (inject_Z (2 ^ (1 - E)) <= m)%Q).
    { unfold m. apply Qle_shift_div_l; [exact Hu | lra]. }
    apply Qfloor_resp_le in Hm. rewrite Qfloor_Z in Hm.
    assert (Hr : (inject_Z (2 ^ (1 - E)) <= inject_Z (round_half_even m))%Q)
      by (rewrite <- Zle_Qle; lia).
    apply (Qmult_le_compat_r _ _ (2 ^ E)) in Hr; [| lra]. lra.
  - assert (HE : E = e - 52) by lia.
    assert (Hm : (inject_Z (2 ^ 52) <= m)%Q).
    { unfold m. apply Qle_shift_div_l; [exact Hu |].
      rewrite <- two_power by lia.
      rewrite <- Qpower_plus by discriminate.
      replace (52 + E) with e by lia. exact Hlo. }
    apply Qfloor_resp_le in Hm. rewrite Qfloor_Z in Hm.
    assert (Hr : (inject_Z (2 ^ 52) <= inject_Z (round_half_even m))%Q)
      by (rewrite <- Zle_Qle; lia).
    assert (H1 : (1 <= 2 ^ E)%Q) by (apply Qpower_1_le; [discriminate | lia]).
    apply (Qmult_le_compat_r _ _ (2 ^ E)) in Hr; [| lra].
    assert (H52 : (2 <= inject_Z (2 ^ 52))%Q) by (unfold Qle; cbn; lia).
    nra.
Qed.

Lemma round_not_below_two (x : Q) : (below_two <= x)%Q -> (2 <= round x)%Q.
Proof.
  unfold below_two. intros Hx.
  destruct (Qlt_le_dec x 2) as [Hlt | Hge]; [| apply round_two; exact Hge].
  set (eps := (1 # 2 ^ 53)%Q) in *.
  assert (Heps : (0 < eps < 1)%Q) by (split; reflexivity).
  assert (He : Qexponent x = 0).
  { apply Qexponent_unique.
    - change (2 ^ 0)%Q with 1%Q. lra.
    - change (2 ^ (0 + 1))%Q with 2%Q. exact Hlt. }
  unfold round. destruct (Qeq_bool x 0) eqn:Hz.
  { apply Qeq_bool_iff in Hz. lra. }
  unfold ulp. rewrite He.
  change (2 ^ Z.max (0 - 52) (-1074))%Q with (/ inject_Z (2 ^ 52))%Q.
  assert (Hr : 2 ^ 53 <= round_half_even (x / / inject_Z (2 ^ 52))).
  { apply round_half_even_up; [reflexivity |].
    unfold Qdiv. rewrite Qinv_involutive.
    assert (H52 : (inject_Z (2 ^ 53) == 2 * inject_Z (2 ^ 52))%Q) by reflexivity.
    assert (Hh : ((1 # 2 ^ 53) * inject_Z (2 ^ 52) == 1 # 2)%Q) by reflexivity.
    rewrite H52. fold eps in Hh.
    set (p := inject_Z (2 ^ 52)) in *.
    assert (0 < p)%Q by reflexivity. nra. }
  rewrite Zle_Qle in Hr.
  assert (Hq : (0 <= / inject_Z (2 ^ 52))%Q) by discriminate.
  apply (Qmult_le_compat_r _ _ (/ inject_Z (2 ^ 52))) in Hr; [| exact Hq].
  assert (H2 : (inject_Z (2 ^ 53) * / inject_Z (2 ^ 52) == 2)%Q) by reflexivity.
  rewrite H2 in Hr. exact Hr.
Qed.

(** The pruning test of [playNote], in closed form. *)
Lemma round_lt_two (x : Q) : (round x < 2)%Q <-> (x < below_two)%Q.
Proof.
  split.
  - intros Hr. destruct (Qlt_le_dec x below_two) as [H | H]; [exact H |].
    apply round_not_below_two in H. lra.
  - apply round_below_two.
Qed.

(** Readings of [round]: the double of [0.2]; the product [0.6 * 5], which
    is 3 in doubles and below 3 exactly; a difference just below 2, which is
    2 in doubles; a tie, which goes to the even neighbour. *)
Lemma round_readings :
  (round 0.2 == 3602879701896397 # 2 ^ 54)%Q /\
  (round (round 0.6 * 5) == 3)%Q /\
  Qfloor (round 0.6 * 5) = 2 /\
  (round (2 - (1 # 2 ^ 60)) == 2)%Q /\
  (round (1 + (1 # 2 ^ 53)) == 1)%Q /\
  (round (1 + (3 # 2 ^ 53)) == 1 + (4 # 2 ^ 53))%Q.
Proof. repeat split; vm_compute; reflexivity. Qed.

(** The double of the literal [0.2] lies above the decimal. *)
Lemma round_fifth : (0.2 <= round 0.2)%Q.
Proof. apply Qle_bool_iff. vm_compute. reflexivity. Qed.

(** A double of [1/2, 1) is a multiple of [2^-53]. *)
Lemma double_half_grid (r : Q) :
  (1 # 2 <= r)%Q -> (r < 1)%Q -> is_double r ->
  exists k : Z, (r == inject_Z k * (1 # 2 ^ 53))%Q.
Proof.
  intros Hlo Hhi Hr. unfold is_double, round in Hr.
  destruct (Qeq_bool r 0) eqn:Hz.
  { apply Qeq_bool_iff in Hz. lra. }
  assert (He : Qexponent r = -1).
  { apply Qexponent_unique.
    - change (2 ^ (-1))%Q with (1 # 2)%Q. exact Hlo.
    - change (2 ^ (-1 + 1))%Q with 1%Q. exact Hhi. }
  unfold ulp in Hr. rewrite He in Hr.
  exists (round_half_even (r / 2 ^ Z.max (-1 - 52) (-1074))).
  symmetry. exact Hr.
Qed.

(** No double lies above the double of [0.6] and at or below the decimal,
    nor above the double of [0.7] and at or below the decimal: a draw
    exceeds the literal, a double, exactly when it exceeds the decimal. *)
Lemma draw_above_literal (r : Q) :
  is_double r ->
  ((0.6 < r)%Q <-> (round 0.6 < r)%Q) /\ ((0.7 < r)%Q <-> (round 0.7 < r)%Q).
Proof.
  intros Hr.
  assert (H6 : (round 0.6 == 5404319552844595 # 2 ^ 53)%Q) by reflexivity.
  assert (H7 : (round 0.7 == 6305039478318694 # 2 ^ 53)%Q) by reflexivity.
  split; split; intros Habove.
  - rewrite H6. apply Qle_lt_trans with 0.6%Q; [discriminate | exact Habove].
  - destruct (Qlt_le_dec 0.6 r) as [H | H]; [exact H | exfalso].
    rewrite H6 in Habove.
    destruct (double_half_grid r) as [k Hk]; [| | exact Hr |].
    + apply Qle_trans with (5404319552844595 # 2 ^ 53)%Q;
        [discriminate | apply Qlt_le_weak; exact Habove].
    + apply Qle_lt_trans with 0.6%Q; [exact H | reflexivity].
    + rewrite Hk in Habove, H. clear Hk Hr H6 H7.
      unfold Qlt, Qle in Habove, H. cbn in Habove, H. lia.
  - rewrite H7. apply Qle_lt_trans with 0.7%Q; [discriminate | exact Habove].
  - destruct (Qlt_le_dec 0.7 r) as [H | H]; [exact H | exfalso].
    rewrite H7 in Habove.
    destruct (double_half_grid r) as [k Hk]; [| | exact Hr |].
    + apply Qle_trans with (6305039478318694 # 2 ^ 53)%Q;
        [discriminate | apply Qlt_le_weak; exact Habove].
    + apply Qle_lt_trans with 0.7%Q; [exact H | reflexivity].
    + rewrite Hk in Habove, H. clear Hk Hr H6 H7.
      unfold Qlt, Qle in Habove, H. cbn in Habove, H. lia.
Qed.

(** A double below 1 is at most [largest_draw]. *)
Lemma double_draw_bound (r : Q) :
  is_double r -> (0 <= r < 1)%Q -> (0 <= r <= largest_draw)%Q.
Proof.
  intros Hr [Hlo Hhi]. split; [exact Hlo |]. unfold largest_draw.
  destruct (Qlt_le_dec r (1 # 2)) as [Hsmall | Hbig].
  - apply Qle_trans with (1 # 2)%Q; [apply Qlt_le_weak; exact Hsmall |].
    discriminate.
  - destruct (double_half_grid r Hbig Hhi Hr) as [k Hk].
    rewrite Hk in Hhi |- *. clear Hk Hr Hlo Hbig.
    unfold Qlt in Hhi. unfold Qle. cbn in Hhi |- *. lia.
Qed.

(** Five times a draw rounds to a double below 5. *)
Lemma floor_draw (r : Q) :
  (0 <= r <= largest_draw)%Q ->
  0 <= Qfloor (round (r * inject_Z 5)) < 5.
Proof.
  unfold largest_draw. intros [Hlo Hhi].
  change (inject_Z 5) with 5%Q. set (y := (r * 5)%Q).
  set (eps := (1 # 2 ^ 53)%Q) in *.
  assert (Heps : (0 < eps)%Q) by reflexivity.
  assert (Hy0 : (0 <= y)%Q) by (unfold y; lra).
  assert (Hy5 : (y <= 5 - 5 * eps)%Q) by (unfold y; lra).
  split.
  - pose proof (round_nonneg y Hy0) as H.
    apply Qfloor_resp_le in H. exact H.
  - assert (Hr : (round y < 5)%Q).
    { destruct (Qlt_le_dec y 4) as [Hsmall | Hbig].
      - destruct (Qlt_le_dec 0 y) as [Hpos | Hneg].
        + pose proof (round_near y) as [_ Hn].
          assert (Hu : (ulp y <= 2 ^ Z.max (1 - 52) (-1074))%Q).
          { apply ulp_bound; [exact Hpos |].
            change (2 ^ (1 + 1))%Q with 4%Q. exact Hsmall. }
          assert (Hp : (2 ^ Z.max (1 - 52) (-1074) == 4 * eps)%Q)
            by reflexivity.
          rewrite Hp in Hu. assert (eps < 1 # 4)%Q by reflexivity. lra.
        + pose proof (round_nonpos y Hneg). lra.
      - pose proof (round_near y) as [_ Hn].
        assert (Hu : (ulp y <= 2 ^ Z.max (2 - 52) (-1074))%Q).
        { apply ulp_bound; [lra |].
          change (2 ^ (2 + 1))%Q with 8%Q. lra. }
        assert (Hp : (2 ^ Z.max (2 - 52) (-1074) == 8 * eps)%Q)
          by reflexivity.
        rewrite Hp in Hu. lra. }
    pose proof (Qfloor_le (round y)) as Hf.
    assert (Hlt : (inject_Z (Qfloor (round y)) < inject_Z 5)%Q)
      by (change (inject_Z 5) with 5%Q; lra).
    rewrite <- Zlt_Qlt in Hlt. exact Hlt.
Qed.

(** ** Settings on a cold engine *)

(** C10. When the synth, the reverb or the delay is absent,
    [updateMusicSettings] returns at once: whatever the settings, valid scale
    names included, the world it leaves is the world it was given (no node
    setting, no context variable, no request, no draw). *)
Theorem updateMusicSettings_uninitialized :
  forall (settings : Settings) (w : World),
    synth (engine w) = None \/ reverb (engine w) = None \/
    delay (engine w) = None ->
    updateMusicSettings settings w = (Return tt, w).
Proof.
  intros settings [[s r d] c h] H; simpl in H.
  unfold updateMusicSettings, bind, get_engine; simpl.
  destruct s, r, d; try reflexivity.
  destruct H as [H | [H | H]]; discriminate H.
Qed.

Lemma updateMusicSettings_uninitialized_witness :
  updateMusicSettings
    {| settings_volume := Some 0.3%Q; settings_scale := Some "major";
       settings_reverb := Some 0.7%Q; settings_delay := None |} cold_world
  = (Return tt, cold_world).
Proof.
  apply updateMusicSettings_uninitialized. left. reflexivity.
Defined.

(** ** A note played on a cold engine *)

Lemma issued_add_requests {A : Type} (m : M A) (w : World)
      (rs : list Request) :
  exec m w = add_requests rs w -> issued m w = rs.
Proof.
  intros H. unfold issued. rewrite H. apply skipn_own_length.
Qed.

(** Without a synth, [playNote] is the call of [initAudioEngine(0.5)]. *)
Lemma playNote_cold (key : N) (duration velocity : Q) (w : World) :
  synth (engine w) = None ->
  playNote key duration velocity w
  = (Return tt, add_requests [ToneStart 0.5] w).
Proof.
  destruct w as [[sy rv dl] c [tr ck tk rn dr]]. run. intros ->.
  unfold playNote, initAudioEngine, add_requests. run. reflexivity.
Qed.

(** The resumed initialization keeps the context and requests, at most,
    the start of the transport and the warm-up note. *)
Lemma initAudioEngine_resume_effect (volume : Q) (started : bool)
      (w : World) :
  context (exec (initAudioEngine_resume volume started) w) = context w /\
  (issued (initAudioEngine_resume volume started) w = [] \/
   issued (initAudioEngine_resume volume started) w
   = [TransportStart;
      TriggerAttackRelease "C4" 0.01 (clock (host w) (ticks (host w))) 0.01]).
Proof.
  destruct w as [e c [tr ck tk rn dr]].
  unfold issued, initAudioEngine_resume. destruct started; run.
  - split; [reflexivity | right].
    rewrite <- app_assoc. apply skipn_own_length.
  - split; [reflexivity | left].
    rewrite <- (app_nil_r tr) at 2. apply skipn_own_length.
Qed.

(** C8. When the synth is absent, [playNote] calls [initAudioEngine] with
    its default volume, which requests [Tone.start()]; it issues nothing
    else, in particular no play request, and leaves the musical context and
    the engine as they were. The initialization it started, once resumed,
    never touches the context and plays at most its own warm-up note: the
    key is not played later either. *)
Theorem playNote_uninitialized :
  forall (key : N) (duration velocity : Q) (w : World),
    synth (engine w) = None ->
    let w' := exec (playNote key duration velocity) w in
    fst (playNote key duration velocity w) = Return tt /\
    issued (playNote key duration velocity) w = [ToneStart 0.5] /\
    existsb is_trigger (issued (playNote key duration velocity) w) = false /\
    context w' = context w /\
    engine w' = engine w /\
    forall (started : bool) (w2 : World),
      context (exec (initAudioEngine_resume 0.5 started) w2) = context w2 /\
      forall r, In r (issued (initAudioEngine_resume 0.5 started) w2) ->
                r = TransportStart \/
                exists t, r = TriggerAttackRelease "C4" 0.01 t 0.01.
Proof.
  intros key duration velocity w Hs w'.
  pose proof (playNote_cold key duration velocity w Hs) as Hcold.
  assert (Hexec : w' = add_requests [ToneStart 0.5] w)
    by (subst w'; unfold exec; now rewrite Hcold).
  assert (Hissued : issued (playNote key duration velocity) w
                    = [ToneStart 0.5])
    by (apply issued_add_requests; exact Hexec).
  split; [now rewrite Hcold |].
  split; [exact Hissued |].
  split; [now rewrite Hissued |].
  split; [now rewrite Hexec |].
  split; [now rewrite Hexec |].
  intros started w2.
  destruct (initAudioEngine_resume_effect 0.5 started w2) as [Hctx Hreq].
  split; [exact Hctx |].
  intros r Hin. destruct Hreq as [Hreq | Hreq]; rewrite Hreq in Hin.
  - destruct Hin.
  - destruct Hin as [<- | [<- | []]]; [left; reflexivity | right; eauto].
Qed.

Lemma playNote_uninitialized_witness :
  issued (playNote 65 0.5 0.7) cold_world = [ToneStart 0.5] /\
  context (exec (playNote 65 0.5 0.7) cold_world) = context cold_world.
Proof.
  pose proof (playNote_uninitialized 65 0.5 0.7 cold_world eq_refl)
    as (_ & Hi & _ & Hc & _).
  split; [exact Hi | exact Hc].
Defined.

(** ** Array and string reads *)

Lemma indexOf_from_absent (items : list string) (x : string) (k : Z) :
  ~ In x items -> JS.indexOf_from items x k = -1.
Proof.
  revert k. induction items as [| y rest IH]; intros k Hnot; simpl.
  - reflexivity.
  - destruct (String.eqb_spec y x) as [-> | Hne].
    + exfalso. apply Hnot. left. reflexivity.
    + apply IH. intro Hin. apply Hnot. right. exact Hin.
Qed.

Lemma indexOf_from_present (items : list string) (x : string) (k : Z) :
  In x items ->
  k <= JS.indexOf_from items x k < k + Z.of_nat (List.length items) /\
  nth_error items (Z.to_nat (JS.indexOf_from items x k - k)) = Some x.
Proof.
  revert k. induction items as [| y rest IH]; intros k Hin.
  - destruct Hin.
  - cbn [JS.indexOf_from List.length].
    destruct (String.eqb_spec y x) as [-> | Hne].
    + rewrite Z.sub_diag. simpl. split; [lia | reflexivity].
    + destruct Hin as [Heq | Hin]; [contradiction |].
      destruct (IH (k + 1) Hin) as [Hrange Hnth].
      split; [lia |].
      replace (JS.indexOf_from rest x (k + 1) - k)
        with (Z.succ (JS.indexOf_from rest x (k + 1) - (k + 1))) by lia.
      rewrite Z2Nat.inj_succ by lia. exact Hnth.
Qed.

Lemma indexOf_absent (items : list string) (x : string) :
  ~ In x items -> JS.indexOf items x = -1.
Proof. apply indexOf_from_absent. Qed.

Lemma indexOf_present (items : list string) (x : string) :
  In x items ->
  0 <= JS.indexOf items x < Z.of_nat (List.length items) /\
  JS.nth items (JS.indexOf items x) = Some x.
Proof.
  intro Hin. unfold JS.indexOf, JS.nth.
  destruct (indexOf_from_present items x 0 Hin) as [Hrange Hnth].
  rewrite Z.sub_0_r in Hnth. split; [lia |].
  destruct (Z.ltb_spec (JS.indexOf_from items x 0) 0); [lia | exact Hnth].
Qed.

Lemma nth_in_range {A : Type} (l : list A) (i : Z) (d : A) :
  0 <= i < Z.of_nat (List.length l) ->
  JS.nth l i = Some (List.nth (Z.to_nat i) l d).
Proof.
  intros Hi. unfold JS.nth.
  destruct (Z.ltb_spec i 0); [lia |].
  apply nth_error_nth'. lia.
Qed.

(** ** Chord resolution *)

(** C5. A chord symbol whose first character is an entry of the chromatic
    table resolves to three notes at octave 2: the root, the entry 3 (with
    an [m] in the symbol) or 4 (without) semitones above the root's index,
    and the entry 7 semitones above it, indices taken modulo 12. A symbol
    whose first character is not in the table resolves to the single note
    made of that character at octave 2. *)
Theorem getChordNotes_resolution :
  forall chordName : string,
    let root := JS.charAt0 chordName in
    (In root SCALES_chromatic ->
     let i := JS.indexOf SCALES_chromatic root in
     JS.nth SCALES_chromatic i = Some root /\
     getChordNotes chordName
     = Spec.triad root i (JS.includes chordName "m"%char) /\
     List.length (getChordNotes chordName) = 3%nat) /\
    (~ In root SCALES_chromatic ->
     getChordNotes chordName = [(root ++ "2")%string]).
Proof.
  intros chordName root. split.
  - intros Hin i.
    destruct (indexOf_present _ _ Hin) as [Hrange Hnth].
    fold i in Hrange, Hnth. change (Z.of_nat _) with 12 in Hrange.
    assert (Hnotes : getChordNotes chordName
                     = Spec.triad root i (JS.includes chordName "m"%char)).
    { unfold getChordNotes, Spec.triad. fold root. fold i.
      destruct (Z.eqb_spec i (-1)) as [Hneg | _]; [lia |].
      set (third := if JS.includes chordName "m"%char then 3 else 4).
      assert (Hthird : 3 <= third <= 4)
        by (subst third; destruct (JS.includes _ _); lia).
      rewrite !Z.rem_mod_nonneg by lia.
      rewrite (nth_in_range SCALES_chromatic ((i + third) mod 12) "")
        by (change (Z.of_nat _) with 12; apply Z.mod_pos_bound; lia).
      rewrite (nth_in_range SCALES_chromatic ((i + 7) mod 12) "")
        by (change (Z.of_nat _) with 12; apply Z.mod_pos_bound; lia).
      reflexivity. }
    split; [exact Hnth | split; [exact Hnotes |]].
    rewrite Hnotes. reflexivity.
  - intros Hnot. unfold getChordNotes. fold root.
    rewrite (indexOf_absent _ _ Hnot). reflexivity.
Qed.

Lemma getChordNotes_resolution_witness :
  getChordNotes "Am" = ["A2"; "C2"; "E2"] /\
  getChordNotes "Hm" = ["H2"].
Proof.
  split.
  - destruct (getChordNotes_resolution "Am") as [Hin _].
    destruct Hin as (_ & Heq & _).
    + simpl. tauto.
    + rewrite Heq. reflexivity.
  - destruct (getChordNotes_resolution "Hm") as [_ Hout].
    rewrite Hout; [reflexivity |].
    simpl. intros H.
    repeat (destruct H as [H | H]; [discriminate H |]). exact H.
Defined.

(** ** Settings on a live engine *)

Lemma registry_read (name : string) :
  In name scale_names <-> exists items, JS.get SCALES name = JS.VArray items.
Proof.
  unfold scale_names, SCALES. cbn [map fst JS.get]. split.
  - intros H.
    repeat (destruct H as [<- | H]; [eexists; reflexivity |]).
    destruct H.
  - intros [items H]. cbn [In].
    repeat (match type of H with
            | (if (?k =? name)%string then _ else _) = _ =>
                destruct (String.eqb_spec k name) as [-> | _]; [tauto |]
            end).
    exfalso. revert H. unfold JS.Object_prototype.
    repeat (match goal with
            | |- (if ?b then _ else _) = _ -> _ => destruct b
            end; [discriminate |]).
    discriminate.
Qed.

Lemma registry_truthy (name : string) :
  In name scale_names -> JS.truthy (JS.get SCALES name) = true.
Proof.
  intros H. apply registry_read in H. destruct H as [items ->]. reflexivity.
Qed.

(** With the three nodes present, the scale a settings update leaves is the
    requested name when [SCALES[name]] is truthy, the previous one when it
    is not or when no name is given. *)
Lemma updateMusicSettings_scale (settings : Settings) (w : World) :
  initialized (engine w) = true ->
  currentScale (context (exec (updateMusicSettings settings) w))
  = match settings_scale settings with
    | Some s =>
        if JS.truthy (JS.get SCALES s) then s else currentScale (context w)
    | None => currentScale (context w)
    end.
Proof.
  destruct w as [[s r d] c h], settings as [sv ss sr sd].
  unfold initialized; run; intros Hinit.
  destruct s, r, d; try discriminate Hinit.
  unfold updateMusicSettings.
  destruct sv, ss as [name |], sr, sd; run;
    try destruct (JS.truthy (JS.get SCALES name)); run;
    match goal with
    | |- context [Qgtb ?x ?y] => destruct (Qgtb x y)
    end; reflexivity.
Qed.

(** A registry name is committed. *)
Lemma updateMusicSettings_known_scale (settings : Settings) (w : World)
      (name : string) :
  initialized (engine w) = true ->
  settings_scale settings = Some name ->
  In name scale_names ->
  currentScale (context (exec (updateMusicSettings settings) w)) = name.
Proof.
  intros Hinit Hname Hin.
  rewrite updateMusicSettings_scale by exact Hinit.
  rewrite Hname, registry_truthy by exact Hin. reflexivity.
Qed.

(** A name that [SCALES] neither owns nor inherits is ignored. *)
Lemma updateMusicSettings_undefined_scale (settings : Settings) (w : World)
      (name : string) :
  initialized (engine w) = true ->
  settings_scale settings = Some name ->
  JS.get SCALES name = JS.VUndefined ->
  currentScale (context (exec (updateMusicSettings settings) w))
  = currentScale (context w).
Proof.
  intros Hinit Hname Hundef.
  rewrite updateMusicSettings_scale by exact Hinit.
  rewrite Hname, Hundef. reflexivity.
Qed.

Lemma cold_world_loaded : loaded cold_world.
Proof.
  repeat split.
  - intros n. unfold cold_world, sample_host. cbn [host clock].
    unfold Qle, Qdiv, Qmult, Qinv, inject_Z. cbn [Qnum Qden].
    rewrite Nat2Z.inj_succ. lia.
  - cbn. destruct (Nat.even n); discriminate.
  - cbn. destruct (Nat.even n); reflexivity.
Qed.

(** C9, at the input where the code departs from it. The name
    [constructor] is not in the scale registry, yet [SCALES["constructor"]]
    is the inherited [Object] function, which is truthy: once the engine is
    initialized, the update commits it as the current scale (the operation
    does not fail), in a world reached from the loaded module by calls into
    it, and the next letter key maps to a note without a pitch class. *)
Theorem updateMusicSettings_commits_inherited_name :
  let settings :=
    {| settings_volume := None; settings_scale := Some "constructor";
       settings_reverb := None; settings_delay := None |} in
  let w :=
    exec (initAudioEngine_resume 0.5 true)
         (exec (initAudioEngine 0.5) cold_world) in
  let w' := exec (updateMusicSettings settings) w in
  loaded cold_world /\
  reachable cold_world w' /\
  initialized (engine w) = true /\
  ~ In "constructor" scale_names /\
  fst (updateMusicSettings settings w) = Return tt /\
  currentScale (context w) = "pentatonic" /\
  currentScale (context w') = "constructor" /\
  keyToNote (context w') 65 = Return "undefined3".
Proof.
  intros settings w w'.
  split; [exact cold_world_loaded |].
  split.
  { apply reachable_step with w; [| apply step_updateMusicSettings].
    apply reachable_step with (exec (initAudioEngine 0.5) cold_world);
      [| apply step_resume].
    apply reachable_step with cold_world;
      [apply reachable_here | apply step_initAudioEngine]. }
  split; [reflexivity |].
  split.
  { cbn. intros H.
    repeat (destruct H as [H | H]; [discriminate H |]). exact H. }
  repeat split.
Qed.

(** ** The background chord progression *)

Lemma nth_some_range {A : Type} (l : list A) (i : Z) (x : A) :
  JS.nth l i = Some x -> 0 <= i < Z.of_nat (List.length l).
Proof.
  unfold JS.nth. destruct (Z.ltb_spec i 0) as [Hneg | Hpos]; [discriminate |].
  intros Hnth. assert (Hlt : (Z.to_nat i < List.length l)%nat).
  { apply nth_error_Some. rewrite Hnth. discriminate. }
  lia.
Qed.

(** The chord branch, as an equation on worlds. *)
Lemma progressChordSequence_taken (w : World) (s : PolySynth)
      (progression : list string) (chord : string) :
  synth (engine w) = Some s ->
  (random (host w) (draws (host w)) <= 0.2)%Q ->
  JS.nth CHORD_PROGRESSIONS (currentProgression (context w))
  = Some progression ->
  JS.nth progression (progressionIndex (context w)) = Some chord ->
  progressChordSequence w = (Return tt, chord_played w progression chord).
Proof.
  destruct w as [[sy rv dl] c [tr ck tk rn dr]]. run.
  intros -> Hdraw Hp Hc.
  assert (Hskip : Qgtb (rn dr) (round 0.2) = false).
  { apply Qgtb_false. apply Qle_trans with 0.2%Q; [exact Hdraw |].
    exact round_fifth. }
  unfold progressChordSequence, chord_played. run.
  rewrite Hskip. run. rewrite Hp. run. rewrite Hc. run. reflexivity.
Qed.

(** C6. When the chord branch of [progressChordSequence] is taken (synth
    present, draw not above 0.2), the cursor moves to the next position of
    the active progression, back to 0 after the last one, and the chord the
    cursor was on is requested once, for 1.5 s at velocity 0.1; nothing else
    of the context changes. *)
Theorem progressChordSequence_advances :
  forall (w : World) (s : PolySynth) (progression : list string)
         (chord : string),
    synth (engine w) = Some s ->
    (random (host w) (draws (host w)) <= 0.2)%Q ->
    JS.nth CHORD_PROGRESSIONS (currentProgression (context w))
    = Some progression ->
    JS.nth progression (progressionIndex (context w)) = Some chord ->
    let w' := exec progressChordSequence w in
    let i := progressionIndex (context w) in
    let n := Z.of_nat (List.length progression) in
    fst (progressChordSequence w) = Return tt /\
    progressionIndex (context w') = (i + 1) mod n /\
    progressionIndex (context w') = (if i + 1 <? n then i + 1 else 0) /\
    context w' = set_progressionIndex ((i + 1) mod n) (context w) /\
    issued progressChordSequence w
    = [TriggerAttackReleaseChord (getChordNotes chord) 1.5
         (clock (host w) (ticks (host w))) 0.1].
Proof.
  intros w s progression chord Hs Hdraw Hp Hc w' i n.
  pose proof (nth_some_range _ _ _ Hc) as Hi. fold i n in Hi.
  pose proof (progressChordSequence_taken w s progression chord
                                          Hs Hdraw Hp Hc) as Htaken.
  assert (Hexec : w' = chord_played w progression chord)
    by (subst w'; unfold exec; now rewrite Htaken).
  assert (Hrem : Z.rem (i + 1) n = (i + 1) mod n)
    by (apply Z.rem_mod_nonneg; lia).
  assert (Hctx : context w' = set_progressionIndex ((i + 1) mod n) (context w)).
  { rewrite Hexec. unfold chord_played. cbn [context]. fold i n.
    now rewrite Hrem. }
  split; [now rewrite Htaken |].
  split; [now rewrite Hctx |].
  split; [| split; [exact Hctx |]].
  - rewrite Hctx. cbn [set_progressionIndex progressionIndex].
    destruct (Z.ltb_spec (i + 1) n) as [Hlt | Hge].
    + apply Z.mod_small. lia.
    + replace (i + 1) with n by lia. apply Z.mod_same. lia.
  - unfold issued. fold w'. rewrite Hexec. unfold chord_played.
    cbn [host trace]. apply skipn_own_length.
Qed.

Lemma progressChordSequence_advances_witness :
  let w := exec Math_random ready_world in
  progressionIndex (context (exec progressChordSequence w)) = 1 /\
  issued progressChordSequence w
  = [TriggerAttackReleaseChord ["C2"; "E2"; "G2"] 1.5
       (clock sample_host 0) 0.1].
Proof.
  intros w.
  assert (Hdraw : (random (host w) (draws (host w)) <= 0.2)%Q)
    by (unfold Qle; simpl; lia).
  destruct (progressChordSequence_advances
              w {| volume := gainToDb 0.5 |} ["C"; "G"; "Am"; "F"] "C"
              eq_refl Hdraw eq_refl eq_refl)
    as (_ & Hidx & _ & _ & Hreq).
  split; [rewrite Hidx | rewrite Hreq]; reflexivity.
Defined.

(** Above the double 0.2 the draw is the only effect. *)
Lemma progressChordSequence_skips (w : World) :
  (round 0.2 < random (host w) (draws (host w)))%Q ->
  context (exec progressChordSequence w) = context w /\
  issued progressChordSequence w = [].
Proof.
  destruct w as [[sy rv dl] c [tr ck tk rn dr]]. run. intros Hdraw.
  apply Qgtb_true in Hdraw.
  unfold issued, progressChordSequence. run.
  destruct sy; run; [rewrite Hdraw; run |];
    (split; [reflexivity |]);
    rewrite <- (app_nil_r tr) at 2; apply skipn_own_length.
Qed.

(** ** The shape of a note played on a live engine *)

Lemma playNote_live (key : N) (duration velocity : Q) (w : World)
      (s : PolySynth) (n : string) :
  synth (engine w) = Some s ->
  keyToNote (context w) key = Return n ->
  playNote key duration velocity w
  = try_catch playNote_tail (played w n duration velocity).
Proof.
  destruct w as [[sy rv dl] c [tr ck tk rn dr]]. run. intros -> Hnote.
  unfold playNote, played, playNote_tail, pruned_queue. run.
  rewrite Hnote. run. reflexivity.
Qed.

Lemma playNote_throws (key : N) (duration velocity : Q) (w : World)
      (s : PolySynth) :
  synth (engine w) = Some s ->
  keyToNote (context w) key = Throw ->
  playNote key duration velocity w = (Return tt, w).
Proof.
  destruct w as [[sy rv dl] c [tr ck tk rn dr]]. run. intros -> Hnote.
  unfold playNote. run. rewrite Hnote. reflexivity.
Qed.

Lemma keyToNote_returns (c : Context) (key : N) :
  JS.truthy (JS.get SCALES (currentScale c)) = true ->
  exists n, keyToNote c key = Return n.
Proof.
  unfold keyToNote. intros Htruthy.
  destruct (JS.get SCALES (currentScale c)); try discriminate Htruthy;
    cbn [JS.length];
    destruct (test_letter key); try (eexists; reflexivity);
    destruct (test_digit key); eexists; reflexivity.
Qed.

(** [generateHarmony] changes nothing but the trace, to which it adds
    nothing or its two timers. *)
Lemma generateHarmony_frame (w : World) :
  exists rs,
    exec generateHarmony w = add_requests rs w /\
    (rs = [] \/
     exists cb3 cb5, rs = [SetTimeout cb3 50; SetTimeout cb5 100]).
Proof.
  destruct w as [[sy rv dl] c [tr ck tk rn dr]].
  assert (Hnil : {| engine := {| synth := sy; reverb := rv; delay := dl |};
                    context := c;
                    host := {| trace := tr; clock := ck; ticks := tk;
                               random := rn; draws := dr |} |}
                 = add_requests []
                     {| engine := {| synth := sy; reverb := rv; delay := dl |};
                        context := c;
                        host := {| trace := tr; clock := ck; ticks := tk;
                                   random := rn; draws := dr |} |})
    by (unfold add_requests; run; now rewrite app_nil_r).
  unfold generateHarmony. run.
  destruct sy; run; [| exists []; split; [exact Hnil | left; reflexivity]].
  destruct (Z.of_nat (List.length (notesInQueue c)) <? 2); run;
    [exists []; split; [exact Hnil | left; reflexivity] |].
  destruct (List.last (map Some (lastNotesPlayed c)) None) as [lastNote |];
    run; [| exists []; split; [exact Hnil | left; reflexivity]].
  destruct (lastNote =? "")%string; run;
    [exists []; split; [exact Hnil | left; reflexivity] |].
  destruct (JS.get SCALES (currentScale c)) as [items | arity | |]; run;
    try (exists []; split; [exact Hnil | left; reflexivity]).
  destruct (JS.indexOf items (JS.init lastNote) =? -1); run;
    [exists []; split; [exact Hnil | left; reflexivity] |].
  eexists. split; [| right; eexists; eexists; reflexivity].
  unfold add_requests. run. rewrite <- app_assoc. reflexivity.
Qed.

Lemma set_progressionIndex_same (c : Context) :
  c = set_progressionIndex (progressionIndex c) c.
Proof. destruct c; reflexivity. Qed.

Lemma extends_refl (w : World) : extends w w [].
Proof.
  unfold extends. rewrite app_nil_r.
  repeat split; try reflexivity; try lia.
  exists (progressionIndex (context w)). apply set_progressionIndex_same.
Qed.

Lemma extends_trans (w1 w2 w3 : World) (rs rs' : list Request) :
  extends w1 w2 rs -> extends w2 w3 rs' -> extends w1 w3 (rs ++ rs').
Proof.
  intros (He & [i Hc] & Ht & Hk & Hr & Hn).
  intros (He' & [j Hc'] & Ht' & Hk' & Hr' & Hn').
  unfold extends. repeat split; try congruence.
  - exists j. rewrite Hc', Hc. destruct (context w1); reflexivity.
  - rewrite Ht', Ht. symmetry. apply app_assoc.
  - lia.
Qed.

Lemma extends_issued {A : Type} (m : M A) (w : World) (rs : list Request) :
  extends w (exec m w) rs -> issued m w = rs.
Proof.
  intros (_ & _ & Ht & _). unfold issued. rewrite Ht.
  apply skipn_own_length.
Qed.

Lemma generateHarmony_extends (w : World) :
  exists rs,
    extends w (exec generateHarmony w) rs /\
    (rs = [] \/
     exists cb3 cb5, rs = [SetTimeout cb3 50; SetTimeout cb5 100]).
Proof.
  destruct (generateHarmony_frame w) as (rs & Hexec & Hrs).
  exists rs. split; [| exact Hrs].
  rewrite Hexec. unfold extends, add_requests. run.
  repeat split; try reflexivity; try lia.
  exists (progressionIndex (context w)). apply set_progressionIndex_same.
Qed.

(** [progressChordSequence] moves at most the cursor and registers no
    timer. *)
Lemma progressChordSequence_extends (w : World) :
  exists rs,
    extends w (exec progressChordSequence w) rs /\
    existsb is_timer rs = false.
Proof.
  destruct w as [[sy rv dl] c [tr ck tk rn dr]].
  unfold progressChordSequence. run.
  destruct sy; run; [| exists []; split; [apply extends_refl | reflexivity]].
  match goal with |- context [Qgtb ?x ?y] => destruct (Qgtb x y) end; run.
  { exists []. split; [| reflexivity]. unfold extends. run.
    rewrite app_nil_r. repeat split; try reflexivity; try lia.
    exists (progressionIndex c). apply set_progressionIndex_same. }
  destruct (JS.nth CHORD_PROGRESSIONS (currentProgression c))
    as [progression |]; run.
  2:{ exists []. split; [| reflexivity]. unfold extends. run.
      rewrite app_nil_r. repeat split; try reflexivity; try lia.
      exists (progressionIndex c). apply set_progressionIndex_same. }
  destruct (JS.nth progression (progressionIndex c)) as [chord |]; run.
  - eexists. split; [| shelve]. unfold extends. run.
    repeat split; try reflexivity; try lia. eexists. reflexivity.
    Unshelve. reflexivity.
  - exists []. split; [| reflexivity]. unfold extends. run.
    rewrite app_nil_r. repeat split; try reflexivity; try lia.
    eexists. reflexivity.
Qed.

Lemma exec_bind {A B : Type} (m : M A) (k : A -> M B) (w : World) :
  exec (bind m k) w
  = match fst (m w) with
    | Return a => exec (k a) (exec m w)
    | Throw => exec m w
    end.
Proof.
  unfold exec, bind. destruct (m w) as [[a |] w']; reflexivity.
Qed.

Lemma exec_try_catch (m : M unit) (w : World) :
  exec (try_catch m) w = exec m w.
Proof.
  unfold exec, try_catch. destruct (m w) as [[a |] w']; reflexivity.
Qed.

(** After the note is requested, [playNote] moves at most the cursor, and
    registers timers only with two or more notes queued and a draw above
    0.6. *)
Lemma playNote_tail_extends (w : World) :
  exists rs,
    extends w (exec (try_catch playNote_tail) w) rs /\
    (existsb is_timer rs = true ->
     2 <= Z.of_nat (List.length (notesInQueue (context w))) /\
     (0.6 < random (host w) (draws (host w)))%Q).
Proof.
  rewrite exec_try_catch. unfold playNote_tail.
  rewrite exec_bind. cbn [get_context fst].
  change (exec get_context w) with w.
  rewrite exec_bind.
  set (harmony := if 1 <? Z.of_nat (List.length (notesInQueue (context w)))
                  then _ else _).
  assert (Hh : exists rs,
             extends w (exec harmony w) rs /\
             (existsb is_timer rs = true ->
              2 <= Z.of_nat (List.length (notesInQueue (context w))) /\
              (0.6 < random (host w) (draws (host w)))%Q)).
  { subst harmony.
    destruct (Z.ltb_spec 1 (Z.of_nat (List.length (notesInQueue (context w)))))
      as [Hlen | Hlen].
    2:{ exists []. split; [apply extends_refl | discriminate]. }
    rewrite exec_bind. cbn [Math_random fst].
    set (w1 := exec Math_random w).
    assert (H1 : extends w w1 []).
    { subst w1. unfold extends. destruct w as [e c [tr ck tk rn dr]]. run.
      rewrite app_nil_r. repeat split; try reflexivity; try lia.
      exists (progressionIndex c). apply set_progressionIndex_same. }
    destruct (Qgtb (random (host w) (draws (host w))) 0.6) eqn:Hdraw.
    - destruct (generateHarmony_extends w1) as (rs & Hext & _).
      exists rs. split.
      + exact (extends_trans _ _ _ _ _ H1 Hext).
      + intros _. split; [lia | apply Qgtb_true; exact Hdraw].
    - exists []. split; [| discriminate].
      change (exec (ret tt) w1) with w1. exact H1. }
  destruct Hh as (rs & Hext & Htimer).
  destruct (fst (harmony w)).
  - destruct (progressChordSequence_extends (exec harmony w))
      as (rs' & Hext' & Hnone).
    exists (rs ++ rs'). split.
    + exact (extends_trans _ _ _ _ _ Hext Hext').
    + rewrite existsb_app, Hnone, orb_false_r. exact Htimer.
  - exists rs. split; assumption.
Qed.

(** What a note played on a live engine leaves: the world of [played],
    moved on by [playNote_tail]. *)
Lemma playNote_live_extends (key : N) (duration velocity : Q) (w : World)
      (s : PolySynth) (n : string) :
  synth (engine w) = Some s ->
  keyToNote (context w) key = Return n ->
  exists rs,
    extends (played w n duration velocity)
            (exec (playNote key duration velocity) w) rs /\
    issued (playNote key duration velocity) w
    = TriggerAttackRelease n duration
        (clock (host w) (S (S (ticks (host w))))) velocity :: rs /\
    (existsb is_timer rs = true ->
     2 <= Z.of_nat
            (List.length
               (notesInQueue (context (played w n duration velocity)))) /\
     (0.6 < random (host w) (draws (host w)))%Q).
Proof.
  intros Hs Hn.
  destruct (playNote_tail_extends (played w n duration velocity))
    as (rs & Hext & Htimer).
  exists rs.
  assert (Hexec : exec (playNote key duration velocity) w
                  = exec (try_catch playNote_tail)
                         (played w n duration velocity))
    by (unfold exec at 1; rewrite (playNote_live _ _ _ _ _ _ Hs Hn);
        reflexivity).
  rewrite Hexec. split; [exact Hext | split; [| exact Htimer]].
  unfold issued. rewrite Hexec.
  destruct Hext as (_ & _ & Ht & _). rewrite Ht.
  unfold played. run. rewrite <- app_assoc. apply skipn_own_length.
Qed.

Lemma issued_nothing {A : Type} (m : M A) (w : World) :
  exec m w = w -> issued m w = [].
Proof.
  intros H. unfold issued. rewrite H.
  rewrite <- (app_nil_r (trace (host w))) at 2. apply skipn_own_length.
Qed.

(** ** When harmony is generated *)

(** C4. A call of [playNote] registers harmony timers only if its random
    draw is above 0.6 and the recent-note queue it leaves holds at least two
    notes; and with fewer than two notes queued [generateHarmony] does
    nothing: no request, the world unchanged. *)
Theorem harmony_trigger :
  (forall (key : N) (duration velocity : Q) (w : World),
      existsb is_timer (issued (playNote key duration velocity) w) = true ->
      (0.6 < random (host w) (draws (host w)))%Q /\
      (2 <= List.length
              (notesInQueue
                 (context (exec (playNote key duration velocity) w))))%nat) /\
  (forall w : World,
      (List.length (notesInQueue (context w)) < 2)%nat ->
      generateHarmony w = (Return tt, w) /\ issued generateHarmony w = []).
Proof.
  split.
  - intros key duration velocity w Htimer.
    destruct (synth (engine w)) as [s |] eqn:Hs.
    + destruct (keyToNote (context w) key) as [n |] eqn:Hn.
      * destruct (playNote_live_extends key duration velocity w s n Hs Hn)
          as (rs & Hext & Hissued & Hcond).
        rewrite Hissued in Htimer. cbn [existsb is_timer orb] in Htimer.
        destruct (Hcond Htimer) as [Hlen Hdraw].
        split; [exact Hdraw |].
        destruct Hext as (_ & [i Hc] & _). rewrite Hc.
        cbn [set_progressionIndex notesInQueue]. lia.
      * rewrite issued_nothing in Htimer; [discriminate Htimer |].
        unfold exec. now rewrite (playNote_throws _ _ _ _ _ Hs Hn).
    + rewrite (issued_add_requests _ _ [ToneStart 0.5]) in Htimer;
        [discriminate Htimer |].
      unfold exec. now rewrite (playNote_cold _ _ _ _ Hs).
  - intros w Hlen.
    assert (Heq : generateHarmony w = (Return tt, w)).
    { destruct w as [[sy rv dl] c [tr ck tk rn dr]].
      unfold generateHarmony. run. destruct sy; run; [| reflexivity].
      destruct (Z.ltb_spec (Z.of_nat (List.length (notesInQueue c))) 2);
        [reflexivity | lia]. }
    split; [exact Heq |].
    apply issued_nothing. unfold exec. now rewrite Heq.
Qed.

Lemma harmony_trigger_witness :
  let w := exec (playNote 65 0.5 0.7 ;;; Math_random) ready_world in
  ((0.6 < random (host w) (draws (host w)))%Q /\
   (2 <= List.length
           (notesInQueue (context (exec (playNote 68 0.5 0.7) w))))%nat) /\
  generateHarmony ready_world = (Return tt, ready_world).
Proof.
  intros w. split.
  - apply (proj1 harmony_trigger 68%N 0.5%Q 0.7%Q w). vm_compute. reflexivity.
  - apply (proj2 harmony_trigger ready_world). simpl. lia.
Defined.

(** ** The window of the recent-note queue *)

(** C7. After a note is played on a live engine (the current scale read
    from [SCALES] being truthy, so that the note is inserted), every entry
    of the recent-note queue was stamped less than 2 seconds before the
    latest insert and not after it, provided the clock did not run backwards
    between the insert and the pruning and the queue held no stamp from the
    future. *)
Theorem playNote_queue_window :
  forall (key : N) (duration velocity : Q) (w : World) (s : PolySynth),
    synth (engine w) = Some s ->
    JS.truthy (JS.get SCALES (currentScale (context w))) = true ->
    (clock (host w) (ticks (host w))
     <= clock (host w) (S (ticks (host w))))%Q ->
    queue_stamped w ->
    let inserted := clock (host w) (ticks (host w)) in
    let w' := exec (playNote key duration velocity) w in
    Forall (fun e => (inserted - time e < 2)%Q /\ (time e <= inserted)%Q)
           (notesInQueue (context w')).
Proof.
  intros key duration velocity w s Hs Htruthy Hclock Hstamped inserted w'.
  destruct (keyToNote_returns (context w) key Htruthy) as [n Hn].
  destruct (playNote_live_extends key duration velocity w s n Hs Hn)
    as (rs & (_ & [i Hc] & _) & _).
  subst w'. rewrite Hc.
  unfold played. cbn [context set_progressionIndex set_notesInQueue
                      set_lastNotesPlayed notesInQueue].
  unfold pruned_queue. apply Forall_forall. intros e He.
  apply filter_In in He. destruct He as [Hin Hfresh].
  apply Qltb_true in Hfresh. fold inserted in Hclock.
  assert (Hpast : (time e <= inserted)%Q).
  { apply in_app_or in Hin. destruct Hin as [Hold | [<- | []]].
    - unfold queue_stamped in Hstamped.
      rewrite Forall_forall in Hstamped. exact (Hstamped e Hold).
    - cbn [time]. apply Qle_refl. }
  split; [| exact Hpast].
  destruct (Qlt_le_dec (clock (host w) (S (ticks (host w))) - time e) 2)
    as [Hlt | Hge]; [lra |].
  apply round_two in Hge. lra.
Qed.

(** The fourth press of the recorded session finds [G3] and [D4] queued:
    [G3], stamped 2.01 s before the pruning reading, is pruned, [D4] is
    kept and [A4] is inserted. *)
Lemma playNote_queue_window_witness :
  let w := session [(65%N, 0.5%Q, 0.7%Q); (68%N, 0.5%Q, 0.7%Q);
                    (71%N, 0.5%Q, 0.7%Q)] in
  let w' := exec (playNote 74 0.5 0.7) w in
  notesInQueue (context w)
  = [ {| note := "G3"; time := clock studio_host 4 |};
      {| note := "D4"; time := clock studio_host 7 |} ] /\
  notesInQueue (context w')
  = [ {| note := "D4"; time := clock studio_host 7 |};
      {| note := "A4"; time := clock studio_host 11 |} ] /\
  Forall (fun e => (clock studio_host 11 - time e < 2)%Q /\
                   (time e <= clock studio_host 11)%Q)
         (notesInQueue (context w')).
Proof.
  intros w w'.
  assert (Hqueue : notesInQueue (context w)
                   = [ {| note := "G3"; time := clock studio_host 4 |};
                       {| note := "D4"; time := clock studio_host 7 |} ])
    by (vm_compute; reflexivity).
  split; [exact Hqueue |].
  split; [vm_compute; reflexivity |].
  apply (playNote_queue_window 74 0.5 0.7 w {| volume := gainToDb 0.5 |}).
  - reflexivity.
  - reflexivity.
  - Qdecide.
  - unfold queue_stamped. rewrite Hqueue.
    repeat (apply Forall_cons; [Qdecide |]). apply Forall_nil.
Defined.

(** ** Notes as strings *)

Lemma substring_prefix (l r : string) :
  substring 0 (String.length l) (l ++ r)%string = l.
Proof.
  induction l as [| a l IH]; simpl.
  - destruct r; reflexivity.
  - rewrite IH. reflexivity.
Qed.

Lemma substring_suffix (l r : string) :
  substring (String.length l) (String.length r) (l ++ r)%string = r.
Proof.
  induction l as [| a l IH]; simpl.
  - induction r as [| b r IHr]; simpl; [reflexivity | now rewrite IHr].
  - exact IH.
Qed.

Lemma length_snoc (l : string) (a : ascii) :
  (String.length (l ++ String a "")%string - 1)%nat = String.length l.
Proof.
  induction l as [| b l IH]; simpl; [reflexivity |].
  simpl in IH. destruct (String.length (l ++ String a "")%string) eqn:E.
  - destruct l; discriminate E.
  - simpl in IH. rewrite Nat.sub_0_r in IH. now rewrite IH.
Qed.

Lemma init_snoc (l : string) (a : ascii) :
  JS.init (l ++ String a "")%string = l.
Proof.
  unfold JS.init. rewrite length_snoc. apply substring_prefix.
Qed.

Lemma final_snoc (l : string) (a : ascii) :
  JS.final (l ++ String a "")%string = String a "".
Proof.
  unfold JS.final. rewrite length_snoc.
  exact (substring_suffix l (String a "")).
Qed.

(** A one-digit number prints as one character that [parseInt] reads
    back. *)
Lemma decimal_digit (o : Z) :
  0 <= o <= 9 ->
  exists a, Spec.decimal o = String a "" /\
            JS.parseInt1 (String a "") = JS.Num o.
Proof.
  intros Ho.
  assert (Hcases : o = 0 \/ o = 1 \/ o = 2 \/ o = 3 \/ o = 4 \/
                   o = 5 \/ o = 6 \/ o = 7 \/ o = 8 \/ o = 9) by lia.
  repeat (destruct Hcases as [-> | Hcases];
          [eexists; split; reflexivity |]).
  subst o. eexists; split; reflexivity.
Qed.

Lemma note_parts (label : string) (o : Z) :
  0 <= o <= 9 ->
  let n := (label ++ Spec.decimal o)%string in
  JS.init n = label /\ JS.parseInt1 (JS.final n) = JS.Num o /\
  (n =? "")%string = false.
Proof.
  intros Ho n. subst n.
  destruct (decimal_digit o Ho) as (a & -> & Hparse).
  rewrite init_snoc, final_snoc. repeat split; [exact Hparse |].
  destruct label; reflexivity.
Qed.

(** ** The scale registry *)

Lemma registry_get (name : string) (items : list string) :
  In (name, items) SCALES -> JS.get SCALES name = JS.VArray items.
Proof.
  unfold SCALES. cbn [In]. intros H.
  repeat (destruct H as [H | H]; [inversion H; reflexivity |]).
  destruct H.
Qed.

Lemma registry_length (name : string) (items : list string) :
  In (name, items) SCALES -> 5 <= Z.of_nat (List.length items) <= 12.
Proof.
  unfold SCALES. cbn [In]. intros H.
  repeat (destruct H as [H | H]; [inversion H; simpl; lia |]).
  destruct H.
Qed.

(** ** Harmony generation *)

Lemma wrap_iff (i k n : Z) :
  0 <= i < n -> 0 <= k < n -> ((i + k) mod n < i <-> n <= i + k).
Proof.
  intros Hi Hk. destruct (Z.lt_ge_cases (i + k) n) as [Hlt | Hge].
  - rewrite Z.mod_small by lia. lia.
  - replace (i + k) with ((i + k - n) + 1 * n) by lia.
    rewrite Z.mod_add by lia. rewrite Z.mod_small by lia. lia.
Qed.

(** C3. When [generateHarmony] runs (synth present, two or more notes
    queued) and the most recent note is the entry of index [i] of the current
    registry scale followed by an octave digit [o], it registers exactly two
    timers, at 50 and 100 ms, and nothing else changes. When the two timers
    fire, the synth still being there, exactly two notes are requested, for
    0.4 s at velocity 0.4 and for 0.3 s at velocity 0.3: the entries of index
    [(i+2) mod n] and [(i+4) mod n], each at octave [o], or [o+1] when its
    reduced index is below [i], which is exactly when [i] plus the offset
    reaches the scale length [n]. A timer that fires after the synth is gone
    requests nothing. *)
Theorem generateHarmony_notes :
  forall (w : World) (s : PolySynth) (items history : list string)
         (label : string) (o : Z),
    synth (engine w) = Some s ->
    (2 <= List.length (notesInQueue (context w)))%nat ->
    In (currentScale (context w), items) SCALES ->
    lastNotesPlayed (context w)
    = history ++ [(label ++ Spec.decimal o)%string] ->
    In label items ->
    0 <= o <= 9 ->
    let i := JS.indexOf items label in
    let n := Z.of_nat (List.length items) in
    let third := {| harmony_note := Spec.harmony_note items i o 2;
                    harmony_duration := 0.4;
                    harmony_velocity := 0.4 |} in
    let fifth := {| harmony_note := Spec.harmony_note items i o 4;
                    harmony_duration := 0.3;
                    harmony_velocity := 0.3 |} in
    JS.nth items i = Some label /\
    generateHarmony w
    = (Return tt, add_requests [SetTimeout third 50; SetTimeout fifth 100] w) /\
    (forall (w1 : World) (s1 : PolySynth),
        synth (engine w1) = Some s1 ->
        issued (run_callback third ;;; run_callback fifth) w1
        = [ TriggerAttackRelease (Spec.harmony_note items i o 2) 0.4
              (clock (host w1) (ticks (host w1))) 0.4;
            TriggerAttackRelease (Spec.harmony_note items i o 4) 0.3
              (clock (host w1) (S (ticks (host w1)))) 0.3 ]) /\
    (forall (w1 : World) (cb : HarmonyCallback),
        synth (engine w1) = None -> run_callback cb w1 = (Return tt, w1)) /\
    ((i + 2) mod n < i <-> n <= i + 2) /\
    ((i + 4) mod n < i <-> n <= i + 4).
Proof.
  intros [[sy rv dl] c [tr ck tk rn dr]] s items history label o.
  run. intros -> Hqueue Hscale Hlast Hlabel Ho.
  set (i := JS.indexOf items label).
  set (n := Z.of_nat (List.length items)).
  destruct (indexOf_present items label Hlabel) as [Hi Hnth].
  fold i in Hi, Hnth. fold n in Hi.
  pose proof (registry_length _ _ Hscale) as Hn. fold n in Hn.
  destruct (note_parts label o Ho) as (Hinit & Hparse & Hnonempty).
  split; [exact Hnth |].
  split; [| split; [| split; [| split; apply wrap_iff; lia]]].
  - unfold generateHarmony, add_requests. run.
    destruct (Z.ltb_spec (Z.of_nat (List.length (notesInQueue c))) 2);
      [lia |].
    rewrite Hlast, map_app. cbn [map]. rewrite last_last.
    rewrite Hnonempty, Hinit, Hparse, (registry_get _ _ Hscale).
    fold i. destruct (Z.eqb_spec i (-1)); [lia |]. fold n.
    rewrite !Z.rem_mod_nonneg by lia.
    unfold Spec.harmony_note. fold n.
    rewrite (nth_in_range items ((i + 2) mod n) "")
      by (apply Z.mod_pos_bound; lia).
    rewrite (nth_in_range items ((i + 4) mod n) "")
      by (apply Z.mod_pos_bound; lia).
    cbn [JS.show].
    assert (Hoct : forall b : bool,
               JS.toString (if b then JS.add 1 (JS.Num o) else JS.Num o)
               = Spec.decimal (if b then o + 1 else o)).
    { intros [|]; [| reflexivity].
      cbn [JS.add JS.toString]. unfold Spec.decimal.
      now rewrite (Z.add_comm 1 o). }
    rewrite !Hoct. rewrite <- app_assoc. reflexivity.
  - intros [[sy1 rv1 dl1] c1 [tr1 ck1 tk1 rn1 dr1]] s1. run. intros ->.
    unfold issued, run_callback. run.
    cbn [harmony_note harmony_duration harmony_velocity].
    rewrite <- app_assoc. apply skipn_own_length.
  - intros [[sy1 rv1 dl1] c1 h1] cb. run. intros ->.
    unfold run_callback. run. reflexivity.
Qed.

(** After [A] and [C] on the pentatonic scale the most recent note is [E3],
    of index 2: the third is [A3], in the same octave, the fifth wraps to
    [D4]; the timers registered then fire in turn. *)
Lemma generateHarmony_notes_witness :
  let w := exec (playNote 65 0.5 0.7 ;;; playNote 67 0.5 0.7) ready_world in
  let third := {| harmony_note := "A3"; harmony_duration := 0.4;
                  harmony_velocity := 0.4 |} in
  let fifth := {| harmony_note := "D4"; harmony_duration := 0.3;
                  harmony_velocity := 0.3 |} in
  issued generateHarmony w = [SetTimeout third 50; SetTimeout fifth 100] /\
  issued (run_callback third ;;; run_callback fifth) (exec generateHarmony w)
  = [ TriggerAttackRelease "A3" 0.4 (clock sample_host 6) 0.4;
      TriggerAttackRelease "D4" 0.3 (clock sample_host 7) 0.3 ].
Proof.
  intros w third fifth.
  destruct (generateHarmony_notes
              w {| volume := gainToDb 0.5 |} ["C"; "D"; "E"; "G"; "A"]
              ["C3"] "E" 3)
    as (_ & Heq & Hfire & _).
  - reflexivity.
  - vm_compute. lia.
  - vm_compute. tauto.
  - vm_compute. reflexivity.
  - simpl. tauto.
  - lia.
  - split.
    + unfold issued, exec. rewrite Heq. cbn [snd add_requests host trace].
      rewrite skipn_own_length. reflexivity.
    + exact (Hfire (exec generateHarmony w) {| volume := gainToDb 0.5 |}
                   eq_refl).
Defined.

(** ** The key mapping *)

Lemma keys_below_all (f : N -> bool) (n : nat) :
  forallb f (keys_below n) = true ->
  forall key : N, (key < N.of_nat n)%N -> f key = true.
Proof.
  intros Hall key Hkey. rewrite forallb_forall in Hall. apply Hall.
  unfold keys_below. apply in_map_iff. exists (N.to_nat key). split.
  - apply N2Nat.id.
  - apply in_seq. lia.
Qed.

Lemma position_in_absent (l : list N) (x : N) :
  Forall (fun y => (y < x)%N) l -> Spec.position_in l x = None.
Proof.
  induction 1 as [| y rest Hy _ IH]; simpl; [reflexivity |].
  destruct (N.eqb_spec y x); [lia |]. now rewrite IH.
Qed.

Lemma Forall_below_weaken (l : list N) (a b : N) :
  (a <= b)%N -> Forall (fun y => (y < a)%N) l -> Forall (fun y => (y < b)%N) l.
Proof.
  intros Hab. apply Forall_impl. intros y Hy. lia.
Qed.

(** The two classifications agree on every key. *)
Lemma classify_agrees_all (key : N) : classify_agrees key = true.
Proof.
  destruct (N.lt_ge_cases key 128) as [Hlow | Hhigh].
  - apply (keys_below_all classify_agrees 128); [| exact Hlow].
    vm_compute. reflexivity.
  - unfold classify_agrees, Spec.classify, Spec.letter_position,
      Spec.digit_value.
    assert (Habsent : forall l, Forall (fun y => (y < 128)%N) l ->
                                Spec.position_in l key = None).
    { intros l Hl. apply position_in_absent.
      exact (Forall_below_weaken l 128 key Hhigh Hl). }
    rewrite !Habsent
      by (vm_compute; repeat constructor).
    unfold test_letter, test_digit, charCodeAt0.
    rewrite Z.eqb_refl.
    destruct (N.leb_spec key 90); [lia |].
    destruct (N.leb_spec key 122); [lia |].
    destruct (N.leb_spec key 57); [lia |].
    rewrite !andb_false_r. reflexivity.
Qed.

Lemma rem_num (a d : Z) :
  d <> 0 -> JS.rem a (JS.Num d) = JS.Num (Z.rem a d).
Proof. destruct d; [congruence | reflexivity | reflexivity]. Qed.

Lemma floor_div_num (a d : Z) :
  d <> 0 -> JS.floor_div a (JS.Num d) = JS.Num (a / d).
Proof. destruct d; [congruence | reflexivity | reflexivity]. Qed.

Lemma clamp_min (x m : Z) :
  (if JS.gt (JS.Num x) m then JS.Num m else JS.Num x) = JS.Num (Z.min x m).
Proof.
  cbn [JS.gt]. destruct (Z.ltb_spec m x); f_equal; lia.
Qed.

(** On a registry scale the JavaScript numbers of [keyToNote] are integers:
    each branch returns [note_at] of its position. *)
Lemma keyToNote_registry (c : Context) (items : list string) (key : N) :
  In (currentScale c, items) SCALES ->
  let n := Z.of_nat (List.length items) in
  keyToNote c key
  = Return
      (if test_letter key then
         let p := toUpperCase_charCodeAt0 key - 65 in
         note_at items OCTAVE_RANGES.letters p (p / n)
       else if test_digit key then
         let p := parseInt_key key in
         note_at items OCTAVE_RANGES.numbers p (p / n)
       else
         let p := charCodeAt0 key in
         note_at items OCTAVE_RANGES.special p ((p mod 20) / 10)).
Proof.
  intros Hscale n.
  pose proof (registry_length _ _ Hscale) as Hn. fold n in Hn.
  unfold keyToNote. rewrite (registry_get _ _ Hscale). cbn [JS.length].
  fold n.
  assert (Hentry : forall p, 0 <= p ->
             JS.show (JS.index (JS.VArray items) (JS.Num (Z.rem p n)))
             = List.nth (Z.to_nat (p mod n)) items "").
  { intros p Hp. rewrite Z.rem_mod_nonneg by lia. cbn [JS.index].
    rewrite (nth_in_range items (p mod n) "")
      by (apply Z.mod_pos_bound; lia).
    reflexivity. }
  unfold note_at. fold n.
  destruct (test_letter key) eqn:Hletter;
    [| destruct (test_digit key) eqn:Hdigit].
  - assert (Hp : 0 <= toUpperCase_charCodeAt0 key - 65).
    { unfold test_letter in Hletter.
      rewrite orb_true_iff, !andb_true_iff, !N.leb_le in Hletter.
      unfold toUpperCase_charCodeAt0.
      destruct ((97 <=? key) && (key <=? 122))%N eqn:Hlower.
      - rewrite andb_true_iff, !N.leb_le in Hlower. lia.
      - rewrite andb_false_iff, !N.leb_gt in Hlower. lia. }
    rewrite rem_num, floor_div_num by lia. cbn [JS.add].
    rewrite clamp_min, Hentry by lia. reflexivity.
  - assert (Hp : 0 <= parseInt_key key).
    { unfold test_digit in Hdigit. unfold parseInt_key.
      apply andb_prop in Hdigit. destruct Hdigit as [Hlow _].
      apply N.leb_le in Hlow. lia. }
    rewrite rem_num, floor_div_num by lia. cbn [JS.add].
    rewrite clamp_min, Hentry by lia. reflexivity.
  - assert (Hp : 0 <= charCodeAt0 key) by (unfold charCodeAt0; lia).
    rewrite rem_num, floor_div_num by lia. cbn [JS.add].
    rewrite clamp_min, Hentry by lia.
    rewrite Z.rem_mod_nonneg by lia. reflexivity.
Qed.

(** C1. On a context whose current scale is a registry scale, [keyToNote]
    returns, for every one-unit key, the note the specification describes:
    the key is classified as letter, digit or other; the index is the
    alphabet position (A=0, either case), the digit value or the character
    code, modulo the scale length; the octave is the class minimum plus the
    floor of position over scale length (letters, digits) or of
    (code mod 20) over 10 (others), capped at the class maximum; the note is
    the scale entry at the index followed by the octave. *)
Theorem keyToNote_refines_spec :
  forall (c : Context) (items : list string) (key : N),
    In (currentScale c, items) SCALES ->
    keyToNote c key = Return (Spec.keyToNote items key).
Proof.
  intros c items key Hscale.
  rewrite (keyToNote_registry c items key Hscale). cbv zeta. f_equal.
  pose proof (classify_agrees_all key) as Hagree.
  unfold classify_agrees in Hagree.
  unfold Spec.keyToNote, Spec.index, Spec.octave, note_at.
  destruct (Spec.classify key) as [[| |] p]; cbn [snd Spec.bucket].
  - (* letter *)
    apply andb_prop in Hagree. destruct Hagree as [Hagree _].
    apply andb_prop in Hagree. destruct Hagree as [Hagree _].
    apply andb_prop in Hagree. destruct Hagree as [Htest Hp].
    apply Z.eqb_eq in Hp. rewrite Htest, <- Hp. reflexivity.
  - (* digit *)
    apply andb_prop in Hagree. destruct Hagree as [Hagree _].
    apply andb_prop in Hagree. destruct Hagree as [Hagree _].
    apply andb_prop in Hagree. destruct Hagree as [Hagree Hp].
    apply andb_prop in Hagree. destruct Hagree as [Hletter Hdigit].
    apply negb_true_iff in Hletter. apply Z.eqb_eq in Hp.
    rewrite Hletter, Hdigit, <- Hp. reflexivity.
  - (* other *)
    apply andb_prop in Hagree. destruct Hagree as [Hagree Hp].
    apply andb_prop in Hagree. destruct Hagree as [Hletter Hdigit].
    apply negb_true_iff in Hletter. apply negb_true_iff in Hdigit.
    apply Z.eqb_eq in Hp.
    rewrite Hletter, Hdigit, <- Hp. reflexivity.
Qed.

Lemma keyToNote_refines_spec_witness :
  keyToNote initial_context 122 = Return "C5" /\
  keyToNote initial_context 55 = Return "E3" /\
  keyToNote initial_context 33 = Return "G2".
Proof.
  split; [| split].
  - rewrite (keyToNote_refines_spec initial_context
               ["C"; "D"; "E"; "G"; "A"] 122); [reflexivity |].
    simpl. tauto.
  - rewrite (keyToNote_refines_spec initial_context
               ["C"; "D"; "E"; "G"; "A"] 55); [reflexivity |].
    simpl. tauto.
  - rewrite (keyToNote_refines_spec initial_context
               ["C"; "D"; "E"; "G"; "A"] 33); [reflexivity |].
    simpl. tauto.
Defined.

(** C2. For every scale of the registry and every letter key, upper or
    lower case, [keyToNote] returns an entry of the scale followed by one
    octave digit, and that octave, as [generateHarmony] reads it back from
    the note, lies between the letter minimum 3 and the letter maximum 5. *)
Theorem keyToNote_letter_octave :
  forall (c : Context) (name : string) (items : list string) (key : N),
    In (name, items) SCALES ->
    currentScale c = name ->
    In key (Spec.upper_alphabet ++ Spec.lower_alphabet) ->
    exists (label : string) (octave : Z),
      keyToNote c key = Return (label ++ Spec.decimal octave)%string /\
      In label items /\
      JS.init (label ++ Spec.decimal octave)%string = label /\
      JS.parseInt1 (JS.final (label ++ Spec.decimal octave)%string)
      = JS.Num octave /\
      min OCTAVE_RANGES.letters <= octave <= max OCTAVE_RANGES.letters.
Proof.
  intros c name items key Hscale Hname Hkey. subst name.
  pose proof (registry_length _ _ Hscale) as Hn.
  rewrite (keyToNote_registry c items key Hscale). cbv zeta.
  set (n := Z.of_nat (List.length items)) in *.
  assert (Hletter : test_letter key = true /\
                    0 <= toUpperCase_charCodeAt0 key - 65 <= 25).
  { revert Hkey.
    vm_compute Spec.upper_alphabet. vm_compute Spec.lower_alphabet.
    cbn [app In]. intros H.
    repeat (destruct H as [<- | H];
            [split; [reflexivity | vm_compute; split; discriminate] |]).
    destruct H. }
  destruct Hletter as [-> Hp].
  set (p := toUpperCase_charCodeAt0 key - 65) in *.
  unfold note_at. fold n.
  set (octave := Z.min (min OCTAVE_RANGES.letters + p / n)
                       (max OCTAVE_RANGES.letters)).
  assert (Hoct : min OCTAVE_RANGES.letters <= octave
                 <= max OCTAVE_RANGES.letters).
  { subst octave. cbn [min max OCTAVE_RANGES.letters].
    pose proof (Z.div_pos p n). lia. }
  exists (List.nth (Z.to_nat (p mod n)) items ""), octave.
  assert (Hdigit : 0 <= octave <= 9)
    by (cbn [min max OCTAVE_RANGES.letters] in Hoct; lia).
  destruct (note_parts (List.nth (Z.to_nat (p mod n)) items "") octave Hdigit)
    as (Hinit & Hparse & _).
  split; [reflexivity |].
  split; [| split; [exact Hinit | split; [exact Hparse | exact Hoct]]].
  apply nth_In. pose proof (Z.mod_pos_bound p n). lia.
Qed.

Lemma keyToNote_letter_octave_witness :
  exists (label : string) (octave : Z),
    keyToNote (set_currentScale "chromatic" initial_context) 122
    = Return (label ++ Spec.decimal octave)%string /\
    In label SCALES_chromatic /\
    octave <= 5.
Proof.
  destruct (keyToNote_letter_octave
              (set_currentScale "chromatic" initial_context) "chromatic"
              SCALES_chromatic 122)
    as (label & octave & Hnote & Hlabel & _ & _ & Hoct).
  - simpl. tauto.
  - reflexivity.
  - vm_compute. tauto.
  - exists label, octave. split; [exact Hnote | split; [exact Hlabel |]].
    exact (proj2 Hoct).
Defined.

(** ** Invariants of the musical context *)

Lemma wf_context_initial : wf_context initial_context.
Proof.
  split; [reflexivity |].
  exists ["C"; "G"; "Am"; "F"]. split; [reflexivity | simpl; lia].
Qed.

Lemma progressChordSequence_wf (w : World) :
  wf_context (context w) -> wf_context (context (exec progressChordSequence w)).
Proof.
  destruct w as [[sy rv dl] c [tr ck tk rn dr]].
  intros [Hscale (progression & Hp & Hi)]. run.
  assert (Hwf : wf_context c) by (split; [exact Hscale | eauto]).
  unfold progressChordSequence. run.
  destruct sy; run; [| exact Hwf].
  match goal with |- context [Qgtb ?x ?y] => destruct (Qgtb x y) end; run;
    [exact Hwf |].
  rewrite Hp. run.
  assert (Hmoved : wf_context
                     (set_progressionIndex
                        (Z.rem (progressionIndex c + 1)
                               (Z.of_nat (List.length progression))) c)).
  { split; [exact Hscale |]. exists progression. split; [exact Hp |].
    cbn [set_progressionIndex progressionIndex].
    rewrite Z.rem_mod_nonneg by lia. apply Z.mod_pos_bound. lia. }
  destruct (JS.nth progression (progressionIndex c)); run; exact Hmoved.
Qed.

Lemma generateHarmony_context (w : World) :
  context (exec generateHarmony w) = context w.
Proof.
  destruct (generateHarmony_frame w) as (rs & -> & _). reflexivity.
Qed.

Lemma playNote_tail_wf (w : World) :
  wf_context (context w) ->
  wf_context (context (exec (try_catch playNote_tail) w)).
Proof.
  intros Hwf. rewrite exec_try_catch. unfold playNote_tail.
  rewrite exec_bind. cbn [get_context fst].
  change (exec get_context w) with w.
  rewrite exec_bind.
  set (harmony := if 1 <? Z.of_nat (List.length (notesInQueue (context w)))
                  then _ else _).
  assert (Hsame : context (exec harmony w) = context w).
  { subst harmony.
    destruct (1 <? Z.of_nat (List.length (notesInQueue (context w))));
      [| reflexivity].
    rewrite exec_bind. cbn [Math_random fst].
    destruct (Qgtb _ 0.6); [| reflexivity].
    rewrite generateHarmony_context. reflexivity. }
  destruct (fst (harmony w)).
  - apply progressChordSequence_wf. rewrite Hsame. exact Hwf.
  - rewrite Hsame. exact Hwf.
Qed.

(** [playNote] keeps the context well formed. *)
Lemma playNote_wf (key : N) (duration velocity : Q) (w : World) :
  wf_context (context w) ->
  wf_context (context (exec (playNote key duration velocity) w)).
Proof.
  intros Hwf.
  destruct (synth (engine w)) as [s |] eqn:Hs.
  - destruct (keyToNote_returns (context w) key (proj1 Hwf)) as [n Hn].
    unfold exec at 1. rewrite (playNote_live _ _ _ _ _ _ Hs Hn).
    apply playNote_tail_wf. exact Hwf.
  - unfold exec. rewrite (playNote_cold _ _ _ _ Hs). exact Hwf.
Qed.

(** [updateMusicSettings] keeps the context well formed, draws being
    doubles of [0, 1). *)
Lemma updateMusicSettings_wf (settings : Settings) (w : World) :
  double_draws (host w) ->
  wf_context (context w) ->
  wf_context (context (exec (updateMusicSettings settings) w)).
Proof.
  destruct w as [[sy rv dl] c [tr ck tk rn dr]], settings as [sv ss sr sd].
  unfold double_draws. run. intros Hdraws Hwf.
  assert (Hnew : forall name p,
             JS.truthy (JS.get SCALES name) = true ->
             0 <= p < 5 ->
             wf_context
               (set_progressionIndex 0
                  (set_currentProgression p (set_currentScale name c)))).
  { intros name p Hname Hp. split; [exact Hname |].
    cbn [set_progressionIndex set_currentProgression set_currentScale
         currentProgression progressionIndex].
    assert (Hcases : p = 0 \/ p = 1 \/ p = 2 \/ p = 3 \/ p = 4) by lia.
    destruct Hcases as [-> | [-> | [-> | [-> | ->]]]];
      eexists; (split; [reflexivity | simpl; lia]). }
  assert (Hscale : forall name,
             JS.truthy (JS.get SCALES name) = true ->
             wf_context (set_currentScale name c)).
  { intros name Hname. split; [exact Hname | exact (proj2 Hwf)]. }
  pose proof (proj1 Hwf) as Hold.
  unfold updateMusicSettings. run.
  destruct sy, rv, dl; run; try exact Hwf.
  destruct sv, ss as [name |], sr, sd; run;
    try (destruct (JS.truthy (JS.get SCALES name)) eqn:Hname; run);
    match goal with |- context [Qgtb ?x ?y] => destruct (Qgtb x y) end; run;
    first
      [ exact Hwf
      | apply Hscale; exact Hname
      | apply Hnew;
        [exact Hname | apply floor_draw, double_draw_bound; apply Hdraws]
      | apply (Hnew (currentScale c));
        [exact Hold | apply floor_draw, double_draw_bound; apply Hdraws] ].
Qed.

Lemma clock_monotone (h : Host) (n m : nat) :
  monotone_clock h -> (n <= m)%nat -> (clock h n <= clock h m)%Q.
Proof.
  intros Hmono Hle. induction Hle as [| m Hle IH].
  - apply Qle_refl.
  - apply Qle_trans with (clock h m); [exact IH | apply Hmono].
Qed.

(** Under a clock that never runs backwards, [playNote] leaves no stamp
    from the future in the queue. *)
Lemma playNote_stamped (key : N) (duration velocity : Q) (w : World) :
  monotone_clock (host w) ->
  queue_stamped w ->
  queue_stamped (exec (playNote key duration velocity) w).
Proof.
  intros Hmono Hstamped.
  destruct (synth (engine w)) as [s |] eqn:Hs.
  - destruct (keyToNote (context w) key) as [n |] eqn:Hn.
    + destruct (playNote_live_extends key duration velocity w s n Hs Hn)
        as (rs & (_ & [i Hc] & _ & Hclock & _ & Hticks) & _).
      unfold queue_stamped. rewrite Hc, Hclock.
      unfold played in *.
      cbn [context host clock ticks set_progressionIndex set_notesInQueue
           set_lastNotesPlayed notesInQueue] in *.
      unfold pruned_queue. apply Forall_forall. intros e He.
      apply filter_In in He. destruct He as [Hin _].
      apply Qle_trans with (clock (host w) (ticks (host w))).
      * apply in_app_or in Hin. destruct Hin as [Hold | [<- | []]].
        -- unfold queue_stamped in Hstamped.
           rewrite Forall_forall in Hstamped. exact (Hstamped e Hold).
        -- apply Qle_refl.
      * apply clock_monotone; [exact Hmono | lia].
    + unfold exec. rewrite (playNote_throws _ _ _ _ _ Hs Hn). exact Hstamped.
  - unfold exec. rewrite (playNote_cold _ _ _ _ Hs). exact Hstamped.
Qed.

(** ** The chord branch inside [playNote] *)

Lemma add_requests_nil (w : World) : add_requests [] w = w.
Proof.
  destruct w as [e c [tr ck tk rn dr]]. unfold add_requests. run.
  now rewrite app_nil_r.
Qed.

(** On an array scale [generateHarmony] returns normally. *)
Lemma generateHarmony_returns (w : World) (items : list string) :
  JS.get SCALES (currentScale (context w)) = JS.VArray items ->
  exists rs, generateHarmony w = (Return tt, add_requests rs w).
Proof.
  intros Hscale.
  assert (Hnil : (Return tt, w) = (Return tt, add_requests [] w))
    by now rewrite add_requests_nil.
  destruct w as [[sy rv dl] c [tr ck tk rn dr]]. run.
  unfold generateHarmony. run.
  destruct sy; run; [| exists []; exact Hnil].
  destruct (Z.of_nat (List.length (notesInQueue c)) <? 2); run;
    [exists []; exact Hnil |].
  destruct (List.last (map Some (lastNotesPlayed c)) None) as [lastNote |];
    run; [| exists []; exact Hnil].
  destruct (lastNote =? "")%string; run; [exists []; exact Hnil |].
  rewrite Hscale.
  destruct (JS.indexOf items (JS.init lastNote) =? -1); run;
    [exists []; exact Hnil |].
  eexists. unfold add_requests. run. rewrite <- app_assoc. reflexivity.
Qed.

(** The harmony stage of [playNote_tail] on an array scale: it returns,
    with one draw made when two or more notes are queued. *)
Lemma harmony_stage_returns (w : World) (items : list string) :
  JS.get SCALES (currentScale (context w)) = JS.VArray items ->
  let k :=
    if 1 <? Z.of_nat (List.length (notesInQueue (context w)))
    then S (draws (host w)) else draws (host w) in
  exists rs,
    (if 1 <? Z.of_nat (List.length (notesInQueue (context w))) then
       r <- Math_random ;;
       if Qgtb r 0.6 then generateHarmony else ret tt
     else ret tt) w
    = (Return tt, add_requests rs (set_draws k w)).
Proof.
  intros Hscale k. subst k.
  destruct (1 <? Z.of_nat (List.length (notesInQueue (context w)))).
  - unfold bind. cbn [Math_random].
    set (w1 := {| engine := engine w; context := context w; host := _ |}).
    assert (Hw1 : w1 = set_draws (S (draws (host w))) w) by reflexivity.
    destruct (Qgtb (random (host w) (draws (host w))) 0.6).
    + destruct (generateHarmony_returns w1 items Hscale) as [rs Hrs].
      exists rs. rewrite Hrs, Hw1. reflexivity.
    + exists []. unfold ret. rewrite add_requests_nil, Hw1. reflexivity.
  - exists []. unfold ret. rewrite add_requests_nil.
    destruct w as [e c [tr ck tk rn dr]]. reflexivity.
Qed.

(** A note played on a live engine, on a registry scale, whose chord draw
    (the second draw of the call when two or more notes are queued, the
    first otherwise) is not above 0.2: the cursor advances by one position
    modulo the length of the active progression, and the chord the cursor
    was on is requested at velocity 0.1. *)
Lemma playNote_chord_branch (key : N) (duration velocity : Q) (w : World)
      (s : PolySynth) (items progression : list string) (n chord : string) :
  synth (engine w) = Some s ->
  In (currentScale (context w), items) SCALES ->
  keyToNote (context w) key = Return n ->
  JS.nth CHORD_PROGRESSIONS (currentProgression (context w))
  = Some progression ->
  JS.nth progression (progressionIndex (context w)) = Some chord ->
  let w1 := played w n duration velocity in
  let k :=
    if 1 <? Z.of_nat (List.length (notesInQueue (context w1)))
    then S (draws (host w)) else draws (host w) in
  (random (host w) k <= 0.2)%Q ->
  let w' := exec (playNote key duration velocity) w in
  progressionIndex (context w')
  = (progressionIndex (context w) + 1) mod Z.of_nat (List.length progression)
  /\ exists t,
      In (TriggerAttackReleaseChord (getChordNotes chord) 1.5 t 0.1)
         (issued (playNote key duration velocity) w).
Proof.
  intros Hs Hscale Hn Hp Hc w1 k Hdraw w'.
  pose proof (nth_some_range _ _ _ Hc) as Hi.
  assert (Hscale1 : JS.get SCALES (currentScale (context w1))
                    = JS.VArray items)
    by (apply registry_get; exact Hscale).
  destruct (harmony_stage_returns w1 items Hscale1) as [rs Hstage].
  set (w2 := add_requests rs (set_draws k w1)).
  assert (Htaken : progressChordSequence w2
                   = (Return tt, chord_played w2 progression chord)).
  { apply (progressChordSequence_taken w2 s);
      [exact Hs | exact Hdraw | exact Hp | exact Hc]. }
  assert (Hexec : w' = chord_played w2 progression chord).
  { subst w'. unfold exec. rewrite (playNote_live _ _ _ _ _ _ Hs Hn).
    fold w1. unfold try_catch, playNote_tail.
    unfold bind at 1. cbn [get_context]. unfold bind at 1.
    rewrite Hstage. cbv beta iota.
    change (progressChordSequence (add_requests rs _))
      with (progressChordSequence w2).
    rewrite Htaken. reflexivity. }
  split.
  - rewrite Hexec. unfold chord_played.
    cbn [context set_progressionIndex progressionIndex].
    apply Z.rem_mod_nonneg; lia.
  - exists (clock (host w2) (ticks (host w2))).
    unfold issued. fold w'. rewrite Hexec.
    unfold chord_played, w2, add_requests, set_draws, w1, played.
    cbn [host trace]. rewrite <- !app_assoc, skipn_own_length.
    apply in_or_app. right. apply in_or_app. right. left. reflexivity.
Qed.

(** A harmony timer that fires with the synth present requests its note. *)
Lemma run_callback_plays (cb : HarmonyCallback) (w : World) (s : PolySynth) :
  synth (engine w) = Some s ->
  issued (run_callback cb) w
  = [TriggerAttackRelease (harmony_note cb) (harmony_duration cb)
       (clock (host w) (ticks (host w))) (harmony_velocity cb)].
Proof.
  destruct w as [[sy rv dl] c [tr ck tk rn dr]]. run. intros ->.
  unfold issued, run_callback. run. apply skipn_own_length.
Qed.

(** ** Reachable worlds *)

(** A step that keeps the context and the oracles, and does not turn the
    tick counter back, keeps the invariant. *)
Lemma invariant_frame (w w' : World) :
  context w' = context w ->
  clock (host w') = clock (host w) ->
  random (host w') = random (host w) ->
  (ticks (host w) <= ticks (host w'))%nat ->
  invariant w -> invariant w'.
Proof.
  intros Hc Hk Hr Ht (Hwf & Hstamped & Hmono & Hdraws).
  unfold invariant, queue_stamped, monotone_clock, double_draws in *.
  rewrite Hc, Hk, Hr.
  split; [exact Hwf | split; [| split; assumption]].
  apply Forall_forall. intros e He.
  rewrite Forall_forall in Hstamped.
  apply Qle_trans with (clock (host w) (ticks (host w)));
    [exact (Hstamped e He) | exact (clock_monotone _ _ _ Hmono Ht)].
Qed.

Lemma playNote_oracles (key : N) (duration velocity : Q) (w : World) :
  clock (host (exec (playNote key duration velocity) w)) = clock (host w) /\
  random (host (exec (playNote key duration velocity) w)) = random (host w).
Proof.
  destruct (synth (engine w)) as [s |] eqn:Hs.
  - destruct (keyToNote (context w) key) as [n |] eqn:Hn.
    + destruct (playNote_live_extends key duration velocity w s n Hs Hn)
        as (rs & (_ & _ & _ & Hclock & Hrandom & _) & _).
      rewrite Hclock, Hrandom. split; reflexivity.
    + unfold exec. rewrite (playNote_throws _ _ _ _ _ Hs Hn).
      split; reflexivity.
  - unfold exec. rewrite (playNote_cold _ _ _ _ Hs). split; reflexivity.
Qed.

Lemma updateMusicSettings_host (settings : Settings) (w : World) :
  notesInQueue (context (exec (updateMusicSettings settings) w))
  = notesInQueue (context w) /\
  clock (host (exec (updateMusicSettings settings) w)) = clock (host w) /\
  random (host (exec (updateMusicSettings settings) w)) = random (host w) /\
  ticks (host (exec (updateMusicSettings settings) w)) = ticks (host w).
Proof.
  destruct w as [[sy rv dl] c [tr ck tk rn dr]], settings as [sv ss sr sd].
  unfold updateMusicSettings. run.
  destruct sy, rv, dl; run; try (repeat split; reflexivity).
  destruct sv, ss as [name |], sr, sd; run;
    try (destruct (JS.truthy (JS.get SCALES name)); run);
    match goal with |- context [Qgtb ?x ?y] => destruct (Qgtb x y) end; run;
    repeat split; reflexivity.
Qed.

(** Every step keeps the invariant. *)
Lemma step_invariant (w w' : World) :
  step w w' -> invariant w -> invariant w'.
Proof.
  intros Hstep Hinv.
  destruct Hstep as [volume w | volume started w | key duration velocity w
                     | cb w | settings w | w].
  - apply (invariant_frame w); try exact Hinv;
      destruct w as [[[sy |] rv dl] c [tr ck tk rn dr]];
      unfold initAudioEngine; run; reflexivity.
  - apply (invariant_frame w); try exact Hinv;
      destruct w as [e c [tr ck tk rn dr]];
      unfold initAudioEngine_resume; destruct started; run;
      try reflexivity; lia.
  - destruct Hinv as (Hwf & Hstamped & Hmono & Hdraws).
    destruct (playNote_oracles key duration velocity w) as [Hclock Hrandom].
    unfold invariant, monotone_clock, double_draws.
    rewrite Hclock, Hrandom.
    split; [apply playNote_wf; exact Hwf |].
    split; [apply playNote_stamped; assumption |].
    split; assumption.
  - apply (invariant_frame w); try exact Hinv;
      destruct w as [[[sy |] rv dl] c [tr ck tk rn dr]];
      unfold run_callback; run; try reflexivity; lia.
  - destruct Hinv as (Hwf & Hstamped & Hmono & Hdraws).
    destruct (updateMusicSettings_host settings w)
      as (Hqueue & Hclock & Hrandom & Hticks).
    unfold invariant, queue_stamped, monotone_clock, double_draws.
    rewrite Hqueue, Hclock, Hrandom, Hticks.
    split; [apply updateMusicSettings_wf; assumption |].
    split; [exact Hstamped |]. split; assumption.
  - apply (invariant_frame w); try exact Hinv;
      destruct w as [[[sy |] [rv |] [dl |]] c [tr ck tk rn dr]];
      unfold cleanupAudioEngine; run; reflexivity.
Qed.

(** The invariant holds of every world reached from a loaded one whose
    draws are doubles: the current scale always reads as a truthy value, the
    cursor always points at a chord of the active progression, and no queued
    note is stamped in the future. *)
Lemma reachable_invariant (w0 w : World) :
  loaded w0 -> double_draws (host w0) -> reachable w0 w -> invariant w.
Proof.
  intros (He & Hc & Hmono & _) Hdraws Hreach.
  induction Hreach as [| w w' _ IH Hstep].
  - unfold invariant, queue_stamped. rewrite Hc.
    split; [exact wf_context_initial | split; [constructor |]].
    split; assumption.
  - exact (step_invariant w w' Hstep IH).
Qed.

(** Whatever the draws, a step keeps the current scale or commits a name
    that reads as a truthy value. *)
Lemma step_scale (w w' : World) :
  step w w' ->
  JS.truthy (JS.get SCALES (currentScale (context w))) = true ->
  JS.truthy (JS.get SCALES (currentScale (context w'))) = true.
Proof.
  intros Hstep Htruthy.
  destruct Hstep as [volume w | volume started w | key duration velocity w
                     | cb w | settings w | w].
  - destruct w as [[[sy |] rv dl] c [tr ck tk rn dr]];
      unfold initAudioEngine; run; exact Htruthy.
  - destruct w as [e c [tr ck tk rn dr]];
      unfold initAudioEngine_resume; destruct started; run; exact Htruthy.
  - destruct (synth (engine w)) as [s |] eqn:Hs.
    + destruct (keyToNote (context w) key) as [n |] eqn:Hn.
      * destruct (playNote_live_extends key duration velocity w s n Hs Hn)
          as (rs & (_ & [i Hc] & _) & _).
        rewrite Hc. exact Htruthy.
      * unfold exec. rewrite (playNote_throws _ _ _ _ _ Hs Hn). exact Htruthy.
    + unfold exec. rewrite (playNote_cold _ _ _ _ Hs). exact Htruthy.
  - destruct w as [[[sy |] rv dl] c [tr ck tk rn dr]];
      unfold run_callback; run; exact Htruthy.
  - destruct (initialized (engine w)) eqn:Hinit.
    + rewrite (updateMusicSettings_scale settings w Hinit).
      destruct (settings_scale settings) as [name |]; [| exact Htruthy].
      destruct (JS.truthy (JS.get SCALES name)) eqn:Hname;
        [exact Hname | exact Htruthy].
    + destruct w as [[sy rv dl] c [tr ck tk rn dr]].
      unfold initialized in Hinit. unfold updateMusicSettings. run.
      destruct sy, rv, dl; try discriminate Hinit; run; exact Htruthy.
  - destruct w as [[[sy |] [rv |] [dl |]] c [tr ck tk rn dr]];
      unfold cleanupAudioEngine; run; exact Htruthy.
Qed.

(** In every world reached from a loaded one the current scale reads as a
    truthy value. *)
Lemma reachable_scale (w0 w : World) :
  loaded w0 -> reachable w0 w ->
  JS.truthy (JS.get SCALES (currentScale (context w))) = true.
Proof.
  intros (_ & Hc & _) Hreach.
  induction Hreach as [| w w' _ IH Hstep].
  - rewrite Hc. reflexivity.
  - exact (step_scale w w' Hstep IH).
Qed.

(** The studio is the module as loaded, and its draws are doubles. *)
Lemma studio_loaded : loaded studio.
Proof.
  split; [reflexivity | split; [reflexivity | split]].
  - intros n. unfold studio, studio_host. cbn [host clock].
    do 19 (destruct n as [| n]; [Qdecide |]).
    cbn [nth_error studio_blocks]. rewrite nth_error_nil.
    rewrite <- Zle_Qle. lia.
  - intros n. unfold studio, studio_host. cbn [host random].
    do 7 (destruct n as [| n]; [split; Qdecide |]).
    destruct n; split; Qdecide.
Qed.

Lemma studio_double_draws : double_draws studio_host.
Proof.
  intros n. unfold studio_host, is_double. cbn [random].
  do 7 (destruct n as [| n];
        [split; [vm_compute; reflexivity | split; Qdecide] |]).
  destruct n; (split; [vm_compute; reflexivity | split; Qdecide]).
Qed.

(** Presses keep the oracles of the host. *)
Lemma play_all_oracles (presses : list Press) (w : World) :
  clock (host (exec (play_all presses) w)) = clock (host w) /\
  random (host (exec (play_all presses) w)) = random (host w).
Proof.
  revert w. induction presses as [| [[key duration] velocity] rest IH];
    intros w; [split; reflexivity |].
  cbn [play_all]. rewrite exec_bind.
  destruct (playNote_oracles key duration velocity w) as [Hclock Hrandom].
  destruct (fst (playNote key duration velocity w)).
  - destruct (IH (exec (playNote key duration velocity) w)) as [Hc Hr].
    rewrite Hc, Hr. split; assumption.
  - split; assumption.
Qed.

Lemma session_oracles (presses : list Press) :
  clock (host (session presses)) = clock studio_host /\
  random (host (session presses)) = random studio_host.
Proof.
  unfold session.
  set (started := exec (playNote 65 0.5 0.7 ;;;
                        initAudioEngine_resume 0.5 true) studio).
  assert (Hrun : exec (playNote 65 0.5 0.7 ;;;
                       initAudioEngine_resume 0.5 true ;;;
                       play_all presses) studio
                 = exec (play_all presses) started) by reflexivity.
  rewrite Hrun. destruct (play_all_oracles presses started) as [-> ->].
  split; reflexivity.
Qed.

Lemma session_double_draws (presses : list Press) :
  double_draws (host (session presses)).
Proof.
  unfold double_draws. rewrite (proj2 (session_oracles presses)).
  exact studio_double_draws.
Qed.

(** In a well-formed context the cursor is on a chord. *)
Lemma wf_context_chord (c : Context) :
  wf_context c ->
  exists progression chord,
    JS.nth CHORD_PROGRESSIONS (currentProgression c) = Some progression /\
    JS.nth progression (progressionIndex c) = Some chord.
Proof.
  intros [_ (progression & Hp & Hi)].
  exists progression, (List.nth (Z.to_nat (progressionIndex c)) progression "").
  split; [exact Hp | apply nth_in_range; exact Hi].
Qed.

(** * Further properties of the module *)

(** ** Keys and notes *)

Lemma test_letter_range (key : N) :
  test_letter key = true <->
  ((65 <= key <= 90)%N \/ (97 <= key <= 122)%N).
Proof.
  unfold test_letter.
  rewrite orb_true_iff, !andb_true_iff, !N.leb_le. tauto.
Qed.

Lemma toUpperCase_lower (key : N) :
  (97 <= key <= 122)%N -> toUpperCase_charCodeAt0 key = Z.of_N key - 32.
Proof.
  intros Hkey. unfold toUpperCase_charCodeAt0.
  destruct ((97 <=? key) && (key <=? 122))%N eqn:Hlower; [reflexivity |].
  rewrite andb_false_iff, !N.leb_gt in Hlower. lia.
Qed.

Lemma toUpperCase_upper (key : N) :
  (key < 97)%N -> toUpperCase_charCodeAt0 key = Z.of_N key.
Proof.
  intros Hkey. unfold toUpperCase_charCodeAt0.
  destruct ((97 <=? key) && (key <=? 122))%N eqn:Hlower; [| reflexivity].
  rewrite andb_true_iff, !N.leb_le in Hlower. lia.
Qed.

(** X2. A lower-case letter maps to the note of its upper-case letter,
    whatever the current scale reads as. *)
Theorem keyToNote_case_insensitive :
  forall (c : Context) (key : N),
    (65 <= key <= 90)%N ->
    keyToNote c (key + 32) = keyToNote c key.
Proof.
  intros c key Hkey.
  assert (Hupper : test_letter key = true)
    by (apply test_letter_range; lia).
  assert (Hlower : test_letter (key + 32) = true)
    by (apply test_letter_range; lia).
  assert (Hcode : toUpperCase_charCodeAt0 (key + 32)
                  = toUpperCase_charCodeAt0 key).
  { rewrite toUpperCase_lower, toUpperCase_upper by lia. lia. }
  unfold keyToNote. rewrite Hupper, Hlower, Hcode. reflexivity.
Qed.

Lemma keyToNote_case_insensitive_witness :
  keyToNote initial_context 103 = keyToNote initial_context 71.
Proof.
  apply (keyToNote_case_insensitive initial_context 71). lia.
Defined.

(** X3. [keyToNote] throws exactly when the current scale reads as
    [undefined] on [SCALES], and in no world reached from the loaded module
    does it throw: every key gets a note. *)
Theorem keyToNote_never_throws :
  (forall (c : Context) (key : N),
      keyToNote c key = Throw <->
      JS.get SCALES (currentScale c) = JS.VUndefined) /\
  (forall (w0 w : World) (key : N),
      loaded w0 -> reachable w0 w ->
      exists n, keyToNote (context w) key = Return n).
Proof.
  split.
  - intros c key. unfold keyToNote.
    destruct (JS.get SCALES (currentScale c)); cbn [JS.length];
      destruct (test_letter key), (test_digit key);
      split; intros H; try discriminate H; reflexivity.
  - intros w0 w key Hloaded Hreach.
    exact (keyToNote_returns (context w) key
                             (reachable_scale w0 w Hloaded Hreach)).
Qed.

Lemma keyToNote_never_throws_witness :
  exists n,
    keyToNote (context (exec (playNote 65 0.5 0.7) cold_world)) 33
    = Return n.
Proof.
  apply (proj2 keyToNote_never_throws cold_world).
  - exact cold_world_loaded.
  - apply reachable_step with cold_world;
      [apply reachable_here | apply step_playNote].
Defined.

(** On a registry scale every note is the entry at the key's position
    modulo the scale length, followed by an octave inside the range of the
    key's class and, for digits and other characters, below its maximum. *)
Lemma keyToNote_parts (c : Context) (items : list string) (key : N) :
  In (currentScale c, items) SCALES ->
  let n := Z.of_nat (List.length items) in
  0 <= key_position key /\
  exists o,
    keyToNote c key
    = Return (List.nth (Z.to_nat (key_position key mod n)) items ""
              ++ Spec.decimal o)%string /\
    min (key_range key) <= o <= max (key_range key) /\
    (test_letter key = false -> o < max (key_range key)).
Proof.
  intros Hscale n.
  pose proof (registry_length _ _ Hscale) as Hn. fold n in Hn.
  rewrite (keyToNote_registry c items key Hscale). cbv zeta. fold n.
  unfold key_position, key_range, note_at. fold n.
  destruct (test_letter key) eqn:Hletter;
    [| destruct (test_digit key) eqn:Hdigit].
  - apply test_letter_range in Hletter.
    assert (Hp : 0 <= toUpperCase_charCodeAt0 key - 65).
    { destruct Hletter as [Hup | Hlow].
      - rewrite toUpperCase_upper by lia. lia.
      - rewrite toUpperCase_lower by lia. lia. }
    split; [exact Hp |]. eexists. split; [reflexivity |].
    cbn [min max OCTAVE_RANGES.letters].
    pose proof (Z.div_pos (toUpperCase_charCodeAt0 key - 65) n).
    split; [lia | discriminate].
  - unfold test_digit in Hdigit.
    rewrite andb_true_iff, !N.leb_le in Hdigit.
    assert (Hp : 0 <= parseInt_key key <= 9) by (unfold parseInt_key; lia).
    split; [lia |]. eexists. split; [reflexivity |].
    cbn [min max OCTAVE_RANGES.numbers].
    pose proof (Z.div_pos (parseInt_key key) n).
    assert (parseInt_key key / n < 2)
      by (apply Z.div_lt_upper_bound; lia).
    split; [lia | intros _; lia].
  - assert (Hp : 0 <= charCodeAt0 key) by (unfold charCodeAt0; lia).
    split; [exact Hp |]. eexists. split; [reflexivity |].
    cbn [min max OCTAVE_RANGES.special].
    pose proof (Z.mod_pos_bound (charCodeAt0 key) 20).
    pose proof (Z.div_pos (charCodeAt0 key mod 20) 10).
    assert (charCodeAt0 key mod 20 / 10 < 2)
      by (apply Z.div_lt_upper_bound; lia).
    split; [lia | intros _; lia].
Qed.

(** X4. On a registry scale a digit key plays at octave 2 or 3 and any other
    non-letter key at octave 1 or 2: for these two classes the cap at the
    class maximum (4 and 3) is never reached. *)
Theorem keyToNote_cap_unreached :
  forall (c : Context) (items : list string) (key : N),
    In (currentScale c, items) SCALES ->
    test_letter key = false ->
    exists (label : string) (o : Z),
      keyToNote c key = Return (label ++ Spec.decimal o)%string /\
      In label items /\
      (if test_digit key then 2 <= o <= 3 else 1 <= o <= 2) /\
      o < max (key_range key).
Proof.
  intros c items key Hscale Hletter.
  pose proof (registry_length _ _ Hscale) as Hn.
  destruct (keyToNote_parts c items key Hscale)
    as (Hp & o & Hnote & Hrange & Hbelow).
  specialize (Hbelow Hletter).
  exists (List.nth (Z.to_nat
                      (key_position key mod Z.of_nat (List.length items)))
                   items ""), o.
  split; [exact Hnote |]. split.
  - apply nth_In.
    pose proof (Z.mod_pos_bound (key_position key)
                                (Z.of_nat (List.length items))).
    lia.
  - unfold key_range in *. rewrite Hletter in *.
    destruct (test_digit key);
      cbn [min max OCTAVE_RANGES.numbers OCTAVE_RANGES.special] in *;
      split; lia.
Qed.

Lemma keyToNote_cap_unreached_witness :
  exists (label : string) (o : Z),
    keyToNote initial_context 57 = Return (label ++ Spec.decimal o)%string /\
    o < 4.
Proof.
  destruct (keyToNote_cap_unreached
              initial_context ["C"; "D"; "E"; "G"; "A"] 57)
    as (label & o & Hnote & _ & _ & Hcap).
  - simpl. tauto.
  - reflexivity.
  - exists label, o. split; [exact Hnote | exact Hcap].
Defined.

Lemma indexOf_from_nth (items : list string) (d : string) :
  NoDup items ->
  forall (k : Z) (i : nat),
    (i < List.length items)%nat ->
    JS.indexOf_from items (List.nth i items d) k = k + Z.of_nat i.
Proof.
  induction 1 as [| y rest Hy _ IH]; intros k i Hi.
  - simpl in Hi. lia.
  - destruct i as [| i]; cbn [List.nth JS.indexOf_from].
    + rewrite String.eqb_refl. lia.
    + simpl in Hi.
      destruct (String.eqb_spec y (List.nth i rest d)) as [Heq | _].
      * exfalso. apply Hy. rewrite Heq. apply nth_In. lia.
      * rewrite IH by lia. lia.
Qed.

Lemma registry_NoDup (name : string) (items : list string) :
  In (name, items) SCALES -> NoDup items.
Proof.
  unfold SCALES, SCALES_chromatic. cbn [In]. intros H.
  repeat (destruct H as [H | H];
          [inversion H; subst;
           repeat (constructor;
                   [cbn [In]; intros Hin;
                    repeat (destruct Hin as [Hin | Hin];
                            [discriminate Hin |]);
                    exact Hin |]);
           constructor |]).
  destruct H.
Qed.

(** X5. A note of [keyToNote] on a registry scale survives the way
    [generateHarmony] takes it apart: all but its last character is the
    scale entry, found again by [indexOf] at the very index the key was
    mapped to, its last character parses as the octave, between 1 and 5, and
    entry and octave put together give the note back. *)
Theorem note_round_trip :
  forall (c : Context) (items : list string) (key : N) (n : string),
    In (currentScale c, items) SCALES ->
    keyToNote c key = Return n ->
    let i := JS.indexOf items (JS.init n) in
    i = key_position key mod Z.of_nat (List.length items) /\
    JS.nth items i = Some (JS.init n) /\
    exists o,
      JS.parseInt1 (JS.final n) = JS.Num o /\
      1 <= o <= 5 /\
      n = (JS.init n ++ Spec.decimal o)%string.
Proof.
  intros c items key n Hscale Hn.
  pose proof (registry_length _ _ Hscale) as Hlen.
  destruct (keyToNote_parts c items key Hscale)
    as (Hp & o & Hnote & Hrange & _).
  rewrite Hnote in Hn. injection Hn as <-.
  set (j := key_position key mod Z.of_nat (List.length items)) in *.
  assert (Hj : 0 <= j < Z.of_nat (List.length items))
    by (apply Z.mod_pos_bound; lia).
  assert (Ho : 1 <= o <= 5).
  { unfold key_range in Hrange.
    destruct (test_letter key), (test_digit key);
      cbn [min max OCTAVE_RANGES.letters OCTAVE_RANGES.numbers
           OCTAVE_RANGES.special] in Hrange; lia. }
  assert (Hdigit : 0 <= o <= 9) by lia.
  destruct (note_parts (List.nth (Z.to_nat j) items "") o Hdigit)
    as (Hinit & Hparse & _).
  cbv zeta. rewrite Hinit.
  assert (Hindex : JS.indexOf items (List.nth (Z.to_nat j) items "") = j).
  { unfold JS.indexOf.
    rewrite (indexOf_from_nth items "" (registry_NoDup _ _ Hscale))
      by lia.
    lia. }
  rewrite Hindex. split; [reflexivity |].
  split; [apply nth_in_range; exact Hj |].
  exists o. split; [exact Hparse | split; [exact Ho | reflexivity]].
Qed.

Lemma note_round_trip_witness :
  JS.indexOf ["C"; "D"; "E"; "G"; "A"] (JS.init "G3") = 3 /\
  JS.nth ["C"; "D"; "E"; "G"; "A"] 3 = Some "G".
Proof.
  destruct (note_round_trip initial_context ["C"; "D"; "E"; "G"; "A"]
                            68 "G3")
    as (Hindex & Hnth & _).
  - simpl. tauto.
  - reflexivity.
  - split; [rewrite Hindex; reflexivity |].
    rewrite Hindex in Hnth. exact Hnth.
Defined.

(** ** Harmony inside [playNote] *)

(** [generateHarmony] on an array scale that holds the pitch class of the
    last note: the world it leaves. *)
Lemma generateHarmony_array (w : World) (s : PolySynth)
      (items history : list string) (lastNote : string) :
  synth (engine w) = Some s ->
  1 < Z.of_nat (List.length (notesInQueue (context w))) ->
  JS.get SCALES (currentScale (context w)) = JS.VArray items ->
  lastNotesPlayed (context w) = history ++ [lastNote] ->
  (lastNote =? "")%string = false ->
  JS.indexOf items (JS.init lastNote) <> -1 ->
  generateHarmony w
  = (Return tt,
     add_requests
       (harmony_timers items (JS.indexOf items (JS.init lastNote))
                       (JS.parseInt1 (JS.final lastNote))) w).
Proof.
  destruct w as [[sy rv dl] c [tr ck tk rn dr]]. run.
  intros -> Hqueue Hscale Hlast Hnonempty Hfound.
  unfold generateHarmony, add_requests, harmony_timers. run.
  destruct (Z.ltb_spec (Z.of_nat (List.length (notesInQueue c))) 2);
    [lia |].
  rewrite Hlast, map_app. cbn [map]. rewrite last_last.
  rewrite Hnonempty, Hscale.
  destruct (Z.eqb_spec (JS.indexOf items (JS.init lastNote)) (-1));
    [contradiction |].
  run. rewrite <- app_assoc. reflexivity.
Qed.

Lemma slice_last_snoc {A : Type} (k : nat) (l : list A) (x : A) :
  (0 < k)%nat ->
  JS.slice_last k (l ++ [x]) = JS.slice_last (k - 1) l ++ [x].
Proof.
  intros Hk. unfold JS.slice_last. rewrite length_app. cbn [List.length].
  rewrite skipn_app.
  replace (List.length l + 1 - k)%nat with (List.length l - (k - 1))%nat
    by lia.
  replace (List.length l - (k - 1) - List.length l)%nat with 0%nat by lia.
  reflexivity.
Qed.

(** The chord stage adds nothing or one chord request at velocity 0.1. *)
Lemma progressChordSequence_requests (w : World) :
  exists cs,
    extends w (exec progressChordSequence w) cs /\
    (cs = [] \/
     exists notes t, cs = [TriggerAttackReleaseChord notes 1.5 t 0.1]).
Proof.
  destruct w as [[sy rv dl] c [tr ck tk rn dr]].
  assert (Hsame : forall tk' dr',
             (tk <= tk')%nat ->
             extends
               {| engine := {| synth := sy; reverb := rv; delay := dl |};
                  context := c;
                  host := {| trace := tr; clock := ck; ticks := tk;
                             random := rn; draws := dr |} |}
               {| engine := {| synth := sy; reverb := rv; delay := dl |};
                  context := c;
                  host := {| trace := tr; clock := ck; ticks := tk';
                             random := rn; draws := dr' |} |} []).
  { intros tk' dr' Htk. unfold extends. run. rewrite app_nil_r.
    repeat split; try reflexivity; try lia.
    exists (progressionIndex c). apply set_progressionIndex_same. }
  unfold progressChordSequence. run.
  destruct sy; run;
    [| exists []; split; [apply Hsame; lia | left; reflexivity]].
  match goal with |- context [Qgtb ?x ?y] => destruct (Qgtb x y) end; run;
    [exists []; split; [apply Hsame; lia | left; reflexivity] |].
  destruct (JS.nth CHORD_PROGRESSIONS (currentProgression c))
    as [progression |]; run;
    [| exists []; split; [apply Hsame; lia | left; reflexivity]].
  destruct (JS.nth progression (progressionIndex c)) as [chord |]; run.
  - eexists. split; [| right; eexists; eexists; reflexivity].
    unfold extends. run.
    repeat split; try reflexivity; try lia. eexists. reflexivity.
  - exists []. split; [| left; reflexivity]. unfold extends. run.
    rewrite app_nil_r. repeat split; try reflexivity; try lia.
    eexists. reflexivity.
Qed.

(** On a registry scale the note of a key is not empty and its pitch class
    is found in the scale. *)
Lemma played_note_found (c : Context) (items : list string) (key : N)
      (n : string) :
  In (currentScale c, items) SCALES ->
  keyToNote c key = Return n ->
  JS.indexOf items (JS.init n) <> -1 /\ (n =? "")%string = false.
Proof.
  intros Hscale Hn.
  pose proof (registry_length _ _ Hscale) as Hlen.
  destruct (keyToNote_parts c items key Hscale)
    as (Hp & o & Hnote & Hrange & _).
  rewrite Hnote in Hn. injection Hn as <-.
  assert (Ho : 0 <= o <= 9).
  { unfold key_range in Hrange.
    destruct (test_letter key), (test_digit key);
      cbn [min max OCTAVE_RANGES.letters OCTAVE_RANGES.numbers
           OCTAVE_RANGES.special] in Hrange; lia. }
  set (label := List.nth _ items "") in *.
  destruct (note_parts label o Ho) as (Hinit & _ & Hnonempty).
  split; [| exact Hnonempty]. rewrite Hinit.
  assert (Hin : In label items).
  { apply nth_In.
    pose proof (Z.mod_pos_bound (key_position key)
                                (Z.of_nat (List.length items))).
    lia. }
  pose proof (indexOf_present items label Hin). lia.
Qed.

(** The requests of a note played on a live engine, on a registry scale:
    the note, then the two harmony timers of that note when two or more
    notes are queued and the draw is above 0.6, then at most one chord. *)
Lemma playNote_live_issued (key : N) (duration velocity : Q) (w : World)
      (s : PolySynth) (items : list string) (n : string) :
  synth (engine w) = Some s ->
  In (currentScale (context w), items) SCALES ->
  keyToNote (context w) key = Return n ->
  let w1 := played w n duration velocity in
  let fires :=
    (1 <? Z.of_nat (List.length (notesInQueue (context w1))))
    && Qgtb (random (host w) (draws (host w))) 0.6 in
  exists cs,
    issued (playNote key duration velocity) w
    = TriggerAttackRelease n duration
        (clock (host w) (S (S (ticks (host w))))) velocity
      :: (if fires
          then harmony_timers items (JS.indexOf items (JS.init n))
                              (JS.parseInt1 (JS.final n))
          else [])
      ++ cs /\
    (cs = [] \/
     exists notes t, cs = [TriggerAttackReleaseChord notes 1.5 t 0.1]).
Proof.
  intros Hs Hscale Hn w1 fires.
  pose proof (registry_get _ _ Hscale) as Hget.
  destruct (played_note_found (context w) items key n Hscale Hn)
    as [Hfound Hnonempty].
  assert (Hlast : lastNotesPlayed (context w1)
                  = JS.slice_last 7 (lastNotesPlayed (context w)) ++ [n]).
  { unfold w1, played. cbn [context set_notesInQueue set_lastNotesPlayed
                            lastNotesPlayed].
    apply (slice_last_snoc 8). lia. }
  set (hs := if fires
             then harmony_timers items (JS.indexOf items (JS.init n))
                                 (JS.parseInt1 (JS.final n))
             else []).
  set (k := if 1 <? Z.of_nat (List.length (notesInQueue (context w1)))
            then S (draws (host w1)) else draws (host w1)).
  assert (Hstage :
            (if 1 <? Z.of_nat (List.length (notesInQueue (context w1))) then
               r <- Math_random ;;
               if Qgtb r 0.6 then generateHarmony else ret tt
             else ret tt) w1
            = (Return tt, add_requests hs (set_draws k w1))).
  { subst hs k fires.
    destruct (Z.ltb_spec 1 (Z.of_nat (List.length (notesInQueue (context w1)))))
      as [Hlen | Hlen]; cbn [andb].
    - unfold bind. cbn [Math_random].
      change (random (host w1) (draws (host w1)))
        with (random (host w) (draws (host w))).
      destruct (Qgtb (random (host w) (draws (host w))) 0.6).
      + rewrite (generateHarmony_array
                   _ s items (JS.slice_last 7 (lastNotesPlayed (context w)))
                   n);
          [reflexivity | exact Hs | exact Hlen | exact Hget | exact Hlast
           | exact Hnonempty | exact Hfound].
      + unfold ret. rewrite add_requests_nil. reflexivity.
    - unfold ret. rewrite add_requests_nil.
      destruct w1 as [e1 c1 [tr1 ck1 tk1 rn1 dr1]]. reflexivity. }
  set (w2 := add_requests hs (set_draws k w1)) in *.
  destruct (progressChordSequence_requests w2) as (cs & Hext & Hcs).
  exists cs. split; [| exact Hcs].
  assert (Hexec : exec (playNote key duration velocity) w
                  = exec progressChordSequence w2).
  { unfold exec at 1. rewrite (playNote_live _ _ _ _ _ _ Hs Hn).
    fold w1. unfold try_catch, playNote_tail.
    unfold bind at 1. cbn [get_context]. unfold bind at 1.
    rewrite Hstage. cbv beta iota. unfold exec.
    destruct (progressChordSequence w2) as [[[] |] w3]; reflexivity. }
  unfold issued. rewrite Hexec.
  destruct Hext as (_ & _ & Htrace & _). rewrite Htrace.
  unfold w2, add_requests, set_draws, w1, played. cbn [host trace].
  rewrite <- !app_assoc. apply skipn_own_length.
Qed.

Lemma note_index (c : Context) (items : list string) (key : N) (n : string) :
  In (currentScale c, items) SCALES ->
  keyToNote c key = Return n ->
  JS.indexOf items (JS.init n)
  = key_position key mod Z.of_nat (List.length items) /\
  exists o, 1 <= o <= 5 /\ JS.parseInt1 (JS.final n) = JS.Num o.
Proof.
  intros Hscale Hn.
  pose proof (registry_length _ _ Hscale) as Hlen.
  destruct (keyToNote_parts c items key Hscale)
    as (Hp & o & Hnote & Hrange & _).
  rewrite Hnote in Hn. injection Hn as <-.
  assert (Ho : 1 <= o <= 5).
  { unfold key_range in Hrange.
    destruct (test_letter key), (test_digit key);
      cbn [min max OCTAVE_RANGES.letters OCTAVE_RANGES.numbers
           OCTAVE_RANGES.special] in Hrange; lia. }
  set (j := key_position key mod Z.of_nat (List.length items)) in *.
  assert (Hj : 0 <= j < Z.of_nat (List.length items))
    by (apply Z.mod_pos_bound; lia).
  destruct (note_parts (List.nth (Z.to_nat j) items "") o)
    as (Hinit & Hparse & _); [lia |].
  rewrite Hinit. split; [| exists o; split; [exact Ho | exact Hparse]].
  unfold JS.indexOf.
  rewrite (indexOf_from_nth items "" (registry_NoDup _ _ Hscale)) by lia.
  lia.
Qed.

Lemma harmony_timers_are_timers (items : list string) (i : Z)
      (o : JS.number) :
  filter is_timer (harmony_timers items i o) = harmony_timers items i o.
Proof. reflexivity. Qed.

(** X6. A note played on a live engine, on a registry scale, is followed by
    harmony exactly when the queue it leaves holds two or more notes and the
    draw is above 0.6; the timers registered are then the two of the note
    just played: the entries 2 and 4 scale steps above the index the key was
    mapped to, at the octave just played or one above. *)
Theorem playNote_harmony_exact :
  forall (key : N) (duration velocity : Q) (w : World) (s : PolySynth)
         (items : list string) (n : string),
    synth (engine w) = Some s ->
    In (currentScale (context w), items) SCALES ->
    keyToNote (context w) key = Return n ->
    let w1 := played w n duration velocity in
    let fires :=
      (1 <? Z.of_nat (List.length (notesInQueue (context w1))))
      && Qgtb (random (host w) (draws (host w))) 0.6 in
    let i := key_position key mod Z.of_nat (List.length items) in
    exists o,
      1 <= o <= 5 /\
      JS.parseInt1 (JS.final n) = JS.Num o /\
      filter is_timer (issued (playNote key duration velocity) w)
      = if fires then harmony_timers items i (JS.Num o) else [].
Proof.
  intros key duration velocity w s items n Hs Hscale Hn w1 fires i.
  destruct (note_index (context w) items key n Hscale Hn)
    as (Hindex & o & Ho & Hparse).
  exists o. split; [exact Ho | split; [exact Hparse |]].
  destruct (playNote_live_issued key duration velocity w s items n
                                 Hs Hscale Hn)
    as (cs & Hissued & Hcs).
  fold w1 in Hissued. fold fires in Hissued.
  rewrite Hissued, Hindex, Hparse. fold i.
  cbn [filter is_timer]. rewrite filter_app.
  assert (Hnone : filter is_timer cs = []).
  { destruct Hcs as [-> | (notes & t & ->)]; reflexivity. }
  rewrite Hnone, app_nil_r.
  destruct fires; [apply harmony_timers_are_timers | reflexivity].
Qed.

(** Two presses of the recorded session. The fourth leaves [D4] and [A4]
    queued and draws 0.9: the timers of [A4], index 4 of the pentatonic
    scale, are registered, both wrapped to octave 5. The second finds [C3]
    queued, of an exact age below 2 that the double subtraction rounds to 2:
    [C3] is pruned, one note is left, and no timer is registered although
    the draw next in line is 0.9. *)
Lemma playNote_harmony_exact_witness :
  let w1 := session [(65%N, 0.5%Q, 0.7%Q)] in
  let w3 := session [(65%N, 0.5%Q, 0.7%Q); (68%N, 0.5%Q, 0.7%Q);
                     (71%N, 0.5%Q, 0.7%Q)] in
  filter is_timer (issued (playNote 74 0.5 0.7) w3)
  = [ SetTimeout {| harmony_note := "D5"; harmony_duration := 0.4;
                    harmony_velocity := 0.4 |} 50;
      SetTimeout {| harmony_note := "G5"; harmony_duration := 0.3;
                    harmony_velocity := 0.3 |} 100 ] /\
  (map note (notesInQueue (context w1)) = ["C3"] /\
   (clock studio_host 5 - clock studio_host 1 < 2)%Q /\
   Qgtb (random (host w1) (draws (host w1))) 0.6 = true /\
   filter is_timer (issued (playNote 68 0.5 0.7) w1) = []).
Proof.
  intros w1 w3.
  destruct (playNote_harmony_exact
              74 0.5 0.7 w3 {| volume := gainToDb 0.5 |}
              ["C"; "D"; "E"; "G"; "A"] "A4")
    as (o3 & _ & Hparse3 & Htimers3);
    [reflexivity | vm_compute; tauto | reflexivity |].
  destruct (playNote_harmony_exact
              68 0.5 0.7 w1 {| volume := gainToDb 0.5 |}
              ["C"; "D"; "E"; "G"; "A"] "G3")
    as (o1 & _ & _ & Htimers1);
    [reflexivity | vm_compute; tauto | reflexivity |].
  assert (Ho3 : o3 = 4) by (vm_compute in Hparse3; congruence).
  subst o3.
  split; [rewrite Htimers3; vm_compute; reflexivity |].
  split; [vm_compute; reflexivity |].
  split; [apply Qltb_true; vm_compute; reflexivity |].
  split; [vm_compute; reflexivity |].
  rewrite Htimers1. vm_compute. reflexivity.
Defined.

(** X7. A note played on a live engine, on a registry scale, is requested
    exactly once, first, with the duration and velocity given; whatever else
    the call requests is the pair of harmony timers, at 50 and 100 ms, and
    then at most one background chord at velocity 0.1. *)
Theorem playNote_requests_shape :
  forall (key : N) (duration velocity : Q) (w : World) (s : PolySynth)
         (items : list string) (n : string),
    synth (engine w) = Some s ->
    In (currentScale (context w), items) SCALES ->
    keyToNote (context w) key = Return n ->
    exists t hs cs,
      issued (playNote key duration velocity) w
      = TriggerAttackRelease n duration t velocity :: hs ++ cs /\
      (hs = [] \/
       exists cb3 cb5, hs = [SetTimeout cb3 50; SetTimeout cb5 100]) /\
      (cs = [] \/
       exists notes t', cs = [TriggerAttackReleaseChord notes 1.5 t' 0.1]).
Proof.
  intros key duration velocity w s items n Hs Hscale Hn.
  destruct (playNote_live_issued key duration velocity w s items n
                                 Hs Hscale Hn)
    as (cs & Hissued & Hcs).
  eexists. eexists. exists cs.
  split; [exact Hissued | split; [| exact Hcs]].
  match goal with |- (if ?b then _ else _) = _ \/ _ => destruct b end;
    [right; eexists; eexists; reflexivity | left; reflexivity].
Qed.

Lemma playNote_requests_shape_witness :
  exists t hs cs,
    issued (playNote 65 0.3 0.5) ready_world
    = TriggerAttackRelease "C3" 0.3 t 0.5 :: hs ++ cs.
Proof.
  destruct (playNote_requests_shape
              65 0.3 0.5 ready_world {| volume := gainToDb 0.5 |}
              ["C"; "D"; "E"; "G"; "A"] "C3")
    as (t & hs & cs & Hissued & _).
  - reflexivity.
  - simpl. tauto.
  - reflexivity.
  - exists t, hs, cs. exact Hissued.
Defined.

(** ** The note history *)

Lemma slice_last_length {A : Type} (k : nat) (l : list A) :
  (List.length (JS.slice_last k l) <= k)%nat.
Proof.
  unfold JS.slice_last. rewrite length_skipn. lia.
Qed.

(** What [playNote] does to the context: nothing, or the update of
    [played] followed by a move of the cursor. *)
Lemma playNote_context (key : N) (duration velocity : Q) (w : World) :
  context (exec (playNote key duration velocity) w) = context w \/
  exists n i,
    keyToNote (context w) key = Return n /\
    context (exec (playNote key duration velocity) w)
    = set_progressionIndex i (context (played w n duration velocity)).
Proof.
  destruct (synth (engine w)) as [s |] eqn:Hs.
  - destruct (keyToNote (context w) key) as [n |] eqn:Hn.
    + right.
      destruct (playNote_live_extends key duration velocity w s n Hs Hn)
        as (rs & (_ & [i Hc] & _) & _).
      exists n, i. split; [reflexivity | exact Hc].
    + left. unfold exec. now rewrite (playNote_throws _ _ _ _ _ Hs Hn).
  - left. unfold exec. now rewrite (playNote_cold _ _ _ _ Hs).
Qed.

Lemma updateMusicSettings_context (settings : Settings) (w : World) :
  lastNotesPlayed (context (exec (updateMusicSettings settings) w))
  = lastNotesPlayed (context w) /\
  currentOctave (context (exec (updateMusicSettings settings) w))
  = currentOctave (context w).
Proof.
  destruct w as [[sy rv dl] c [tr ck tk rn dr]], settings as [sv ss sr sd].
  unfold updateMusicSettings. run.
  destruct sy, rv, dl; run; try (split; reflexivity).
  destruct sv, ss as [name |], sr, sd; run;
    try (destruct (JS.truthy (JS.get SCALES name)); run);
    match goal with |- context [Qgtb ?x ?y] => destruct (Qgtb x y) end; run;
    split; reflexivity.
Qed.

(** Across one step the history is kept or gets one note appended and is cut
    to its last 8; the octave baseline is kept. *)
Lemma step_history (w w' : World) :
  step w w' ->
  currentOctave (context w') = currentOctave (context w) /\
  (lastNotesPlayed (context w') = lastNotesPlayed (context w) \/
   exists n,
     lastNotesPlayed (context w')
     = JS.slice_last 8 (lastNotesPlayed (context w) ++ [n])).
Proof.
  intros Hstep.
  destruct Hstep as [volume w | volume started w | key duration velocity w
                     | cb w | settings w | w].
  - destruct w as [[[sy |] rv dl] c [tr ck tk rn dr]];
      unfold initAudioEngine; run;
      (split; [reflexivity | left; reflexivity]).
  - destruct w as [e c [tr ck tk rn dr]];
      unfold initAudioEngine_resume; destruct started; run;
      (split; [reflexivity | left; reflexivity]).
  - destruct (playNote_context key duration velocity w)
      as [-> | (n & i & _ & ->)].
    + split; [reflexivity | left; reflexivity].
    + split; [reflexivity | right]. exists n. reflexivity.
  - destruct w as [[[sy |] rv dl] c [tr ck tk rn dr]];
      unfold run_callback; run;
      (split; [reflexivity | left; reflexivity]).
  - destruct (updateMusicSettings_context settings w) as [-> ->].
    split; [reflexivity | left; reflexivity].
  - destruct w as [[[sy |] [rv |] [dl |]] c [tr ck tk rn dr]];
      unfold cleanupAudioEngine; run;
      (split; [reflexivity | left; reflexivity]).
Qed.

(** X1. Whatever calls are made, the note history never grows beyond 8
    notes, and the octave baseline [currentOctave] is never changed. *)
Theorem history_bounded :
  forall w0 w : World,
    reachable w0 w ->
    (List.length (lastNotesPlayed (context w0)) <= 8)%nat ->
    (List.length (lastNotesPlayed (context w)) <= 8)%nat /\
    currentOctave (context w) = currentOctave (context w0).
Proof.
  intros w0 w Hreach Hstart.
  induction Hreach as [| w w' _ [IHlen IHoct] Hstep].
  - split; [exact Hstart | reflexivity].
  - destruct (step_history w w' Hstep) as [Hoct [Hsame | [n Hcut]]].
    + rewrite Hsame, Hoct. split; assumption.
    + rewrite Hcut, Hoct. split; [apply slice_last_length | exact IHoct].
Qed.

Lemma history_bounded_witness :
  let w :=
    exec (playNote 66 0.5 0.7) (exec (playNote 65 0.5 0.7) ready_world) in
  (List.length (lastNotesPlayed (context w)) <= 8)%nat /\
  currentOctave (context w) = 4.
Proof.
  intros w.
  apply (history_bounded ready_world w).
  - apply reachable_step with (exec (playNote 65 0.5 0.7) ready_world);
      [| apply (step_playNote 66 0.5 0.7)].
    apply reachable_step with ready_world;
      [apply reachable_here | apply (step_playNote 65 0.5 0.7)].
  - simpl. lia.
Defined.

(** ** Tearing the engine down *)

Lemma add_requests_app (rs rs' : list Request) (w : World) :
  add_requests rs' (add_requests rs w) = add_requests (rs ++ rs') w.
Proof.
  unfold add_requests. cbn [engine context host trace clock ticks random draws].
  now rewrite app_assoc.
Qed.

(** [cleanupAudioEngine] as an equation on worlds. *)
Lemma cleanupAudioEngine_world (w : World) :
  cleanupAudioEngine w
  = (Return tt,
     add_requests (disposals (engine w) ++ [TransportStop])
                  (exec (set_engine initial_engine) w)).
Proof.
  destruct w as [[[sy |] [rv |] [dl |]] c [tr ck tk rn dr]];
    unfold cleanupAudioEngine, add_requests, disposals; run;
    rewrite <- ?app_assoc; reflexivity.
Qed.

Lemma run_callback_cold (cb : HarmonyCallback) (w : World) :
  synth (engine w) = None -> run_callback cb w = (Return tt, w).
Proof.
  destruct w as [[sy rv dl] c h]. run. intros ->. reflexivity.
Qed.

Lemma updateMusicSettings_cold (settings : Settings) (w : World) :
  synth (engine w) = None -> updateMusicSettings settings w = (Return tt, w).
Proof.
  destruct w as [[sy rv dl] c h]. run. intros ->. reflexivity.
Qed.

(** X8. [cleanupAudioEngine] disposes the nodes that exist, in the order
    synth, reverb, delay, then stops the transport; it leaves the three
    nodes absent and the musical context as it was (history, queue and
    progression survive a teardown). Called again, it only stops the
    transport once more. *)
Theorem cleanupAudioEngine_effect :
  forall w : World,
    let w' := exec cleanupAudioEngine w in
    fst (cleanupAudioEngine w) = Return tt /\
    engine w' = initial_engine /\
    context w' = context w /\
    issued cleanupAudioEngine w = disposals (engine w) ++ [TransportStop] /\
    issued cleanupAudioEngine w' = [TransportStop] /\
    exec cleanupAudioEngine w' = add_requests [TransportStop] w'.
Proof.
  intros w w'.
  pose proof (cleanupAudioEngine_world w) as Hw.
  assert (Hexec : w' = add_requests (disposals (engine w) ++ [TransportStop])
                                    (exec (set_engine initial_engine) w))
    by (subst w'; unfold exec at 1; now rewrite Hw).
  assert (Hengine : engine w' = initial_engine) by now rewrite Hexec.
  assert (Hagain : exec cleanupAudioEngine w'
                   = add_requests [TransportStop] w').
  { unfold exec at 1. rewrite (cleanupAudioEngine_world w'), Hengine.
    cbn [snd disposals initial_engine synth reverb delay app].
    destruct w' as [e' c' h']. cbn [engine] in Hengine. subst e'.
    reflexivity. }
  split; [now rewrite Hw |].
  split; [exact Hengine |].
  split; [now rewrite Hexec |].
  split; [| split; [| exact Hagain]].
  - unfold issued. fold w'. rewrite Hexec.
    unfold add_requests, exec, set_engine. cbn [snd host trace].
    apply skipn_own_length.
  - now apply issued_add_requests.
Qed.

(** X9. Once the engine is torn down, a harmony timer that fires is silent,
    a settings update is lost whole, and a key press is dropped, requesting
    a new start instead: none of them touches the musical context. *)
Theorem after_cleanup :
  forall w : World,
    let w1 := exec cleanupAudioEngine w in
    (forall cb, run_callback cb w1 = (Return tt, w1)) /\
    (forall settings, updateMusicSettings settings w1 = (Return tt, w1)) /\
    (forall key duration velocity,
        issued (playNote key duration velocity) w1 = [ToneStart 0.5] /\
        context (exec (playNote key duration velocity) w1) = context w).
Proof.
  intros w w1.
  assert (Hengine : engine w1 = initial_engine)
    by (subst w1; unfold exec; now rewrite cleanupAudioEngine_world).
  assert (Hcontext : context w1 = context w)
    by (subst w1; unfold exec; now rewrite cleanupAudioEngine_world).
  assert (Hsynth : synth (engine w1) = None) by now rewrite Hengine.
  split; [intros cb; exact (run_callback_cold cb w1 Hsynth) |].
  split; [intros settings;
          exact (updateMusicSettings_cold settings w1 Hsynth) |].
  intros key duration velocity.
  pose proof (playNote_cold key duration velocity w1 Hsynth) as Hcold.
  split.
  - apply issued_add_requests. unfold exec. now rewrite Hcold.
  - unfold exec. rewrite Hcold. exact Hcontext.
Qed.

(** ** Starting the engine lazily *)

(** X10. Keys pressed while the synth is absent are all dropped: each press
    requests [Tone.start()] again, nothing is played, and the world is
    otherwise unchanged, however many presses there are. *)
Theorem play_all_cold :
  forall (presses : list Press) (w : World),
    synth (engine w) = None ->
    play_all presses w
    = (Return tt,
       add_requests (repeat (ToneStart 0.5) (List.length presses)) w).
Proof.
  induction presses as [| [[key duration] velocity] rest IH]; intros w Hs.
  - cbn [play_all List.length repeat]. unfold ret.
    now rewrite add_requests_nil.
  - cbn [play_all List.length repeat]. unfold bind.
    rewrite (playNote_cold key duration velocity w Hs).
    rewrite IH by exact Hs.
    rewrite add_requests_app. reflexivity.
Qed.

Lemma play_all_cold_witness :
  issued (play_all [(72%N, 0.5%Q, 0.7%Q); (105%N, 0.3%Q, 0.7%Q)])
         cold_world
  = [ToneStart 0.5; ToneStart 0.5].
Proof.
  apply issued_add_requests. unfold exec.
  rewrite (play_all_cold _ cold_world eq_refl). reflexivity.
Defined.

Lemma initAudioEngine_resume_started (volume : Q) (w : World) :
  initialized (engine (exec (initAudioEngine_resume volume true) w)) = true /\
  synth (engine (exec (initAudioEngine_resume volume true) w))
  = Some {| volume := gainToDb volume |} /\
  context (exec (initAudioEngine_resume volume true) w) = context w.
Proof.
  destruct w as [e c [tr ck tk rn dr]].
  unfold initAudioEngine_resume. run. repeat split.
Qed.

(** X11. The lazy start, end to end: a key pressed on an absent synth is
    dropped; if the start it requested is then rejected the engine stays
    absent and the same key is dropped again; once it has resolved, the
    three nodes exist, the context is untouched, and the same key now
    requests its note first, with the duration and velocity given. *)
Theorem lazy_initialization :
  forall (key : N) (duration velocity : Q) (w : World),
    synth (engine w) = None ->
    JS.truthy (JS.get SCALES (currentScale (context w))) = true ->
    let w1 := exec (playNote key duration velocity) w in
    let rejected := exec (initAudioEngine_resume 0.5 false) w1 in
    let resolved := exec (initAudioEngine_resume 0.5 true) w1 in
    issued (playNote key duration velocity) w = [ToneStart 0.5] /\
    issued (playNote key duration velocity) rejected = [ToneStart 0.5] /\
    initialized (engine resolved) = true /\
    context resolved = context w /\
    exists n t rs,
      keyToNote (context w) key = Return n /\
      issued (playNote key duration velocity) resolved
      = TriggerAttackRelease n duration t velocity :: rs.
Proof.
  intros key duration velocity w Hs Htruthy w1 rejected resolved.
  pose proof (playNote_cold key duration velocity w Hs) as Hcold.
  assert (Hw1 : w1 = add_requests [ToneStart 0.5] w)
    by (subst w1; unfold exec; now rewrite Hcold).
  destruct (initAudioEngine_resume_started 0.5 w1)
    as (Hinit & Hsynth & Hctx).
  fold resolved in Hinit, Hsynth, Hctx.
  assert (Hctx' : context resolved = context w)
    by (rewrite Hctx, Hw1; reflexivity).
  split; [apply issued_add_requests; exact Hw1 |].
  split.
  { assert (Hrejected : synth (engine rejected) = None).
    { subst rejected. rewrite Hw1.
      destruct w as [[sy rv dl] c [tr ck tk rn dr]]. exact Hs. }
    apply issued_add_requests. unfold exec.
    now rewrite (playNote_cold key duration velocity rejected Hrejected). }
  split; [exact Hinit | split; [exact Hctx' |]].
  destruct (keyToNote_returns (context w) key Htruthy) as [n Hn].
  assert (Hn' : keyToNote (context resolved) key = Return n)
    by (rewrite Hctx'; exact Hn).
  destruct (playNote_live_extends key duration velocity resolved _ n
                                  Hsynth Hn')
    as (rs & _ & Hissued & _).
  exists n. eexists. exists rs. split; [exact Hn | exact Hissued].
Qed.

Lemma lazy_initialization_witness :
  let w1 := exec (playNote 65 0.5 0.7) cold_world in
  exists t rs,
    issued (playNote 65 0.5 0.7) (exec (initAudioEngine_resume 0.5 true) w1)
    = TriggerAttackRelease "C3" 0.5 t 0.7 :: rs.
Proof.
  intros w1.
  destruct (lazy_initialization 65 0.5 0.7 cold_world eq_refl eq_refl)
    as (_ & _ & _ & _ & n & t & rs & Hn & Hissued).
  injection Hn as <-. exists t, rs. exact Hissued.
Defined.

(** ** Settings on a live engine, in full *)

(** X12. On a live engine [updateMusicSettings] issues no request and takes
    no clock reading; it leaves the note history, the queue and the octave
    baseline alone; each of volume, reverb mix and delay mix is set to the
    value given, or kept when the field is absent, the decay, delay time and
    feedback of the nodes being kept throughout. *)
Theorem updateMusicSettings_live :
  forall (settings : Settings) (w : World) (sy : PolySynth) (rv : Reverb)
         (dl : FeedbackDelay),
    engine w = {| synth := Some sy; reverb := Some rv; delay := Some dl |} ->
    let w' := exec (updateMusicSettings settings) w in
    fst (updateMusicSettings settings w) = Return tt /\
    issued (updateMusicSettings settings) w = [] /\
    ticks (host w') = ticks (host w) /\
    lastNotesPlayed (context w') = lastNotesPlayed (context w) /\
    notesInQueue (context w') = notesInQueue (context w) /\
    currentOctave (context w') = currentOctave (context w) /\
    engine w'
    = {| synth :=
           Some match settings_volume settings with
                | Some v => {| volume := gainToDb v |}
                | None => sy
                end;
         reverb :=
           Some match settings_reverb settings with
                | Some x => {| reverb_decay := reverb_decay rv;
                               reverb_wet := x |}
                | None => rv
                end;
         delay :=
           Some match settings_delay settings with
                | Some x => {| delayTime := delayTime dl;
                               feedback := feedback dl; delay_wet := x |}
                | None => dl
                end |}.
Proof.
  intros [sv ss sr sd] [e c [tr ck tk rn dr]] sy rv dl He.
  cbn [engine] in He. subst e.
  assert (Hnil : skipn (List.length tr) tr = [])
    by (rewrite <- (app_nil_r tr) at 2; apply skipn_own_length).
  unfold issued, updateMusicSettings. run.
  destruct sv, ss as [name |], sr, sd; run;
    try (destruct (JS.truthy (JS.get SCALES name)); run);
    match goal with |- context [Qgtb ?x ?y] => destruct (Qgtb x y) end; run;
    repeat split; exact Hnil.
Qed.

Lemma updateMusicSettings_live_witness :
  reverb_wet
    (match reverb (engine (exec (updateMusicSettings
                                   (mode_settings "minor" 0.7 0.4))
                                ready_world)) with
     | Some r => r
     | None => {| reverb_decay := 0; reverb_wet := 0 |}
     end)
  = 0.7%Q.
Proof.
  destruct (updateMusicSettings_live
              (mode_settings "minor" 0.7 0.4) ready_world
              {| volume := gainToDb 0.5 |}
              {| reverb_decay := 2.5; reverb_wet := 0.3 |}
              {| delayTime := 0.25; feedback := 0.2; delay_wet := 0.2 |}
              eq_refl)
    as (_ & _ & _ & _ & _ & _ & Hengine).
  rewrite Hengine. reflexivity.
Defined.

(** X13. On a live engine, draws being doubles of [0, 1), the progression
    is reshuffled only when the first draw of [updateMusicSettings] is above
    0.7: then a second draw picks the progression, the floor of the double
    product of the draw and 5, always one of the five rows, and the cursor
    goes back to 0 (also when the row picked is the current one); otherwise
    progression and cursor are kept and one draw is made. *)
Theorem updateMusicSettings_reshuffle :
  forall (settings : Settings) (w : World),
    initialized (engine w) = true ->
    double_draws (host w) ->
    let w' := exec (updateMusicSettings settings) w in
    let r := random (host w) (draws (host w)) in
    let r' := random (host w) (S (draws (host w))) in
    ((r <= 0.7)%Q ->
     currentProgression (context w') = currentProgression (context w) /\
     progressionIndex (context w') = progressionIndex (context w) /\
     draws (host w') = S (draws (host w))) /\
    ((0.7 < r)%Q ->
     currentProgression (context w') = Qfloor (round (r' * 5)) /\
     0 <= currentProgression (context w') < 5 /\
     (exists progression,
         JS.nth CHORD_PROGRESSIONS (currentProgression (context w'))
         = Some progression) /\
     progressionIndex (context w') = 0 /\
     draws (host w') = S (S (draws (host w)))).
Proof.
  intros [sv ss sr sd] [[sy rv dl] c [tr ck tk rn dr]].
  unfold initialized, double_draws. run. intros Hinit Hdraws.
  destruct sy, rv, dl; try discriminate Hinit. clear Hinit.
  pose proof (floor_draw (rn (S dr))
                         (double_draw_bound _ (proj1 (Hdraws (S dr)))
                                            (proj2 (Hdraws (S dr)))))
    as Hfloor.
  change (inject_Z 5) with 5%Q in Hfloor.
  assert (Hrow : exists progression,
             JS.nth CHORD_PROGRESSIONS (Qfloor (round (rn (S dr) * 5)))
             = Some progression).
  { set (row := Qfloor (round (rn (S dr) * 5))) in *.
    assert (Hcases : row = 0 \/ row = 1 \/ row = 2 \/ row = 3 \/ row = 4)
      by lia.
    destruct Hcases as [-> | [-> | [-> | [-> | ->]]]];
      eexists; reflexivity. }
  unfold updateMusicSettings. run.
  split; intros Hr.
  - apply Qgtb_false in Hr.
    destruct sv, ss as [name |], sr, sd; run;
      try (destruct (JS.truthy (JS.get SCALES name)); run);
      rewrite Hr; run; repeat split.
  - apply Qgtb_true in Hr.
    destruct sv, ss as [name |], sr, sd; run;
      try (destruct (JS.truthy (JS.get SCALES name)); run);
      rewrite Hr; run;
      (split; [reflexivity |
               split; [exact Hfloor |
                       split; [exact Hrow | split; reflexivity]]]).
Qed.

(** After the first press of the recorded session the next draws are the
    doubles of 0.9 and 0.6: the progression is reshuffled, and the double
    product [0.6 * 5], which rounds to 3, picks row 3. *)
Lemma updateMusicSettings_reshuffle_witness :
  let w := session [(65%N, 0.5%Q, 0.7%Q)] in
  let w' := exec (updateMusicSettings (mode_settings "minor" 0.7 0.4)) w in
  random (host w) (S (draws (host w))) = round 0.6 /\
  currentProgression (context w') = 3 /\
  JS.nth CHORD_PROGRESSIONS (currentProgression (context w'))
  = Some ["C"; "F"; "G"] /\
  progressionIndex (context w') = 0.
Proof.
  intros w w'.
  destruct (updateMusicSettings_reshuffle
              (mode_settings "minor" 0.7 0.4) w eq_refl
              (session_double_draws _))
    as [_ Hshuffle].
  destruct Hshuffle as (Hrow & _ & _ & Hindex & _).
  - apply Qgtb_true. vm_compute. reflexivity.
  - fold w' in Hrow, Hindex.
    assert (Hthree : currentProgression (context w') = 3)
      by (rewrite Hrow; vm_compute; reflexivity).
    split; [reflexivity |].
    split; [exact Hthree |].
    split; [rewrite Hthree; reflexivity | exact Hindex].
Defined.

(** ** The progression as a cycle *)

(** [k] chord branches in a row, as an equation on worlds. *)
Lemma progress_times_world (k : nat) :
  forall (w : World) (s : PolySynth) (progression : list string),
    synth (engine w) = Some s ->
    JS.nth CHORD_PROGRESSIONS (currentProgression (context w))
    = Some progression ->
    0 <= progressionIndex (context w) < Z.of_nat (List.length progression) ->
    (forall j, (j < k)%nat ->
               (random (host w) (draws (host w) + j) <= 0.2)%Q) ->
    let i := progressionIndex (context w) in
    let n := Z.of_nat (List.length progression) in
    progress_times k w
    = (Return tt,
       {| engine := engine w;
          context :=
            set_progressionIndex ((i + Z.of_nat k) mod n) (context w);
          host :=
            {| trace :=
                 trace (host w)
                 ++ map (fun j =>
                           chord_request progression ((i + Z.of_nat j) mod n)
                             (clock (host w) (ticks (host w) + j)))
                        (seq 0 k);
               clock := clock (host w);
               ticks := ticks (host w) + k;
               random := random (host w);
               draws := draws (host w) + k |} |}).
Proof.
  induction k as [| k IH]; intros w s progression Hs Hp Hi Hdraws i n.
  - destruct w as [e c [tr ck tk rn dr]].
    cbn [progress_times seq map]. unfold ret.
    cbn [engine context host trace clock ticks random draws] in *.
    rewrite app_nil_r, !Nat.add_0_r, Z.add_0_r.
    subst i n. rewrite Z.mod_small by lia.
    now rewrite <- set_progressionIndex_same.
  - cbn [progress_times]. unfold bind.
    assert (Hchord : JS.nth progression i
                     = Some (List.nth (Z.to_nat i) progression ""))
      by (apply nth_in_range; exact Hi).
    assert (Hfirst : (random (host w) (draws (host w)) <= 0.2)%Q).
    { specialize (Hdraws 0%nat). rewrite Nat.add_0_r in Hdraws.
      apply Hdraws. lia. }
    rewrite (progressChordSequence_taken w s progression _
                                         Hs Hfirst Hp Hchord).
    set (w1 := chord_played w progression
                            (List.nth (Z.to_nat i) progression "")).
    assert (Hrem : Z.rem (i + 1) n = (i + 1) mod n)
      by (apply Z.rem_mod_nonneg; subst i n; lia).
    assert (Hi1 : progressionIndex (context w1) = (i + 1) mod n)
      by (subst w1; unfold chord_played; cbn [context]; exact Hrem).
    rewrite (IH w1 s progression); try assumption.
    + rewrite Hi1. subst w1. unfold chord_played.
      destruct w as [e c [tr ck tk rn dr]].
      cbn [engine context host trace clock ticks random draws
           set_progressionIndex currentScale currentOctave
           currentProgression progressionIndex lastNotesPlayed
           notesInQueue] in *.
      fold n. f_equal. f_equal.
      * unfold set_progressionIndex.
        cbn [currentScale currentOctave currentProgression
             lastNotesPlayed notesInQueue].
        f_equal. rewrite Zplus_mod_idemp_l. f_equal. lia.
      * f_equal; try lia.
        rewrite <- app_assoc. f_equal.
        cbn [seq map app]. f_equal.
        -- unfold chord_request. rewrite Z.add_0_r, Nat.add_0_r.
           subst i. now rewrite Z.mod_small by lia.
        -- rewrite <- seq_shift, map_map. apply map_ext. intros j.
           rewrite Zplus_mod_idemp_l.
           replace (i + 1 + Z.of_nat j) with (i + Z.of_nat (S j)) by lia.
           replace (S tk + j)%nat with (tk + S j)%nat by lia.
           reflexivity.
    + rewrite Hi1. apply Z.mod_pos_bound. subst n. lia.
    + intros j Hj. subst w1. unfold chord_played. cbn [host random draws].
      replace (S (draws (host w)) + j)%nat
        with (draws (host w) + S j)%nat by lia.
      apply Hdraws. lia.
Qed.

(** X14. Chord branches taken in a row walk the active progression as a
    cycle: after [k] of them the cursor stands [k] positions further, modulo
    the length of the progression, and the chords requested are those at the
    positions passed, in order, one per clock reading; after as many
    branches as the progression has chords the cursor is back where it
    was. *)
Theorem progression_cycle :
  forall (k : nat) (w : World) (s : PolySynth) (progression : list string),
    synth (engine w) = Some s ->
    JS.nth CHORD_PROGRESSIONS (currentProgression (context w))
    = Some progression ->
    0 <= progressionIndex (context w) < Z.of_nat (List.length progression) ->
    (forall j, (j < k)%nat ->
               (random (host w) (draws (host w) + j) <= 0.2)%Q) ->
    let i := progressionIndex (context w) in
    let n := Z.of_nat (List.length progression) in
    let w' := exec (progress_times k) w in
    progressionIndex (context w') = (i + Z.of_nat k) mod n /\
    issued (progress_times k) w
    = map (fun j =>
             chord_request progression ((i + Z.of_nat j) mod n)
                           (clock (host w) (ticks (host w) + j)))
          (seq 0 k) /\
    (k = List.length progression -> progressionIndex (context w') = i).
Proof.
  intros k w s progression Hs Hp Hi Hdraws i n w'.
  pose proof (progress_times_world k w s progression Hs Hp Hi Hdraws)
    as Hworld.
  cbv zeta in Hworld. fold i n in Hworld.
  assert (Hindex : progressionIndex (context w') = (i + Z.of_nat k) mod n)
    by (subst w'; unfold exec; rewrite Hworld; reflexivity).
  split; [exact Hindex |]. split.
  - unfold issued, exec. rewrite Hworld. cbn [snd host trace].
    apply skipn_own_length.
  - intros ->. rewrite Hindex. fold n.
    replace (i + n) with (i + 1 * n) by lia.
    rewrite Z.mod_add by lia. apply Z.mod_small. exact Hi.
Qed.

Lemma progression_cycle_witness :
  let flat :=
    {| engine := ready_engine; context := initial_context;
       host := {| trace := []; clock := clock sample_host; ticks := 0;
                  random := fun _ => 0.1%Q; draws := 0 |} |} in
  progressionIndex (context (exec (progress_times 4) flat)) = 0 /\
  progressionIndex (context (exec (progress_times 3) flat)) = 3.
Proof.
  intros flat.
  assert (Hdraws : forall k j, (j < k)%nat ->
                     (random (host flat) (draws (host flat) + j) <= 0.2)%Q).
  { intros k j _. unfold Qle. simpl. lia. }
  split.
  - destruct (progression_cycle
                4 flat {| volume := gainToDb 0.5 |} ["C"; "G"; "Am"; "F"]
                eq_refl eq_refl)
      as (_ & _ & Hback).
    + simpl. lia.
    + exact (Hdraws 4%nat).
    + apply Hback. reflexivity.
  - destruct (progression_cycle
                3 flat {| volume := gainToDb 0.5 |} ["C"; "G"; "Am"; "F"]
                eq_refl eq_refl)
      as (Hindex & _).
    + simpl. lia.
    + exact (Hdraws 3%nat).
    + rewrite Hindex. reflexivity.
Defined.

Lemma nth_some_In {A : Type} (l : list A) (i : Z) (x : A) :
  JS.nth l i = Some x -> In x l.
Proof.
  unfold JS.nth. destruct (i <? 0); [discriminate |]. apply nth_error_In.
Qed.

Lemma In_chromatic (x : string) :
  existsb (String.eqb x) SCALES_chromatic = true -> In x SCALES_chromatic.
Proof.
  intros H. apply existsb_exists in H. destruct H as (y & Hy & Heq).
  apply String.eqb_eq in Heq. subst y. exact Hy.
Qed.

(** X15. In every world reached from the loaded module, draws being
    doubles of [0, 1), the chord under the cursor resolves to a full triad:
    three notes at octave 2 whose pitch classes are entries of the chromatic
    table. The single-note fallback of [getChordNotes] is never what the
    background plays. *)
Theorem background_chord_is_triad :
  forall w0 w : World,
    loaded w0 -> double_draws (host w0) -> reachable w0 w ->
    exists progression chord,
      JS.nth CHORD_PROGRESSIONS (currentProgression (context w))
      = Some progression /\
      JS.nth progression (progressionIndex (context w)) = Some chord /\
      List.length (getChordNotes chord) = 3%nat /\
      Forall (fun n => JS.final n = "2" /\ In (JS.init n) SCALES_chromatic)
             (getChordNotes chord).
Proof.
  intros w0 w Hloaded Hdraws Hreach.
  destruct (reachable_invariant w0 w Hloaded Hdraws Hreach) as [Hwf _].
  destruct (wf_context_chord (context w) Hwf)
    as (progression & chord & Hp & Hc).
  exists progression, chord.
  split; [exact Hp | split; [exact Hc |]].
  apply nth_some_In in Hp. apply nth_some_In in Hc.
  unfold CHORD_PROGRESSIONS in Hp. cbn [In] in Hp.
  repeat (destruct Hp as [<- | Hp];
          [cbn [In] in Hc;
           repeat (destruct Hc as [<- | Hc];
                   [split; [reflexivity |];
                    repeat (apply Forall_cons;
                            [split;
                             [reflexivity
                             | apply In_chromatic; reflexivity] |]);
                    apply Forall_nil |]);
           destruct Hc |]).
  destruct Hp.
Qed.

(** The studio after five steps: a press that starts the engine, the start
    resolving, a press, a settings update that reshuffles to row 3 (the
    double product [0.6 * 5] rounds to 3), and a press whose chord branch
    moves the cursor to 1, on the chord [F]. *)
Lemma background_chord_is_triad_witness :
  let w :=
    exec (playNote 68 0.5 0.7)
      (exec (updateMusicSettings (mode_settings "minor" 0.7 0.4))
         (exec (playNote 65 0.5 0.7)
            (exec (initAudioEngine_resume 0.5 true)
               (exec (playNote 65 0.5 0.7) studio)))) in
  currentProgression (context w) = 3 /\
  progressionIndex (context w) = 1 /\
  exists progression chord,
    JS.nth CHORD_PROGRESSIONS (currentProgression (context w))
    = Some progression /\
    JS.nth progression (progressionIndex (context w)) = Some chord /\
    getChordNotes chord = ["F2"; "A2"; "C2"].
Proof.
  intros w.
  assert (Hreach : reachable studio w).
  { subst w.
    apply reachable_step with (2 := step_playNote _ _ _ _).
    apply reachable_step with (2 := step_updateMusicSettings _ _).
    apply reachable_step with (2 := step_playNote _ _ _ _).
    apply reachable_step with (2 := step_resume _ _ _).
    apply reachable_step with (2 := step_playNote _ _ _ _).
    apply reachable_here. }
  assert (Hrow : currentProgression (context w) = 3)
    by (vm_compute; reflexivity).
  assert (Hcursor : progressionIndex (context w) = 1)
    by (vm_compute; reflexivity).
  destruct (background_chord_is_triad studio w studio_loaded
                                      studio_double_draws Hreach)
    as (progression & chord & Hp & Hc & _ & _).
  split; [exact Hrow | split; [exact Hcursor |]].
  exists progression, chord.
  split; [exact Hp | split; [exact Hc |]].
  rewrite Hrow in Hp. injection Hp as <-.
  rewrite Hcursor in Hc. injection Hc as <-.
  reflexivity.
Defined.

(** ** What playing never changes *)

Lemma try_catch_returns (m : M unit) (w : World) :
  fst (try_catch m w) = Return tt.
Proof.
  unfold try_catch. destruct (m w) as [[[] |] w']; reflexivity.
Qed.

(** X16. Playing a note never changes the engine nodes, the current scale,
    the octave baseline, the active progression or the oracles, in any
    world and whatever the outcome: of the context only the history, the
    queue and the cursor can move. *)
Theorem playNote_keeps_settings :
  forall (key : N) (duration velocity : Q) (w : World),
    let w' := exec (playNote key duration velocity) w in
    fst (playNote key duration velocity w) = Return tt /\
    engine w' = engine w /\
    currentScale (context w') = currentScale (context w) /\
    currentOctave (context w') = currentOctave (context w) /\
    currentProgression (context w') = currentProgression (context w) /\
    clock (host w') = clock (host w) /\
    random (host w') = random (host w).
Proof.
  intros key duration velocity w.
  destruct (playNote_oracles key duration velocity w) as [Hclock Hrandom].
  assert (Hreturn : fst (playNote key duration velocity w) = Return tt).
  { destruct (synth (engine w)) as [s |] eqn:Hs.
    - unfold playNote, bind at 1. cbn [get_engine]. rewrite Hs.
      apply try_catch_returns.
    - now rewrite (playNote_cold _ _ _ _ Hs). }
  assert (Hengine : engine (exec (playNote key duration velocity) w)
                    = engine w).
  { destruct (synth (engine w)) as [s |] eqn:Hs.
    - destruct (keyToNote (context w) key) as [n |] eqn:Hn.
      + destruct (playNote_live_extends key duration velocity w s n Hs Hn)
          as (rs & (He & _) & _).
        rewrite He. reflexivity.
      + unfold exec. now rewrite (playNote_throws _ _ _ _ _ Hs Hn).
    - unfold exec. now rewrite (playNote_cold _ _ _ _ Hs). }
  cbv zeta.
  split; [exact Hreturn | split; [exact Hengine |]].
  destruct (playNote_context key duration velocity w)
    as [Hsame | (n & i & _ & Hmoved)].
  - rewrite Hsame. repeat split; assumption.
  - rewrite Hmoved. repeat split; assumption.
Qed.

(** ** The mode button *)

Lemma updateMusicSettings_returns (settings : Settings) (w : World) :
  fst (updateMusicSettings settings w) = Return tt.
Proof.
  destruct w as [[sy rv dl] c [tr ck tk rn dr]], settings as [sv ss sr sd].
  unfold updateMusicSettings. run.
  destruct sy, rv, dl; run; try reflexivity.
  destruct sv, ss as [name |], sr, sd; run;
    try (destruct (JS.truthy (JS.get SCALES name)); run);
    match goal with |- context [Qgtb ?x ?y] => destruct (Qgtb x y) end;
    reflexivity.
Qed.

Lemma updateMusicSettings_not_initialized (settings : Settings) (w : World) :
  initialized (engine w) = false ->
  updateMusicSettings settings w = (Return tt, w).
Proof.
  destruct w as [[sy rv dl] c h]. unfold initialized. run.
  destruct sy, rv, dl; intros H; try discriminate H; reflexivity.
Qed.

Lemma then_ret {A : Type} (m : M unit) (a : A) (w : World) :
  fst (m w) = Return tt ->
  (m ;;; ret a) w = (Return a, exec m w).
Proof.
  unfold bind, ret, exec. destruct (m w) as [[[] |] w']; cbn [fst snd];
    intros H; [reflexivity | discriminate H].
Qed.

(** X17. The mode button steps piano, ambient, electronic and back to
    piano, whatever the engine does. On an initialized engine the scale of
    the new mode, always a registry scale, becomes the current scale; on an
    engine that is not initialized the mode still advances while the world
    stays as it was, so the mode shown and the scale played can differ. *)
Theorem cycleMusicMode_modes :
  forall (m : MusicMode) (w : World),
    let next := fun x => match x with
                         | piano => ambient
                         | ambient => electronic
                         | electronic => piano
                         end in
    let scale_of := fun x => match x with
                             | piano => "pentatonic"
                             | ambient => "minor"
                             | electronic => "chromatic"
                             end in
    let w' := exec (cycleMusicMode m) w in
    fst (cycleMusicMode m w) = Return (Some (next m)) /\
    next (next (next m)) = m /\
    (initialized (engine w) = true ->
     currentScale (context w') = scale_of (next m) /\
     In (scale_of (next m)) scale_names) /\
    (initialized (engine w) = false -> w' = w).
Proof.
  intros m w next scale_of.
  assert (Hcall : forall scale rv dl (x : option MusicMode),
             (updateMusicSettings (mode_settings scale rv dl) ;;; ret x) w
             = (Return x,
                exec (updateMusicSettings (mode_settings scale rv dl)) w))
    by (intros; apply then_ret, updateMusicSettings_returns).
  assert (Hscale : forall scale rv dl,
             In scale scale_names ->
             initialized (engine w) = true ->
             currentScale
               (context
                  (exec (updateMusicSettings (mode_settings scale rv dl)) w))
             = scale).
  { intros scale rv dl Hin Hinit.
    apply updateMusicSettings_known_scale with (name := scale);
      [exact Hinit | reflexivity | exact Hin]. }
  assert (Hcold : forall scale rv dl,
             initialized (engine w) = false ->
             exec (updateMusicSettings (mode_settings scale rv dl)) w = w).
  { intros scale rv dl Hinit. unfold exec.
    now rewrite updateMusicSettings_not_initialized. }
  assert (Hnext : JS.nth modes
                    (Z.rem (modes_indexOf m + 1)
                           (Z.of_nat (List.length modes)))
                  = Some (next m))
    by (destruct m; reflexivity).
  assert (Hregistry : In (scale_of (next m)) scale_names)
    by (destruct m; cbn; tauto).
  cbv zeta. unfold exec at 1 2. unfold cycleMusicMode. rewrite Hnext.
  destruct m; cbn [next scale_of] in *; rewrite Hcall; cbn [fst snd];
    (split; [reflexivity | split; [reflexivity | split]]);
    solve [ intros Hinit; split;
            [apply Hscale; [exact Hregistry | exact Hinit]
            | exact Hregistry]
          | apply Hcold ].
Qed.

Lemma cycleMusicMode_modes_witness :
  currentScale (context (exec (cycleMusicMode piano) ready_world)) = "minor" /\
  exec (cycleMusicMode piano) cold_world = cold_world.
Proof.
  destruct (cycleMusicMode_modes piano ready_world) as (_ & _ & Hlive & _).
  destruct (cycleMusicMode_modes piano cold_world) as (_ & _ & _ & Hcold).
  split.
  - exact (proj1 (Hlive eq_refl)).
  - exact (Hcold eq_refl).
Defined.

(** ** What a played note leaves behind *)

Lemma filter_none {A : Type} (f : A -> bool) (l : list A) :
  Forall (fun x => f x = false) l -> filter f l = [].
Proof.
  induction 1 as [| x l Hx _ IH]; cbn [filter]; [reflexivity |].
  now rewrite Hx.
Qed.

(** X18. A note played on a live engine is recorded: the history becomes
    the last 7 notes it held followed by the new note, and the queue
    becomes the entries of the old queue, in their order, that pass the
    pruning test at the second clock reading, followed by the new note
    stamped with the first reading if that one passes too. The test is the
    double subtraction of the source compared with 2: an entry passes
    exactly when its age, computed exactly, is below [2 - 2^-53], an age
    from there up to 2 being rounded to 2. The queue grows by one entry at
    most. *)
Theorem playNote_records :
  forall (key : N) (duration velocity : Q) (w : World) (s : PolySynth)
         (n : string),
    synth (engine w) = Some s ->
    keyToNote (context w) key = Return n ->
    let w' := exec (playNote key duration velocity) w in
    let t := clock (host w) (ticks (host w)) in
    let now := clock (host w) (S (ticks (host w))) in
    let fresh := fun e => Qltb (round (now - time e)) 2 in
    lastNotesPlayed (context w')
    = JS.slice_last 7 (lastNotesPlayed (context w)) ++ [n] /\
    notesInQueue (context w')
    = filter fresh (notesInQueue (context w))
      ++ (if fresh {| note := n; time := t |}
          then [{| note := n; time := t |}] else []) /\
    (forall e, fresh e = true <-> (now - time e < below_two)%Q) /\
    (List.length (notesInQueue (context w'))
     <= S (List.length (notesInQueue (context w))))%nat.
Proof.
  intros key duration velocity w s n Hs Hn.
  destruct (playNote_live_extends key duration velocity w s n Hs Hn)
    as (rs & (_ & [i Hc] & _) & _).
  cbv zeta. rewrite Hc. unfold played.
  cbn [context set_progressionIndex set_notesInQueue set_lastNotesPlayed
       lastNotesPlayed notesInQueue].
  unfold pruned_queue. rewrite filter_app. cbn [filter].
  split; [apply (slice_last_snoc 8); lia | split; [reflexivity | split]].
  - intros e. rewrite Qltb_true. apply round_lt_two.
  - rewrite length_app.
    pose proof (filter_length_le
                  (fun e => Qltb (round (clock (host w) (S (ticks (host w)))
                                         - time e)) 2)
                  (notesInQueue (context w))) as Hle.
    destruct (Qltb _ 2); cbn [List.length]; lia.
Qed.

(** Two presses of the recorded session. The fourth finds [G3] and [D4]
    queued: [G3], stamped 2.01 s before the pruning reading, goes, [D4]
    stays and [A4] joins it. The second finds [C3] queued, stamped at block
    17 and pruned at block 767, 2 s later on the sample grid: the readings
    are doubles whose exact difference is below 2 and whose double
    difference is 2, so [C3] goes. *)
Lemma playNote_records_witness :
  let w1 := session [(65%N, 0.5%Q, 0.7%Q)] in
  let w3 := session [(65%N, 0.5%Q, 0.7%Q); (68%N, 0.5%Q, 0.7%Q);
                     (71%N, 0.5%Q, 0.7%Q)] in
  let w4 := exec (playNote 74 0.5 0.7) w3 in
  let w2 := exec (playNote 68 0.5 0.7) w1 in
  (map note (notesInQueue (context w3)) = ["G3"; "D4"] /\
   lastNotesPlayed (context w4) = ["C3"; "G3"; "D4"; "A4"] /\
   notesInQueue (context w4)
   = [ {| note := "D4"; time := clock studio_host 7 |};
       {| note := "A4"; time := clock studio_host 11 |} ]) /\
  (map note (notesInQueue (context w1)) = ["C3"] /\
   (clock studio_host 5 - clock studio_host 1 < 2)%Q /\
   notesInQueue (context w2)
   = [ {| note := "G3"; time := clock studio_host 4 |} ]).
Proof.
  intros w1 w3 w4 w2.
  destruct (playNote_records 74 0.5 0.7 w3 {| volume := gainToDb 0.5 |} "A4"
                             eq_refl eq_refl)
    as (Hhistory4 & Hqueue4 & _).
  destruct (playNote_records 68 0.5 0.7 w1 {| volume := gainToDb 0.5 |} "G3"
                             eq_refl eq_refl)
    as (_ & Hqueue2 & _).
  fold w4 in Hhistory4, Hqueue4. fold w2 in Hqueue2.
  split; [split; [| split] | split; [| split]].
  - vm_compute. reflexivity.
  - rewrite Hhistory4. vm_compute. reflexivity.
  - rewrite Hqueue4. vm_compute. reflexivity.
  - vm_compute. reflexivity.
  - apply Qltb_true. vm_compute. reflexivity.
  - rewrite Hqueue2. vm_compute. reflexivity.
Defined.

(** X19. A note played when every queued note is 2 seconds old or more at
    the pruning reading is never harmonised: no timer is registered,
    whatever the draw. Harmony takes two notes less than 2 seconds apart. *)
Theorem no_harmony_after_silence :
  forall (key : N) (duration velocity : Q) (w : World),
    let now := clock (host w) (S (ticks (host w))) in
    Forall (fun e => (2 <= now - time e)%Q) (notesInQueue (context w)) ->
    existsb is_timer (issued (playNote key duration velocity) w) = false.
Proof.
  intros key duration velocity w now Hstale.
  destruct (existsb is_timer (issued (playNote key duration velocity) w))
    eqn:Htimer; [exfalso | reflexivity].
  destruct (synth (engine w)) as [s |] eqn:Hs.
  - destruct (keyToNote (context w) key) as [n |] eqn:Hn.
    + destruct (playNote_live_extends key duration velocity w s n Hs Hn)
        as (rs & _ & Hissued & Hcond).
      rewrite Hissued in Htimer. cbn [existsb is_timer orb] in Htimer.
      destruct (Hcond Htimer) as [Hlen _].
      unfold played in Hlen.
      cbn [context set_notesInQueue notesInQueue] in Hlen.
      unfold pruned_queue in Hlen. rewrite filter_app in Hlen.
      rewrite (filter_none _ (notesInQueue (context w))) in Hlen.
      * cbn [app filter] in Hlen.
        destruct (Qltb _ 2); cbn [List.length] in Hlen; lia.
      * apply Forall_impl with (2 := Hstale). intros e He. fold now.
        destruct (Qltb (round (now - time e)) 2) eqn:Hfresh; [| reflexivity].
        apply Qltb_true in Hfresh. apply round_two in He. lra.
    + rewrite issued_nothing in Htimer; [discriminate Htimer |].
      unfold exec. now rewrite (playNote_throws _ _ _ _ _ Hs Hn).
  - rewrite (issued_add_requests _ _ [ToneStart 0.5]) in Htimer;
      [discriminate Htimer |].
    unfold exec. now rewrite (playNote_cold _ _ _ _ Hs).
Qed.

(** The fifth press of the recorded session comes after a pause: the two
    notes queued, [D4] and [A4], are 5.6 s and 3.9 s old at the pruning
    reading, and no timer is registered. *)
Lemma no_harmony_after_silence_witness :
  let w := session [(65%N, 0.5%Q, 0.7%Q); (68%N, 0.5%Q, 0.7%Q);
                    (71%N, 0.5%Q, 0.7%Q); (74%N, 0.5%Q, 0.7%Q)] in
  map note (notesInQueue (context w)) = ["D4"; "A4"] /\
  existsb is_timer (issued (playNote 77 0.5 0.7) w) = false.
Proof.
  intros w. split; [vm_compute; reflexivity |].
  apply (no_harmony_after_silence 77 0.5 0.7 w).
  assert (Hqueue : notesInQueue (context w)
                   = [ {| note := "D4"; time := clock studio_host 7 |};
                       {| note := "A4"; time := clock studio_host 11 |} ])
    by (vm_compute; reflexivity).
  rewrite Hqueue.
  repeat (apply Forall_cons; [Qdecide |]). apply Forall_nil.
Defined.

(** X20. The cap makes distant letters collide: on a registry scale of
    length [n], two letters whose alphabet positions are both [2n] or more
    and agree modulo [n] map to the same note, at octave 5. *)
Theorem distant_letters_collide :
  forall (c : Context) (items : list string) (k1 k2 : N),
    In (currentScale c, items) SCALES ->
    test_letter k1 = true ->
    test_letter k2 = true ->
    let n := Z.of_nat (List.length items) in
    2 * n <= key_position k1 ->
    2 * n <= key_position k2 ->
    key_position k1 mod n = key_position k2 mod n ->
    keyToNote c k1 = keyToNote c k2 /\
    exists label,
      In label items /\ keyToNote c k1 = Return (label ++ "5")%string.
Proof.
  intros c items k1 k2 Hscale H1 H2 n Hp1 Hp2 Hmod.
  pose proof (registry_length _ _ Hscale) as Hn. fold n in Hn.
  rewrite (keyToNote_registry c items k1 Hscale).
  rewrite (keyToNote_registry c items k2 Hscale).
  unfold key_position in *. rewrite H1 in *. rewrite H2 in *.
  cbv zeta. unfold note_at. fold n.
  set (p1 := toUpperCase_charCodeAt0 k1 - 65) in *.
  set (p2 := toUpperCase_charCodeAt0 k2 - 65) in *.
  assert (Hcap : forall p, 2 * n <= p ->
             Z.min (min OCTAVE_RANGES.letters + p / n)
                   (max OCTAVE_RANGES.letters) = 5).
  { intros p Hp. cbn [min max OCTAVE_RANGES.letters].
    assert (2 <= p / n) by (apply Z.div_le_lower_bound; lia). lia. }
  rewrite (Hcap p1 Hp1), (Hcap p2 Hp2), Hmod.
  split; [reflexivity |].
  exists (List.nth (Z.to_nat (p2 mod n)) items "").
  split; [| reflexivity].
  apply nth_In. pose proof (Z.mod_pos_bound p2 n). lia.
Qed.

Lemma distant_letters_collide_witness :
  keyToNote initial_context 75 = keyToNote initial_context 80.
Proof.
  apply (distant_letters_collide initial_context
                                 ["C"; "D"; "E"; "G"; "A"] 75 80).
  - simpl. tauto.
  - reflexivity.
  - reflexivity.
  - vm_compute. discriminate.
  - vm_compute. discriminate.
  - reflexivity.
Defined.

(** ** The colour of a key *)

(** X21. [getKeyColor] returns the colour it is given unless that is the
    default; for the default it returns an [hsl] colour whose hue is 15
    times the first code unit modulo 24, a multiple of 15 below 360, so
    that keys whose codes differ by a multiple of 24 share their colour;
    on the empty key the hue is NaN. *)
Theorem getKeyColor_hue :
  (forall (color : string) (key : list N),
      color <> "#6366f1" -> getKeyColor color key = color) /\
  (forall (code : N) (rest : list N),
      let hue := 15 * (Z.of_N code mod 24) in
      getKeyColor "#6366f1" (code :: rest)
      = ("hsl(" ++ Spec.decimal hue ++ ", 80%, 60%)")%string /\
      0 <= hue < 360) /\
  (forall (c1 c2 : N) (r1 r2 : list N),
      Z.of_N c1 mod 24 = Z.of_N c2 mod 24 ->
      getKeyColor "#6366f1" (c1 :: r1) = getKeyColor "#6366f1" (c2 :: r2)) /\
  getKeyColor "#6366f1" [] = "hsl(NaN, 80%, 60%)".
Proof.
  assert (Hhue : forall code : N,
             Z.rem (Z.of_N code * 15) 360 = 15 * (Z.of_N code mod 24)).
  { intros code. rewrite Z.rem_mod_nonneg by lia.
    replace (Z.of_N code * 15) with (15 * Z.of_N code) by lia.
    change 360 with (15 * 24). rewrite Z.mul_mod_distr_l by lia.
    reflexivity. }
  assert (Hcolor : forall code rest,
             getKeyColor "#6366f1" (code :: rest)
             = ("hsl(" ++ Spec.decimal (15 * (Z.of_N code mod 24))
                ++ ", 80%, 60%)")%string).
  { intros code rest. unfold getKeyColor.
    cbn [String.eqb Ascii.eqb Bool.eqb negb JS.rem].
    rewrite Hhue. reflexivity. }
  split; [| split; [| split]].
  - intros color key Hcolor'. unfold getKeyColor.
    destruct (String.eqb_spec color "#6366f1"); [contradiction |].
    reflexivity.
  - intros code rest hue. split; [apply Hcolor |].
    subst hue. pose proof (Z.mod_pos_bound (Z.of_N code) 24). lia.
  - intros c1 c2 r1 r2 Hmod. now rewrite !Hcolor, Hmod.
  - reflexivity.
Qed.

Lemma getKeyColor_hue_witness :
  getKeyColor "#ff0000" [65%N] = "#ff0000" /\
  getKeyColor "#6366f1" [65%N] = getKeyColor "#6366f1" [89%N; 90%N].
Proof.
  destruct getKeyColor_hue as (Hgiven & _ & Hshare & _).
  split.
  - apply Hgiven. discriminate.
  - apply Hshare. reflexivity.
Defined.
